(** * The dictionary pipeline: normalisation, deduplication, ranking, checking

    A shallow embedding of the scripts under [dictionary-pipeline/scripts]:
    - [_common.py]               ([clean_whitespace], the CSV helpers),
    - [normalize_dictionary.py]  ([normalize_word], [pick_better_definition],
                                  the loops of [main]),
    - [compute_lex_rank.py]      ([sort_key] and the ranking of [main]),
    - [sanity_check_ranked.py]   (the checks of [main] and its exit code),
    - [build_final_csv.py]       (the rows of the final CSV),
    - [upload_to_supabase.py]    (the rows and the batches of the upload).

    Python [str] values are sequences of code points, CSV rows are
    dictionaries from column names to strings, and an uncaught exception is an
    explicit [Raise] result. *)

From Stdlib Require Import ZArith NArith List Sorted Ascii String DecimalString.
From Stdlib Require DecimalFacts DecimalPos.
From stdpp Require Import gmap strings list sorting lexico.

Open Scope N_scope.

(** ** Python strings *)

(** A [str] is the list of its code points. *)
Abbreviation pystr := (list N).

(** An ASCII literal as a [str]. *)
Definition py (s : string) : pystr :=
  N_of_ascii <$> list_ascii_of_string s.

(** [a < b] on [str], on [int] and on tuples of them is the lexicographic
    order on code points and components. *)
Definition py_lt `{Lexico K, !TrichotomyT (@lexico K _), !StrictOrder (@lexico K _)}
    (a b : K) : bool :=
  bool_decide (lexico a b).

(** [len(s)]. *)
Definition len {A} (s : list A) : Z := Z.of_nat (length s).

(** [a <= b] on [str]. *)
Definition str_le (a b : pystr) : Prop := ¬ lexico b a.

(** ** The interpreter's character data

    What the scripts take from the interpreter and its Unicode database is
    kept in one record, so that the general results hold for every version of
    the database. *)
Record Unicode := {
  (** [Py_UNICODE_ISSPACE]: [str.isspace], [str.strip()] and the regular
      expression class [\s] on [str] patterns. *)
  isspace : N → bool;
  (** [str.lower()]. *)
  lower : pystr → pystr;
  (** [unicodedata.normalize("NFKD", _)]. *)
  NFKD : pystr → pystr;
  (** [Py_UNICODE_TODECIMAL]: the value of a decimal digit. *)
  todecimal : N → option N;
  (** [sys.get_int_max_str_digits()], [0] when the limit is off. *)
  int_max_str_digits : nat;
}.

(** ** Exceptions *)

Inductive exn : Set := ValueError.

Inductive result (A : Type) :=
  | Ok (a : A)
  | Raise (e : exn).
Arguments Ok {A} a.
Arguments Raise {A} e.

Global Instance exn_eq_dec : EqDecision exn.
Proof. solve_decision. Defined.
Global Instance result_eq_dec `{EqDecision A} : EqDecision (result A).
Proof. solve_decision. Defined.

Global Instance result_ret : MRet result := λ A a, Ok a.
Global Instance result_bind : MBind result := λ A B f m,
  match m with
  | Ok a => f a
  | Raise e => Raise e
  end.

(** The exit status of the process for a script that ends in
    [raise SystemExit(main(sys.argv[1:]))]: the value [main] returns, and [1]
    when an exception leaves [main]. *)
Definition exit_status (r : result Z) : Z :=
  match r with
  | Ok code => code
  | Raise _ => 1%Z
  end.

Section Builtins.
Context (U : Unicode).

(** *** [str.strip()] *)

Fixpoint lstrip (s : pystr) : pystr :=
  match s with
  | [] => []
  | c :: s' => if isspace U c then lstrip s' else s
  end.

Definition rstrip (s : pystr) : pystr := rev (lstrip (rev s)).

Definition strip (s : pystr) : pystr := rstrip (lstrip s).

(** *** [int(s)] for a [str]

    The text is first brought to ASCII
    ([_PyUnicode_TransformDecimalAndSpaceToASCII]): an ASCII character is
    kept, another space becomes [' '], another decimal digit becomes its
    ASCII digit and anything else becomes ['?']. *)
Definition to_ascii_decimal (c : N) : N :=
  if c <? 128 then c
  else if isspace U c then 32
  else match todecimal U c with
       | Some d => 48 + d
       | None => 63
       end.

(** [Py_ISSPACE]. *)
Definition ascii_isspace (c : N) : bool :=
  ((9 <=? c) && (c <=? 13)) || (c =? 32).

Fixpoint skip_ascii_space (s : pystr) : pystr :=
  match s with
  | [] => []
  | c :: s' => if ascii_isspace c then skip_ascii_space s' else s
  end.

Definition ascii_digit (c : N) : option Z :=
  if (48 <=? c) && (c <=? 57) then Some (Z.of_N (c - 48)) else None.

(** The digit loop of [PyLong_FromString] in base 10: digits with single
    underscores between them. [prev_us] says that the previous character
    was an underscore; the result is the value, the number of digits and
    the text left. *)
Fixpoint scan_digits (prev_us : bool) (acc : Z) (digits : nat) (s : pystr)
    : option (Z * nat * pystr) :=
  match s with
  | [] => if prev_us then None else Some (acc, digits, [])
  | c :: s' =>
      match ascii_digit c with
      | Some d => scan_digits false (10 * acc + d)%Z (S digits) s'
      | None =>
          if c =? 95 then
            if prev_us then None else scan_digits true acc digits s'
          else if prev_us then None else Some (acc, digits, s)
      end
  end.

Definition int (text : pystr) : result Z :=
  let s := skip_ascii_space (to_ascii_decimal <$> text) in
  let '(sign, s) :=
    match s with
    | 43 :: s' => (1%Z, s')
    | 45 :: s' => ((-1)%Z, s')
    | _ => (1%Z, s)
    end in
  match s with
  | 95 :: _ => Raise ValueError
  | _ =>
      match scan_digits false 0 0 s with
      | None => Raise ValueError
      | Some (v, digits, rest) =>
          if bool_decide (640 < digits ∧ 0 < int_max_str_digits U
                          ∧ int_max_str_digits U < digits)%nat
          then Raise ValueError
          else if bool_decide (digits = 0%nat) then Raise ValueError
          else match skip_ascii_space rest with
               | [] => Ok (sign * v)%Z
               | _ :: _ => Raise ValueError
               end
      end
  end.

(** ** [_common.py] *)

(** [WHITESPACE_RE.sub(" ", text)] for [WHITESPACE_RE = re.compile(r"\s+")]:
    every maximal run of spaces becomes one [' ']. [in_run] says that the
    previous character belonged to a run. *)
Fixpoint sub_whitespace (in_run : bool) (text : pystr) : pystr :=
  match text with
  | [] => []
  | c :: text' =>
      if isspace U c then
        if in_run then sub_whitespace true text'
        else 32 :: sub_whitespace true text'
      else c :: sub_whitespace false text'
  end.

Definition clean_whitespace (text : pystr) : pystr :=
  strip (sub_whitespace false text).

(** ** [normalize_dictionary.py] *)

(** [decomposed.encode("ascii", "ignore").decode("ascii")]. *)
Definition encode_ascii_ignore (s : pystr) : pystr :=
  List.filter (λ ch, ch <? 128) s.

Definition normalize_word (raw_word : pystr) : pystr :=
  let lowered := lower U (clean_whitespace raw_word) in
  let decomposed := NFKD U lowered in
  let ascii_text := encode_ascii_ignore decomposed in
  let letters_only := List.filter (λ ch, (97 <=? ch) && (ch <=? 122)) ascii_text in
  letters_only.
End Builtins.

(** ** The Latin-1 block of the character data

    The tables of Unicode for the code points U+0000 to U+00FF. Code points
    above U+00FF are outside these tables (they are left as they are), so
    [latin1] stands for the interpreter on Latin-1 text only. *)

Definition latin1_isspace (c : N) : bool :=
  ((9 <=? c) && (c <=? 13)) || ((28 <=? c) && (c <=? 32))
  || (c =? 133) || (c =? 160).

Definition latin1_lower_char (c : N) : N :=
  if ((65 <=? c) && (c <=? 90))
     || ((192 <=? c) && (c <=? 222) && negb (c =? 215))
  then c + 32 else c.

(** The compatibility decompositions (fully expanded) of the block. *)
Definition latin1_decompositions : list (N * pystr) :=
  [ (160, [32]); (168, [32; 776]); (170, [97]); (175, [32; 772]); (178, [50]);
    (179, [51]); (180, [32; 769]); (181, [956]); (184, [32; 807]);
    (185, [49]); (186, [111]); (188, [49; 8260; 52]); (189, [49; 8260; 50]);
    (190, [51; 8260; 52]); (192, [65; 768]); (193, [65; 769]);
    (194, [65; 770]); (195, [65; 771]); (196, [65; 776]); (197, [65; 778]);
    (199, [67; 807]); (200, [69; 768]); (201, [69; 769]); (202, [69; 770]);
    (203, [69; 776]); (204, [73; 768]); (205, [73; 769]); (206, [73; 770]);
    (207, [73; 776]); (209, [78; 771]); (210, [79; 768]); (211, [79; 769]);
    (212, [79; 770]); (213, [79; 771]); (214, [79; 776]); (217, [85; 768]);
    (218, [85; 769]); (219, [85; 770]); (220, [85; 776]); (221, [89; 769]);
    (224, [97; 768]); (225, [97; 769]); (226, [97; 770]); (227, [97; 771]);
    (228, [97; 776]); (229, [97; 778]); (231, [99; 807]); (232, [101; 768]);
    (233, [101; 769]); (234, [101; 770]); (235, [101; 776]);
    (236, [105; 768]); (237, [105; 769]); (238, [105; 770]);
    (239, [105; 776]); (241, [110; 771]); (242, [111; 768]);
    (243, [111; 769]); (244, [111; 770]); (245, [111; 771]);
    (246, [111; 776]); (249, [117; 768]); (250, [117; 769]);
    (251, [117; 770]); (252, [117; 776]); (253, [121; 769]);
    (255, [121; 776]) ].

Fixpoint assoc (c : N) (table : list (N * pystr)) : option pystr :=
  match table with
  | [] => None
  | (k, v) :: table' => if c =? k then Some v else assoc c table'
  end.

(** A Latin-1 character decomposes into a starter followed by at most one
    combining mark, so no reordering of marks takes place. *)
Definition latin1_NFKD (s : pystr) : pystr :=
  flat_map (λ c, default [c] (assoc c latin1_decompositions)) s.

Definition latin1_todecimal (c : N) : option N :=
  if (48 <=? c) && (c <=? 57) then Some (c - 48) else None.

Definition latin1 : Unicode := {|
  isspace := latin1_isspace;
  lower := map latin1_lower_char;
  NFKD := latin1_NFKD;
  todecimal := latin1_todecimal;
  int_max_str_digits := 4300;
|}.


(** ** CSV tables

    [read_csv_rows] returns the rows of a CSV file as dictionaries from the
    column names of its header to the cells, all of them [str]. *)
Abbreviation row := (gmap string pystr).

(** [row.get(key, fallback)]. *)
Definition get (r : row) (key : string) (fallback : pystr) : pystr :=
  default fallback (r !! key).

(** [row.get(key) or fallback]: the fallback replaces a missing cell and an
    empty one. *)
Definition get_or (r : row) (key : string) (fallback : pystr) : pystr :=
  match r !! key with
  | Some (c :: s) => c :: s
  | _ => fallback
  end.

(** The values of the dictionaries handed to [write_csv_rows]. *)
Inductive pyval :=
  | VStr (s : pystr)
  | VInt (z : Z).

Global Instance pyval_eq_dec : EqDecision pyval.
Proof. solve_decision. Defined.

(** [str(z)] for an [int]. *)
Definition str_of_int (z : Z) : pystr :=
  py (NilZero.string_of_int (Z.to_int z)).

(** The cell [csv.DictWriter] writes for
    ["" if row.get(key) is None else row.get(key)]. *)
Definition cell (v : option pyval) : pystr :=
  match v with
  | None => []
  | Some (VStr s) => s
  | Some (VInt z) => str_of_int z
  end.

(** The dictionary [{key: ... for key in fieldnames}] that [write_csv_rows]
    hands to the writer, with its cells as they are written. *)
Definition written_row (fieldnames : list string) (r : gmap string pyval) : row :=
  list_to_map ((λ key, (key, cell (r !! key))) <$> fieldnames).

(** [write_csv_rows(csv_path, fieldnames, rows)], as the table that
    [read_csv_rows(csv_path)] reads back: one row per dictionary, with the
    columns [fieldnames] and nothing else. The [csv] module is taken to
    round-trip the cells. *)
Definition write_csv_rows (fieldnames : list string)
    (rows : list (gmap string pyval)) : list row :=
  written_row fieldnames <$> rows.

(** ** Objects and insertion-ordered dictionaries *)

(** An instance of a class, with the address that [is] compares. *)
Record object (A : Type) := Obj { addr : nat; value : A }.
Arguments Obj {A} addr value.
Arguments addr {A} o.
Arguments value {A} o.

(** [a is b]. *)
Definition is_ {A} (a b : object A) : bool := bool_decide (addr a = addr b).

(** A [dict] keeps its keys in insertion order; assigning to a key that is
    present keeps the key's place. *)
Fixpoint dict_get {V} (key : pystr) (d : list (pystr * V)) : option V :=
  match d with
  | [] => None
  | (k, v) :: d' => if bool_decide (k = key) then Some v else dict_get key d'
  end.

Fixpoint dict_set {V} (key : pystr) (v : V) (d : list (pystr * V))
    : list (pystr * V) :=
  match d with
  | [] => [(key, v)]
  | (k, v') :: d' =>
      if bool_decide (k = key) then (k, v) :: d' else (k, v') :: dict_set key v d'
  end.

Definition dict_values {V} (d : list (pystr * V)) : list V := d.*2.

(** ** [normalize_dictionary.py] *)

Module normalize_dictionary.

Record NormalizedEntry := {
  source_file : pystr;
  entry_index : Z;
  word : pystr;
  normalized_word : pystr;
  part_of_speech : pystr;
  definition : pystr;
  etymology : pystr;
  first_letter : pystr;
  number_of_letters : Z;
}.

(** A row of the collisions report. *)
Record Collision := {
  c_normalized_word : pystr;
  kept_word : pystr;
  dropped_word : pystr;
  kept_source_file : pystr;
  dropped_source_file : pystr;
  kept_entry_index : pystr;
  dropped_entry_index : pystr;
}.

(** The variables of the first loop of [main]. *)
Record Normalized := {
  normalized_entries : list NormalizedEntry;
  dropped_empty : Z;
  dropped_nonalpha : Z;
}.

(** What [main] computes before it writes its files. *)
Record Output := {
  final_entries : list NormalizedEntry;
  collisions : list Collision;
  stats : Normalized;
}.

Section main.
Context (U : Unicode).

Definition pick_better_definition (existing candidate : object NormalizedEntry)
    : object NormalizedEntry :=
  if (len (strip U (definition (value candidate)))
      >? len (strip U (definition (value existing))))%Z
  then candidate
  else existing.

(** The body of [for row in raw_rows]. *)
Definition normalize_row (acc : Normalized) (r : row) : result Normalized :=
  let source_file := get r "source_file" [] in
  entry_index ← int U (get_or r "entry_index" (py "0"));
  let word := get r "word" [] in
  let part_of_speech := get r "part_of_speech" [] in
  let definition := get r "definition" [] in
  let normalized := normalize_word U word in
  match normalized with
  | [] =>
      Ok {| normalized_entries := normalized_entries acc;
            dropped_empty := (dropped_empty acc + 1)%Z;
            dropped_nonalpha := dropped_nonalpha acc |}
  | c :: _ =>
      if existsb (λ ch, (ch <? 97) || (122 <? ch)) normalized then
        Ok {| normalized_entries := normalized_entries acc;
              dropped_empty := dropped_empty acc;
              dropped_nonalpha := (dropped_nonalpha acc + 1)%Z |}
      else
        let first_letter := [c] in
        let number_of_letters := len normalized in
        Ok {| normalized_entries :=
                normalized_entries acc ++
                [ {| source_file := source_file;
                     entry_index := entry_index;
                     word := clean_whitespace U word;
                     normalized_word := normalized;
                     part_of_speech := clean_whitespace U part_of_speech;
                     definition := clean_whitespace U definition;
                     etymology := [];
                     first_letter := first_letter;
                     number_of_letters := number_of_letters |} ];
              dropped_empty := dropped_empty acc;
              dropped_nonalpha := dropped_nonalpha acc |}
  end.

Fixpoint normalize_rows (raw_rows : list row) (acc : Normalized)
    : result Normalized :=
  match raw_rows with
  | [] => Ok acc
  | r :: raw_rows' => acc' ← normalize_row acc r; normalize_rows raw_rows' acc'
  end.

(** The body of [for entry in normalized_entries], on the pair
    [(kept_by_normalized, collisions)]. *)
Definition dedupe_step
    (st : list (pystr * object NormalizedEntry) * list Collision)
    (entry : object NormalizedEntry)
    : list (pystr * object NormalizedEntry) * list Collision :=
  let '(kept_by_normalized, collisions) := st in
  match dict_get (normalized_word (value entry)) kept_by_normalized with
  | None =>
      (dict_set (normalized_word (value entry)) entry kept_by_normalized,
       collisions)
  | Some existing =>
      let better := pick_better_definition existing entry in
      let dropped := if is_ better existing then entry else existing in
      (dict_set (normalized_word (value entry)) better kept_by_normalized,
       collisions ++
       [ {| c_normalized_word := normalized_word (value entry);
            kept_word := word (value better);
            dropped_word := word (value dropped);
            kept_source_file := source_file (value better);
            dropped_source_file := source_file (value dropped);
            kept_entry_index := str_of_int (entry_index (value better));
            dropped_entry_index := str_of_int (entry_index (value dropped)) |} ])
  end.

Definition dedupe (entries : list (object NormalizedEntry))
    : list (pystr * object NormalizedEntry) * list Collision :=
  foldl dedupe_step ([], []) entries.

(** Every [NormalizedEntry(...)] of the first loop is a new object: its
    address is its place in [normalized_entries]. *)
Definition allocate (entries : list NormalizedEntry)
    : list (object NormalizedEntry) :=
  imap Obj entries.

Definition main (do_dedupe : bool) (raw_rows : list row) : result Output :=
  n ← normalize_rows raw_rows
        {| normalized_entries := []; dropped_empty := 0; dropped_nonalpha := 0 |};
  if do_dedupe then
    let '(kept_by_normalized, collisions) :=
      dedupe (allocate (normalized_entries n)) in
    Ok {| final_entries := value <$> dict_values kept_by_normalized;
          collisions := collisions;
          stats := n |}
  else
    Ok {| final_entries := normalized_entries n;
          collisions := [];
          stats := n |}.
End main.
End normalize_dictionary.

(** ** [sorted(iterable, key=...)]

    [sorted] calls [key] once on every element, in order, and then sorts the
    elements by their keys, comparing with [<] only and keeping elements
    with equal keys in their input order. The result of a stable sort is
    determined by the order of the keys, so an insertion sort stands for the
    interpreter's own ([sort_by_key_perm], [sort_by_key_Sorted] and
    [sort_by_key_stable] below). *)
Section sorted.
Context {A K : Type}.
Context `{Lexico K, !TrichotomyT (@lexico K _), !StrictOrder (@lexico K _)}.

(** [x] goes before the first element whose key is not smaller than its
    own: it came before them in the input. *)
Fixpoint insert_by_key (x : K * A) (l : list (K * A)) : list (K * A) :=
  match l with
  | [] => [x]
  | y :: l' => if py_lt y.1 x.1 then y :: insert_by_key x l' else x :: y :: l'
  end.

Fixpoint sort_by_key (l : list (K * A)) : list (K * A) :=
  match l with
  | [] => []
  | x :: l' => insert_by_key x (sort_by_key l')
  end.

Fixpoint decorate (key : A → result K) (l : list A) : result (list (K * A)) :=
  match l with
  | [] => Ok []
  | x :: l' => k ← key x; kl ← decorate key l'; Ok ((k, x) :: kl)
  end.

Definition sorted (key : A → result K) (l : list A) : result (list A) :=
  kl ← decorate key l; Ok ((sort_by_key kl).*2).
End sorted.

(** ** [compute_lex_rank.py] *)

Module compute_lex_rank.

(** The [fieldnames] of the ranked CSV. *)
Definition fieldnames : list string :=
  [ "source_file"; "entry_index"; "word"; "normalized_word"; "part_of_speech";
    "definition"; "etymology"; "first_letter"; "number_of_letters";
    "lex_rank" ]%string.

Section main.
Context (U : Unicode).

Definition sort_key (r : row) : result (pystr * pystr * pystr * Z) :=
  let normalized := get r "normalized_word" [] in
  let word := get r "word" [] in
  let source_file := get r "source_file" [] in
  entry_index ← int U (get_or r "entry_index" (py "0"));
  Ok (normalized, word, source_file, entry_index).

(** [{**row, "lex_rank": idx}]. *)
Definition with_lex_rank (idx : Z) (r : row) : gmap string pyval :=
  <["lex_rank"%string := VInt idx]> (VStr <$> r).

(** [ranked_rows], the list that [main] builds and hands to
    [write_csv_rows]: [enumerate(rows_sorted, start=1)] numbers the
    sorted rows from 1. *)
Definition main (rows : list row) : result (list (gmap string pyval)) :=
  rows_sorted ← sorted sort_key rows;
  Ok (imap (λ i r, with_lex_rank (Z.of_nat i + 1) r) rows_sorted).

(** The ranked CSV that [main] writes. *)
Definition ranked_csv (rows : list row) : result (list row) :=
  ranked_rows ← main rows; Ok (write_csv_rows fieldnames ranked_rows).
End main.

(** A row of the ranked CSV, read back and without its rank. *)
Definition reread (idx : Z) (r : row) : row :=
  delete "lex_rank"%string (written_row fieldnames (with_lex_rank idx r)).

(** The fields of a ranked row. *)
Definition lex_rank (r : gmap string pyval) : option pyval :=
  r !! "lex_rank"%string.

Definition canonical_key (r : gmap string pyval) : pystr :=
  cell (r !! "normalized_word"%string).
End compute_lex_rank.

(** ** [sanity_check_ranked.py] *)

Module sanity_check_ranked.

(** The messages of [errors], by the check that appends them. *)
Inductive error :=
  | normalized_word_empty (idx : nat)
  | contains_non_az (idx : nat) (normalized : pystr)
  | first_letter_mismatch (idx : nat) (first_letter : pystr) (c : N)
  | number_of_letters_mismatch (idx : nat) (number_of_letters : Z) (n : Z)
  | duplicate_lex_rank (idx : nat) (lex_rank : Z)
  | ordering_violation (idx : nat) (normalized last_word : pystr)
  | not_contiguous.

(** The variables of the loop of [main]. *)
Record Checked := {
  seen_ranks : gset Z;
  last_word : option pystr;
  errors : list error;
}.

(** [if cond: errors.append(e)]. *)
Definition append_if (cond : bool) (e : error) (errors : list error)
    : list error :=
  if cond then errors ++ [e] else errors.

Section main.
Context (U : Unicode).

(** The body of [for idx, row in enumerate(rows, start=1)]. *)
Definition check_row (idx : nat) (r : row) (st : Checked) : result Checked :=
  let normalized := strip U (get_or r "normalized_word" []) in
  let first_letter := strip U (get_or r "first_letter" []) in
  number_of_letters ← int U (get_or r "number_of_letters" (py "0"));
  lex_rank ← int U (get_or r "lex_rank" (py "0"));
  let errors := errors st in
  let errors :=
    match normalized with
    | [] => errors ++ [normalized_word_empty idx]
    | c :: _ =>
        let errors :=
          append_if (existsb (λ ch, (ch <? 97) || (122 <? ch)) normalized)
            (contains_non_az idx normalized) errors in
        let errors :=
          append_if (bool_decide (first_letter ≠ [c]))
            (first_letter_mismatch idx first_letter c) errors in
        append_if (bool_decide (number_of_letters ≠ len normalized))
          (number_of_letters_mismatch idx number_of_letters (len normalized))
          errors
    end in
  let errors :=
    append_if (bool_decide (lex_rank ∈ seen_ranks st))
      (duplicate_lex_rank idx lex_rank) errors in
  let seen_ranks := {[ lex_rank ]} ∪ seen_ranks st in
  let errors :=
    match last_word st, normalized with
    | Some last, _ :: _ =>
        append_if (py_lt normalized last)
          (ordering_violation idx normalized last) errors
    | _, _ => errors
    end in
  let last_word :=
    match normalized with
    | [] => last_word st
    | _ :: _ => Some normalized
    end in
  Ok {| seen_ranks := seen_ranks; last_word := last_word; errors := errors |}.

Fixpoint check_rows (idx : nat) (rows : list row) (st : Checked)
    : result Checked :=
  match rows with
  | [] => Ok st
  | r :: rows' => st' ← check_row idx r st; check_rows (S idx) rows' st'
  end.

(** The list [errors] when [main] reaches [if errors:], for a table
    with rows. [main] prints its first 50 messages and the number of the
    others. *)
Definition violations (rows : list row) : result (list error) :=
  st ← check_rows 1 rows {| seen_ranks := ∅; last_word := None; errors := [] |};
  let expected_max := len rows in
  Ok (append_if
        (bool_decide (seen_ranks st ≠ list_to_set (seqZ 1 expected_max)))
        not_contiguous (errors st)).

(** The value [main] returns. *)
Definition main (rows : list row) : result Z :=
  match rows with
  | [] => Ok 2%Z
  | _ :: _ =>
      errors ← violations rows;
      match errors with
      | _ :: _ => Ok 1%Z
      | [] => Ok 0%Z
      end
  end.
End main.

Global Instance error_eq_dec : EqDecision error.
Proof. solve_decision. Defined.

Definition is_ordering_violation (e : error) : bool :=
  match e with
  | ordering_violation _ _ _ => true
  | _ => false
  end.
End sanity_check_ranked.

(** ** Definitions used by the statements *)

Import normalize_dictionary.

(** The order of the sorted list: no key is followed by a smaller one. *)
Definition key_le {A K} `{Lexico K} (x y : K * A) : Prop := ¬ lexico y.1 x.1.

(** The values of [normalized] that the loop of the verifier compares: the
    stripped [normalized_word] of every row that has one, in the order of
    the rows in the file. *)
Fixpoint walked_keys (U : Unicode) (rows : list row) : list pystr :=
  match rows with
  | [] => []
  | r :: rows' =>
      match strip U (get_or r "normalized_word" []) with
      | [] => walked_keys U rows'
      | c :: s => (c :: s) :: walked_keys U rows'
      end
  end.

(** Some key of [ks] is smaller than the key before it, [last] being the
    key before the first. *)
Fixpoint descends (last : option pystr) (ks : list pystr) : bool :=
  match ks with
  | [] => false
  | k :: ks' =>
      match last with
      | Some l => py_lt k l
      | None => false
      end || descends (Some k) ks'
  end.

(** In the words of the specification: the canonical keys of a ranked
    table, walked in ascending order of [lex_rank]. *)
Definition spec_keys_by_lex_rank (U : Unicode) (rows : list row)
    : result (list pystr) :=
  by_rank ← sorted (λ r : row, int U (get_or r "lex_rank" (py "0"))) rows;
  Ok (map (λ r : row, strip U (get_or r "normalized_word" [])) by_rank).

(** The rows of the file are in ascending order of [lex_rank]: sorting them
    by rank would leave them where they are. *)
Definition file_in_rank_order (U : Unicode) (rows : list row) : Prop :=
  ∃ l, decorate (λ r : row, int U (get_or r "lex_rank" (py "0"))) rows = Ok l
       ∧ Sorted key_le l.

(** A string of [^[a-z]*$]. *)
Definition lowercase_letters (s : pystr) : Prop :=
  Forall (λ ch, 97 ≤ ch ≤ 122) s.

(** The word ["Café-123!"]. *)
Definition cafe_raw : pystr := py "Caf" ++ [233] ++ py "-123!".

(** A row of the raw CSV with that word. *)
Definition cafe_row : row :=
  {[ "source_file" := py "wb1913_c.html"; "entry_index" := py "12";
     "word" := cafe_raw; "part_of_speech" := py "n.";
     "definition" := py "A coffeehouse." ]}%string.

(** Two rows of a normalized CSV, the later key first. *)
Definition row_b : row :=
  {[ "source_file" := py "wb1913_b.html"; "entry_index" := py "0";
     "word" := py "B"; "normalized_word" := py "b"; "first_letter" := py "b";
     "number_of_letters" := py "1" ]}%string.

Definition row_a : row :=
  {[ "source_file" := py "wb1913_a.html"; "entry_index" := py "0";
     "word" := py "A"; "normalized_word" := py "a"; "first_letter" := py "a";
     "number_of_letters" := py "1" ]}%string.

(** Two entries for the key ["run"], the one with the longer definition
    first, and a third one whose definition is as long as the first. *)
Definition run_verb : NormalizedEntry :=
  {| source_file := py "wb1913_r.html"; entry_index := 4; word := py "Run";
     normalized_word := py "run"; part_of_speech := py "v.";
     definition := py "to move fast"; etymology := [];
     first_letter := py "r"; number_of_letters := 3 |}.

Definition run_noun : NormalizedEntry :=
  {| source_file := py "wb1913_r.html"; entry_index := 5; word := py "Run";
     normalized_word := py "run"; part_of_speech := py "n.";
     definition := py "a fast pace"; etymology := [];
     first_letter := py "r"; number_of_letters := 3 |}.

Definition run_tie : NormalizedEntry :=
  {| source_file := py "wb1913_r.html"; entry_index := 6; word := py "run";
     normalized_word := py "run"; part_of_speech := py "v.";
     definition := py "to flow fast"; etymology := [];
     first_letter := py "r"; number_of_letters := 3 |}.

(** The same rows as rows of a ranked CSV: in [table_ba] the ranks follow
    the keys and the file has the rows in descending order; in [table_ab]
    the file is in the order of the keys and the ranks are not. *)
Definition table_ba : list row :=
  [ <["lex_rank"%string := py "2"]> row_b; <["lex_rank"%string := py "1"]> row_a ].

Definition table_ab : list row :=
  [ <["lex_rank"%string := py "2"]> row_a; <["lex_rank"%string := py "1"]> row_b ].

(** The ranked CSV of the two rows as the Rank Assigner writes it. *)
Definition table_ranked : list row :=
  write_csv_rows compute_lex_rank.fieldnames
    [ compute_lex_rank.with_lex_rank 1 row_a; compute_lex_rank.with_lex_rank 2 row_b ].

(** A row whose [entry_index] is not a number. *)
Definition malformed_row : row :=
  {[ "source_file" := py "wb1913_a.html"; "entry_index" := py "abc";
     "word" := py "Aback"; "normalized_word" := py "aback";
     "part_of_speech" := py "adv."; "definition" := py "Backward." ]}%string.

(** A row without the column [entry_index]. *)
Definition unnumbered_row : row :=
  {[ "source_file" := py "wb1913_a.html"; "word" := py "Aback";
     "normalized_word" := py "aback"; "part_of_speech" := py "adv.";
     "definition" := py "Backward." ]}%string.

(** ** [normalize_dictionary.py]: the normalized CSV *)

(** The [fieldnames] of the normalized CSV. *)
Definition normalized_fieldnames : list string :=
  [ "source_file"; "entry_index"; "word"; "normalized_word"; "part_of_speech";
    "definition"; "etymology"; "first_letter"; "number_of_letters" ]%string.

(** The dictionary that [normalize_dictionary.main] hands to
    [write_csv_rows] for an entry. *)
Definition entry_dict (e : NormalizedEntry) : gmap string pyval :=
  {[ "source_file" := VStr (source_file e);
     "entry_index" := VInt (entry_index e);
     "word" := VStr (word e);
     "normalized_word" := VStr (normalized_word e);
     "part_of_speech" := VStr (part_of_speech e);
     "definition" := VStr (definition e);
     "etymology" := VStr (etymology e);
     "first_letter" := VStr (first_letter e);
     "number_of_letters" := VInt (number_of_letters e) ]}%string.

(** The normalized CSV that [normalize_dictionary.main] writes. *)
Definition normalized_csv (out : Output) : list row :=
  write_csv_rows normalized_fieldnames (entry_dict <$> final_entries out).

(** ** [build_final_csv.py] *)

Module build_final_csv.

Definition FINAL_COLUMNS : list string :=
  [ "word"; "normalized_word"; "part_of_speech"; "definition"; "etymology";
    "first_letter"; "number_of_letters"; "lex_rank" ]%string.

Section main.
Context (U : Unicode).

(** The dictionary that the loop of [main] appends for a row all of whose
    cells are text, as the rows of a file written by [write_csv_rows] are.
    Of its values only the two calls of [int] can raise then,
    [number_of_letters] before [lex_rank]. For a line of the file with fewer
    cells than the header, [csv.DictReader] gives [None] for the cells that
    are missing and [clean_whitespace] raises a [TypeError] on them: such a
    line is no value of [row], and the results on [final_row] are about
    tables without one. *)
Definition final_row (r : row) : result (gmap string pyval) :=
  let word := clean_whitespace U (get r "word" []) in
  let normalized_word := clean_whitespace U (get r "normalized_word" []) in
  let part_of_speech := clean_whitespace U (get r "part_of_speech" []) in
  let definition := clean_whitespace U (get r "definition" []) in
  let etymology := clean_whitespace U (get r "etymology" []) in
  let first_letter := clean_whitespace U (get r "first_letter" []) in
  number_of_letters ← int U (get_or r "number_of_letters" (py "0"));
  lex_rank ← int U (get_or r "lex_rank" (py "0"));
  Ok ({[ "word" := VStr word;
         "normalized_word" := VStr normalized_word;
         "part_of_speech" := VStr part_of_speech;
         "definition" := VStr definition;
         "etymology" := VStr etymology;
         "first_letter" := VStr first_letter;
         "number_of_letters" := VInt number_of_letters;
         "lex_rank" := VInt lex_rank ]}%string : gmap string pyval).

(** [for row in rows: final_rows.append({...})]. *)
Fixpoint append_rows (rows : list row) (final_rows : list (gmap string pyval))
    : result (list (gmap string pyval)) :=
  match rows with
  | [] => Ok final_rows
  | r :: rows' => d ← final_row r; append_rows rows' (final_rows ++ [d])
  end.

(** [final_rows], the list that [main] hands to [write_csv_rows]. *)
Definition main (rows : list row) : result (list (gmap string pyval)) :=
  append_rows rows [].

(** The final CSV that [main] writes. *)
Definition final_csv (rows : list row) : result (list row) :=
  final_rows ← main rows; Ok (write_csv_rows FINAL_COLUMNS final_rows).
End main.
End build_final_csv.

(** ** [upload_to_supabase.py] *)

Module upload_to_supabase.
Local Open Scope nat_scope.

Definition BATCH_SIZE : nat := 500.

(** The dictionary [db_row] of [main]: it has these eight keys, three of
    them with a [str] or [None]. *)
Record db_row := {
  word : pystr;
  normalized_word : pystr;
  part_of_speech : option pystr;
  definition : option pystr;
  etymology : option pystr;
  first_letter : pystr;
  number_of_letters : Z;
  lex_rank : Z;
}.

(** The variables of the upload loop, with the state of the service. *)
Record Uploaded (World : Type) := {
  world : World;
  successful : nat;
  failed_batches : list (nat * pystr * pystr);
}.
Arguments world {World} u.
Arguments successful {World} u.
Arguments failed_batches {World} u.

(** [l[start_idx:end_idx]] for indexes that are not negative. *)
Definition slice {A} (l : list A) (start_idx end_idx : nat) : list A :=
  take (end_idx - start_idx) (drop start_idx l).

Definition total_batches (total_rows : nat) : nat :=
  (total_rows + BATCH_SIZE - 1) / BATCH_SIZE.

(** [batch] in the round [batch_num] of the upload loop. *)
Definition batch_of {A} (rows : list A) (batch_num : nat) : list A :=
  let total_rows := length rows in
  let start_idx := batch_num * BATCH_SIZE in
  let end_idx := (start_idx + BATCH_SIZE) `min` total_rows in
  slice rows start_idx end_idx.

Section main.
Context (U : Unicode).

(** [row.get(key) or None]. *)
Definition get_or_None (r : row) (key : string) : option pystr :=
  match r !! key with
  | Some (c :: s) => Some (c :: s)
  | _ => None
  end.

(** [int(row.get(key, 0))]: [int(0)] is [0]. *)
Definition int_get_0 (r : row) (key : string) : result Z :=
  match r !! key with
  | Some s => int U s
  | None => Ok 0%Z
  end.

(** The body of [for row in reader]. *)
Definition read_row (r : row) : result db_row :=
  number_of_letters ← int_get_0 r "number_of_letters";
  lex_rank ← int_get_0 r "lex_rank";
  Ok {| word := get r "word" [];
        normalized_word := get r "normalized_word" [];
        part_of_speech := get_or_None r "part_of_speech";
        definition := get_or_None r "definition";
        etymology := get_or_None r "etymology";
        first_letter := get r "first_letter" [];
        number_of_letters := number_of_letters;
        lex_rank := lex_rank |}.

Fixpoint read_rows (table : list row) (rows : list db_row) : result (list db_row) :=
  match table with
  | [] => Ok rows
  | r :: table' => d ← read_row r; read_rows table' (rows ++ [d])
  end.

(** [upload_batch(supabase_url, service_key, batch, batch_num)] posts the
    batch to the service and returns whether the service took it: what it
    answers is not the script's to decide. *)
Context {World : Type}.
Context (upload_batch : World → list db_row → nat → bool * World).

(** The body of [for batch_num in range(total_batches)]. *)
Definition upload_step (rows : list db_row) (st : Uploaded World) (batch_num : nat)
    : Uploaded World :=
  let batch := batch_of rows batch_num in
  let first_word := match batch with d :: _ => word d | [] => py "?" end in
  let last_word := match last batch with Some d => word d | None => py "?" end in
  let '(ok, w) := upload_batch (world st) batch (batch_num + 1) in
  if ok then
    {| world := w;
       successful := successful st + length batch;
       failed_batches := failed_batches st |}
  else
    {| world := w;
       successful := successful st;
       failed_batches := failed_batches st ++ [(batch_num + 1, first_word, last_word)] |}.

(** The upload loop of [main]. *)
Definition upload (w : World) (rows : list db_row) : Uploaded World :=
  foldl (upload_step rows)
    {| world := w; successful := 0; failed_batches := [] |}
    (seq 0 (total_batches (length rows))).
End main.
End upload_to_supabase.

(** ** Definitions used by the further results *)

(** The code points of the digits of a decimal numeral, and the number
    they denote after the digits of [acc]. *)
Fixpoint uint_codes (d : Decimal.uint) : pystr :=
  match d with
  | Decimal.Nil => []
  | Decimal.D0 u => 48 :: uint_codes u
  | Decimal.D1 u => 49 :: uint_codes u
  | Decimal.D2 u => 50 :: uint_codes u
  | Decimal.D3 u => 51 :: uint_codes u
  | Decimal.D4 u => 52 :: uint_codes u
  | Decimal.D5 u => 53 :: uint_codes u
  | Decimal.D6 u => 54 :: uint_codes u
  | Decimal.D7 u => 55 :: uint_codes u
  | Decimal.D8 u => 56 :: uint_codes u
  | Decimal.D9 u => 57 :: uint_codes u
  end.

Fixpoint digits_value (acc : Z) (d : Decimal.uint) : Z :=
  match d with
  | Decimal.Nil => acc
  | Decimal.D0 u => digits_value (10 * acc + 0) u
  | Decimal.D1 u => digits_value (10 * acc + 1) u
  | Decimal.D2 u => digits_value (10 * acc + 2) u
  | Decimal.D3 u => digits_value (10 * acc + 3) u
  | Decimal.D4 u => digits_value (10 * acc + 4) u
  | Decimal.D5 u => digits_value (10 * acc + 5) u
  | Decimal.D6 u => digits_value (10 * acc + 6) u
  | Decimal.D7 u => digits_value (10 * acc + 7) u
  | Decimal.D8 u => digits_value (10 * acc + 8) u
  | Decimal.D9 u => digits_value (10 * acc + 9) u
  end%Z.

(** An [int] that [str] and [int] convert under the limit on the number of
    digits: it has at most 640 digits, or the limit is off, or it has at
    most as many digits as the limit allows. *)
Definition within_digit_limit (U : Unicode) (z : Z) : Prop :=
  (Z.abs z < 10 ^ 640 ∨ int_max_str_digits U = 0%nat
   ∨ Z.abs z < 10 ^ Z.of_nat (int_max_str_digits U))%Z.

(** Text in which every space is a single [' ']: [prev_space] says that the
    character before the text is a space. *)
Fixpoint collapsed (U : Unicode) (prev_space : bool) (s : pystr) : Prop :=
  match s with
  | [] => True
  | c :: s' =>
      if isspace U c
      then c = 32 ∧ prev_space = false ∧ collapsed U true s'
      else collapsed U false s'
  end.

(** Text that neither starts nor ends with a space. *)
Definition trimmed (U : Unicode) (s : pystr) : Prop :=
  (∀ c s', s = c :: s' → isspace U c = false) ∧
  (∀ c s', s = s' ++ [c] → isspace U c = false).

(** What the first loop of [normalize_dictionary.main] establishes of the
    entries it builds. *)
Definition well_formed_entry (U : Unicode) (e : NormalizedEntry) : Prop :=
  normalized_word e = normalize_word U (word e) ∧
  normalized_word e ≠ [] ∧
  lowercase_letters (normalized_word e) ∧
  first_letter e = take 1 (normalized_word e) ∧
  number_of_letters e = len (normalized_word e) ∧
  clean_whitespace U (word e) = word e ∧
  clean_whitespace U (part_of_speech e) = part_of_speech e ∧
  clean_whitespace U (definition e) = definition e ∧
  etymology e = [] ∧
  within_digit_limit U (entry_index e).

(** The keys of [ks] without repetition, each at the place where it comes
    first. *)
Fixpoint first_occurrences (ks : list pystr) : list pystr :=
  match ks with
  | [] => []
  | k :: ks' => k :: filter (λ k', k' ≠ k) (first_occurrences ks')
  end.

(** The length that [pick_better_definition] compares. *)
Definition definition_length (U : Unicode) (e : NormalizedEntry) : Z :=
  len (strip U (definition e)).

(** The object [o] is the entry at the place [addr o] of [entries], it has
    the key [k], no entry with that key has a longer definition, and the
    ones before it have a shorter one. *)
Definition survivor (U : Unicode) (entries : list NormalizedEntry)
    (k : pystr) (o : object NormalizedEntry) : Prop :=
  entries !! addr o = Some (value o) ∧
  normalized_word (value o) = k ∧
  ∀ j e', entries !! j = Some e' → normalized_word e' = k →
    (definition_length U e' ≤ definition_length U (value o))%Z ∧
    ((j < addr o)%nat → (definition_length U e' < definition_length U (value o))%Z).

(** Three raw rows with the key ["run"]. *)
Definition run_rows : list row :=
  [ {[ "source_file" := py "wb1913_r.html"; "entry_index" := py "4";
       "word" := py "Run"; "part_of_speech" := py "n.";
       "definition" := py "a fast pace" ]};
    {[ "source_file" := py "wb1913_r.html"; "entry_index" := py "5";
       "word" := py " Run "; "part_of_speech" := py "v.";
       "definition" := py "to  move fast" ]};
    {[ "source_file" := py "wb1913_r.html"; "entry_index" := py "6";
       "word" := py "run"; "part_of_speech" := py "v.";
       "definition" := py "to flow fast" ]} ]%string.

(** [k1 <= k2] on the tuples of [compute_lex_rank.sort_key], component by
    component: the keys first, then the words, then the source files, all
    three as [str], and last the entry indexes as [int]. *)
Definition sort_key_le (k1 k2 : pystr * pystr * pystr * Z) : Prop :=
  let '(n1, w1, s1, i1) := k1 in
  let '(n2, w2, s2, i2) := k2 in
  lexico n1 n2 ∨ n1 = n2 ∧
    (lexico w1 w2 ∨ w1 = w2 ∧
      (lexico s1 s2 ∨ s1 = s2 ∧ (i1 ≤ i2)%Z)).

(** What the verifier asks of one row of the ranked CSV: the key, stripped,
    is not empty and made of the letters a-z, [first_letter] is its first
    letter and [number_of_letters] its length. *)
Definition row_passes (U : Unicode) (r : row) : Prop :=
  let normalized := strip U (get_or r "normalized_word" []) in
  normalized ≠ [] ∧
  lowercase_letters normalized ∧
  strip U (get_or r "first_letter" []) = take 1 normalized ∧
  int U (get_or r "number_of_letters" (py "0")) = Ok (len normalized).

(** What the verifier asks of the table: every row passes, the ranks are
    the numbers from 1 to the number of rows, each once, and no key is
    smaller than the key of the row before. *)
Definition table_passes (U : Unicode) (rows : list row) : Prop :=
  Forall (row_passes U) rows ∧
  (∃ ranks,
     Forall2 (λ r z, int U (get_or r "lex_rank" (py "0")) = Ok z) rows ranks ∧
     ranks ≡ₚ seqZ 1 (len rows)) ∧
  Sorted str_le (map (λ r : row, strip U (get_or r "normalized_word" [])) rows).

(** A cell of [number_of_letters] or [lex_rank] that [int] refuses. *)
Definition unparsable_number (U : Unicode) (r : row) : Prop :=
  int U (get_or r "number_of_letters" (py "0")) = Raise ValueError ∨
  int U (get_or r "lex_rank" (py "0")) = Raise ValueError.

(** The row of the normalized CSV for an entry, and the row of the ranked
    CSV for an entry with the rank [idx]. *)
Definition normalized_row (e : NormalizedEntry) : row :=
  written_row normalized_fieldnames (entry_dict e).

Definition ranked_row (idx : Z) (e : NormalizedEntry) : row :=
  written_row compute_lex_rank.fieldnames
    (compute_lex_rank.with_lex_rank idx (normalized_row e)).

(** The tuple by which the Rank Assigner sorts the row of an entry. *)
Definition entry_sort_key (e : NormalizedEntry) : pystr * pystr * pystr * Z :=
  (normalized_word e, word e, source_file e, entry_index e).

(** The columns of a row that the final CSV has. *)
Definition final_columns (r : row) : row :=
  written_row build_final_csv.FINAL_COLUMNS (VStr <$> r).

(** The entries that the Normalizer keeps of [cafe_row :: run_rows]. *)
Definition cafe_noun : NormalizedEntry :=
  {| source_file := py "wb1913_c.html"; entry_index := 12; word := cafe_raw;
     normalized_word := py "cafe"; part_of_speech := py "n.";
     definition := py "A coffeehouse."; etymology := [];
     first_letter := py "c"; number_of_letters := 4 |}.

Definition run_kept : NormalizedEntry :=
  {| source_file := py "wb1913_r.html"; entry_index := 5; word := py "Run";
     normalized_word := py "run"; part_of_speech := py "v.";
     definition := py "to move fast"; etymology := [];
     first_letter := py "r"; number_of_letters := 3 |}.

(** Their ranked CSV. *)
Definition table_cafe_run : list row := [ranked_row 1 cafe_noun; ranked_row 2 run_kept].

(** The entry that the first loop of [normalize_dictionary.main] builds of
    a raw row. *)
Definition entry_of_row (U : Unicode) (r : row) (e : NormalizedEntry) : Prop :=
  source_file e = get r "source_file" [] ∧
  int U (get_or r "entry_index" (py "0")) = Ok (entry_index e) ∧
  word e = clean_whitespace U (get r "word" []) ∧
  normalized_word e = normalize_word U (get r "word" []) ∧
  part_of_speech e = clean_whitespace U (get r "part_of_speech" []) ∧
  definition e = clean_whitespace U (get r "definition" []).

(** The key of a raw row. *)
Definition row_key (U : Unicode) (r : row) : pystr :=
  normalize_word U (get r "word" []).

(** The row of the table that the uploader makes of a row that the Final
    Builder read. *)
Definition uploaded_as (U : Unicode) (r : row) (d : upload_to_supabase.db_row) : Prop :=
  let text key := clean_whitespace U (get r key []) in
  let text_or_None key := match text key with [] => None | c :: s => Some (c :: s) end in
  upload_to_supabase.word d = text "word"%string ∧
  upload_to_supabase.normalized_word d = text "normalized_word"%string ∧
  upload_to_supabase.part_of_speech d = text_or_None "part_of_speech"%string ∧
  upload_to_supabase.definition d = text_or_None "definition"%string ∧
  upload_to_supabase.etymology d = text_or_None "etymology"%string ∧
  upload_to_supabase.first_letter d = text "first_letter"%string ∧
  int U (get_or r "number_of_letters" (py "0"))
  = Ok (upload_to_supabase.number_of_letters d) ∧
  int U (get_or r "lex_rank" (py "0")) = Ok (upload_to_supabase.lex_rank d).

(** The rows of the batches that failed, by their numbers. *)
Definition failed_rows {A} (rows : list A) (failed : list (nat * pystr * pystr)) : nat :=
  sum_list ((λ f, length (upload_to_supabase.batch_of rows (f.1.1 - 1)%nat)) <$> failed).

(** Membership in a list that is written out. *)
Ltac in_list := repeat (apply list_elem_of_here || apply list_elem_of_further).

(** A closed decidable statement, settled by evaluating its decision. *)
Ltac by_evaluation :=
  match goal with
  | |- ?P => refine (bool_decide_eq_true_1 P _); vm_compute; reflexivity
  end.

(** * Results *)

(** ** Builtins *)

Lemma bind_Ok {A B} (f : A → result B) (m : result A) (b : B) :
  m ≫= f = Ok b → ∃ a, m = Ok a ∧ f a = Ok b.
Proof. destruct m as [a|e]; [eauto | discriminate]. Qed.

Lemma get_or_missing (r : row) key fallback :
  r !! key = None ∨ r !! key = Some [] → get_or r key fallback = fallback.
Proof. unfold get_or. by intros [-> | ->]. Qed.

(** ** The Normalizer *)

Lemma normalize_word_letters U raw_word : lowercase_letters (normalize_word U raw_word).
Proof.
  unfold normalize_word, lowercase_letters. apply Forall_forall. intros ch Hch.
  apply list_elem_of_In, filter_In in Hch as [_ Hch].
  apply andb_true_iff in Hch as [?%N.leb_le ?%N.leb_le]. lia.
Qed.

Lemma lowercase_letters_no_other s :
  lowercase_letters s → existsb (λ ch, (ch <? 97) || (122 <? ch)) s = false.
Proof.
  induction 1 as [|ch s [Ha Hz] _ IH]; [done|]. simpl. rewrite IH.
  apply N.ltb_ge in Ha, Hz. by rewrite Ha, Hz.
Qed.

Lemma normalize_row_counts U acc r acc' :
  normalize_row U acc r = Ok acc' →
  dropped_nonalpha acc' = dropped_nonalpha acc ∧
  (len (normalized_entries acc') + dropped_empty acc'
   = len (normalized_entries acc) + dropped_empty acc + 1)%Z.
Proof.
  unfold normalize_row. intros (i & _ & H)%bind_Ok. revert H.
  pose proof (lowercase_letters_no_other _
    (normalize_word_letters U (get r "word" []))) as Hletters.
  destruct (normalize_word U (get r "word" [])) as [|c s].
  - intros [= <-]. simpl. split; [done | lia].
  - rewrite Hletters. intros [= <-]. simpl. split; [done|].
    unfold len. rewrite length_app. simpl. lia.
Qed.

Lemma normalize_rows_counts U raw_rows acc acc' :
  normalize_rows U raw_rows acc = Ok acc' →
  dropped_nonalpha acc' = dropped_nonalpha acc ∧
  (len (normalized_entries acc') + dropped_empty acc'
   = len (normalized_entries acc) + dropped_empty acc + len raw_rows)%Z.
Proof.
  revert acc. induction raw_rows as [|r raw_rows IH]; intros acc; simpl.
  - intros [= <-]. unfold len. simpl. split; [done | lia].
  - intros (acc1 & H1 & H2)%bind_Ok.
    apply normalize_row_counts in H1 as [E1 H1]. apply IH in H2 as [E2 H2].
    split; [congruence|]. unfold len in *. simpl. lia.
Qed.

Lemma main_stats U do_dedupe raw_rows out :
  main U do_dedupe raw_rows = Ok out →
  normalize_rows U raw_rows
    {| normalized_entries := []; dropped_empty := 0; dropped_nonalpha := 0 |}
  = Ok (stats out).
Proof.
  unfold main. intros (n & -> & H)%bind_Ok. destruct do_dedupe.
  - destruct (dedupe U _) as [kept cols]. by injection H as <-.
  - by injection H as <-.
Qed.

(** C9. For every raw word, [normalize_word] returns a string of
    [^[a-z]*$], so the non-alpha branch of the normalizer's loop is never
    taken: in every run that reaches the end of [main], [dropped_nonalpha]
    is 0 and every row that gave no entry was counted in [dropped_empty]. *)
Theorem nonalpha_branch_unreachable U :
  (∀ raw_word, lowercase_letters (normalize_word U raw_word)) ∧
  (∀ raw_word,
     existsb (λ ch, (ch <? 97) || (122 <? ch)) (normalize_word U raw_word) = false) ∧
  (∀ do_dedupe raw_rows out,
     main U do_dedupe raw_rows = Ok out →
     dropped_nonalpha (stats out) = 0%Z ∧
     (len (normalized_entries (stats out)) + dropped_empty (stats out)
      = len raw_rows)%Z).
Proof.
  split_and!.
  - apply normalize_word_letters.
  - intros. apply lowercase_letters_no_other, normalize_word_letters.
  - intros do_dedupe raw_rows out H%main_stats.
    apply normalize_rows_counts in H as [-> H]. split; [done|].
    rewrite H. unfold len. simpl. lia.
Qed.

Lemma normalize_row_Ok U acc r i :
  int U (get_or r "entry_index" (py "0")) = Ok i →
  ∃ acc', normalize_row U acc r = Ok acc' ∧
    ∀ e, e ∈ normalized_entries acc' →
         e ∈ normalized_entries acc ∨
         (entry_index e = i ∧ normalized_word e = normalize_word U (get r "word" [])).
Proof.
  intros Hi. unfold normalize_row. rewrite Hi. cbn.
  destruct (normalize_word U (get r "word" [])) as [|c s] eqn:Hn.
  - eexists; split; [done|]. simpl. auto.
  - destruct (existsb _ _).
    + eexists; split; [done|]. simpl. auto.
    + eexists; split; [done|]. simpl. intros e [He | ->%list_elem_of_singleton]%elem_of_app.
      * by left.
      * by right.
Qed.

Lemma normalize_row_Raise U acc r e :
  int U (get_or r "entry_index" (py "0")) = Raise e →
  normalize_row U acc r = Raise e.
Proof. intros Hi. unfold normalize_row. by rewrite Hi. Qed.

Lemma normalize_rows_Raise U raw_rows r e :
  r ∈ raw_rows →
  int U (get_or r "entry_index" (py "0")) = Raise e →
  ∀ acc, normalize_rows U raw_rows acc = Raise ValueError.
Proof.
  intros Hr Hi. induction Hr as [r raw_rows | r r' raw_rows _ IH]; intros acc; simpl.
  - rewrite (normalize_row_Raise _ _ _ _ Hi). by destruct e.
  - destruct (normalize_row U acc r') as [acc'|[]]; cbn; [by apply IH | done].
Qed.

Lemma normalize_rows_Ok U raw_rows :
  Forall (λ r, ∃ i, int U (get_or r "entry_index" (py "0")) = Ok i) raw_rows →
  ∀ acc, ∃ acc', normalize_rows U raw_rows acc = Ok acc'.
Proof.
  induction 1 as [|r raw_rows [i Hi] _ IH]; intros acc; simpl; [eauto|].
  destruct (normalize_row_Ok U acc r i Hi) as (acc1 & -> & _). apply IH.
Qed.

(** [main] of the normalizer ends normally exactly when [int] accepts the
    [entry_index] of every row. *)
Lemma main_Ok_iff U do_dedupe raw_rows :
  (∃ out, main U do_dedupe raw_rows = Ok out) ↔
  Forall (λ r, ∃ i, int U (get_or r "entry_index" (py "0")) = Ok i) raw_rows.
Proof.
  split.
  - intros [out Hout]. apply Forall_forall. intros r Hr.
    destruct (int U (get_or r "entry_index" (py "0"))) as [i|e] eqn:Hi; [eauto|].
    unfold main in Hout. by rewrite (normalize_rows_Raise _ _ _ _ Hr Hi) in Hout.
  - intros H. unfold main.
    destruct (normalize_rows_Ok U raw_rows H
      {| normalized_entries := []; dropped_empty := 0; dropped_nonalpha := 0 |})
      as [n ->].
    cbn. destruct do_dedupe; [destruct (dedupe U _)|]; eauto.
Qed.

Lemma cafe_normalize_word : normalize_word latin1 cafe_raw = py "cafe".
Proof. reflexivity. Qed.

(** The entry that the loop appends for a row whose word has letters. *)
Lemma normalize_row_entry U acc r i c s :
  int U (get_or r "entry_index" (py "0")) = Ok i →
  normalize_word U (get r "word" []) = c :: s →
  normalize_row U acc r =
  Ok {| normalized_entries :=
          normalized_entries acc ++
          [ {| source_file := get r "source_file" [];
               entry_index := i;
               word := clean_whitespace U (get r "word" []);
               normalized_word := c :: s;
               part_of_speech := clean_whitespace U (get r "part_of_speech" []);
               definition := clean_whitespace U (get r "definition" []);
               etymology := [];
               first_letter := [c];
               number_of_letters := len (c :: s) |} ];
        dropped_empty := dropped_empty acc;
        dropped_nonalpha := dropped_nonalpha acc |}.
Proof.
  intros Hi Hn. unfold normalize_row. rewrite Hi.
  pose proof (lowercase_letters_no_other _
    (normalize_word_letters U (get r "word" []))) as Hletters.
  rewrite Hn in Hletters. cbn [mbind result_bind]. rewrite Hn, Hletters. done.
Qed.

(** C1, as the code has it. For a row with the word ["Café-123!"] the
    normalizer keeps the base letter of the accented one: the canonical key
    is ["cafe"]. The row is not dropped, the entry's [number_of_letters] is 4
    and its [first_letter] is ["c"]. *)
Theorem cafe_entry do_dedupe (r : row) (i : Z) :
  r !! "word"%string = Some cafe_raw →
  int latin1 (get_or r "entry_index" (py "0")) = Ok i →
  ∃ out e,
    main latin1 do_dedupe [r] = Ok out ∧
    final_entries out = [e] ∧
    dropped_empty (stats out) = 0%Z ∧
    dropped_nonalpha (stats out) = 0%Z ∧
    normalized_word e = py "cafe" ∧
    number_of_letters e = 4%Z ∧
    first_letter e = py "c".
Proof.
  intros Hword Hi.
  assert (normalize_word latin1 (get r "word" []) = 99 :: py "afe") as Hn.
  { unfold get. rewrite Hword. apply cafe_normalize_word. }
  unfold main, normalize_rows.
  rewrite (normalize_row_entry latin1 _ r i _ _ Hi Hn).
  destruct do_dedupe; (do 2 eexists); (split; [reflexivity|]); split_and!; reflexivity.
Qed.

Lemma cafe_entry_witness :
  ∃ out e,
    main latin1 true [cafe_row] = Ok out ∧
    final_entries out = [e] ∧
    dropped_empty (stats out) = 0%Z ∧
    dropped_nonalpha (stats out) = 0%Z ∧
    normalized_word e = py "cafe" ∧
    number_of_letters e = 4%Z ∧
    first_letter e = py "c".
Proof. apply (cafe_entry true cafe_row 12); reflexivity. Defined.

(** C1, as the claim has it, fails: the key of ["Café-123!"] is not
    ["caf"] and the length field is not 3. *)
Lemma cafe_key_is_not_caf :
  normalize_word latin1 cafe_raw ≠ py "caf" ∧
  ∃ out e,
    main latin1 true [cafe_row] = Ok out ∧
    final_entries out = [e] ∧
    normalized_word e ≠ py "caf" ∧
    number_of_letters e ≠ 3%Z.
Proof.
  split; [by_evaluation|]. do 2 eexists.
  split; [vm_compute; reflexivity|]. split; [reflexivity|]. split; by_evaluation.
Qed.

(** ** [sorted] *)

Section sorted_facts.
Context {A K : Type}.
Context `{Lexico K, !TrichotomyT (@lexico K _), !StrictOrder (@lexico K _)}.
Implicit Types (x y : K * A) (l : list (K * A)).

Lemma py_lt_true (a b : K) : py_lt a b = true ↔ lexico a b.
Proof. unfold py_lt. apply bool_decide_eq_true. Qed.

Lemma py_lt_false (a b : K) : py_lt a b = false ↔ ¬ lexico a b.
Proof. unfold py_lt. apply bool_decide_eq_false. Qed.

Lemma lexico_asym (a b : K) : lexico a b → ¬ lexico b a.
Proof.
  intros Hab Hba. apply (irreflexivity (@lexico K _) a). by trans b.
Qed.

Lemma key_le_trans : Transitive (@key_le A K _).
Proof.
  intros x y z Hxy Hyz Hzx. unfold key_le in *.
  destruct (trichotomyT lexico x.1 y.1) as [[Hlt | Heq] | Hgt]; [| |done].
  - apply Hyz. by trans x.1.
  - apply Hyz. by rewrite <- Heq.
Qed.

Lemma insert_by_key_perm x l : insert_by_key x l ≡ₚ x :: l.
Proof.
  induction l as [|y l IH]; simpl; [done|].
  destruct (py_lt y.1 x.1); [|done]. rewrite IH. apply Permutation_swap.
Qed.

Lemma sort_by_key_perm l : sort_by_key l ≡ₚ l.
Proof.
  induction l as [|x l IH]; simpl; [done|].
  by rewrite insert_by_key_perm, IH.
Qed.

Lemma insert_by_key_HdRel y x l :
  key_le y x → HdRel key_le y l → HdRel key_le y (insert_by_key x l).
Proof.
  intros Hyx Hl. destruct l as [|z l]; simpl; [by constructor|].
  destruct (py_lt z.1 x.1); constructor; [|done]. by inv Hl.
Qed.

Lemma insert_by_key_Sorted x l :
  Sorted key_le l → Sorted key_le (insert_by_key x l).
Proof.
  induction 1 as [|y l Hl IH Hy]; simpl; [by repeat constructor|].
  destruct (py_lt y.1 x.1) eqn:Hlt.
  - constructor; [done|]. apply insert_by_key_HdRel; [|done].
    apply py_lt_true in Hlt. by apply lexico_asym.
  - apply py_lt_false in Hlt. by repeat constructor.
Qed.

Lemma sort_by_key_Sorted l : Sorted key_le (sort_by_key l).
Proof.
  induction l; simpl; [constructor | by apply insert_by_key_Sorted].
Qed.

Lemma sort_by_key_StronglySorted l : StronglySorted key_le (sort_by_key l).
Proof.
  apply (@Sorted_StronglySorted _ _ key_le_trans), sort_by_key_Sorted.
Qed.

(** The sort is stable: the elements with a given key keep their order. *)
Lemma insert_by_key_filter `{!EqDecision K} (k : K) x l :
  filter (λ p, p.1 = k) (insert_by_key x l) = filter (λ p, p.1 = k) (x :: l).
Proof.
  induction l as [|y l IH]; simpl; [done|].
  destruct (py_lt y.1 x.1) eqn:Hlt; [|done].
  rewrite filter_cons, IH, !filter_cons.
  destruct (decide (y.1 = k)) as [Hy|], (decide (x.1 = k)) as [Hx|]; try done.
  apply py_lt_true in Hlt. rewrite Hy, Hx in Hlt.
  by apply (irreflexivity (@lexico K _)) in Hlt.
Qed.

Lemma sort_by_key_stable `{!EqDecision K} (k : K) l :
  filter (λ p, p.1 = k) (sort_by_key l) = filter (λ p, p.1 = k) l.
Proof.
  induction l as [|x l IH]; simpl; [done|].
  by rewrite insert_by_key_filter, !filter_cons, IH.
Qed.

(** A list in order is left as it is. *)
Lemma sort_by_key_id l : Sorted key_le l → sort_by_key l = l.
Proof.
  induction 1 as [|x l Hl IH Hx]; simpl; [done|]. rewrite IH.
  destruct Hx as [|y l Hxy]; simpl; [done|].
  by apply py_lt_false in Hxy as ->.
Qed.

Lemma decorate_Ok (key : A → result K) (xs : list A) l :
  decorate key xs = Ok l →
  l.*2 = xs ∧ Forall2 (λ a k, key a = Ok k) xs l.*1.
Proof.
  revert l. induction xs as [|a xs IH]; intros l; simpl.
  - intros [= <-]. by split; [|constructor].
  - intros (k & Hk & (l' & Hl' & [= <-])%bind_Ok)%bind_Ok.
    apply IH in Hl' as [<- ?]. by split; [|constructor].
Qed.

Lemma decorate_keys (key : A → result K) (xs : list A) (ks : list K) :
  Forall2 (λ a k, key a = Ok k) xs ks → decorate key xs = Ok (zip ks xs).
Proof. induction 1 as [|a k xs ks Hk _ IH]; simpl; [done|]. by rewrite Hk, IH. Qed.

Lemma decorate_Raise (key : A → result K) (xs : list A) (a : A) e :
  a ∈ xs → key a = Raise e → decorate key xs = Raise ValueError.
Proof.
  intros Ha Hk. induction Ha as [a xs | a a' xs _ IH]; simpl.
  - rewrite Hk. by destruct e.
  - destruct (key a') as [k|[]]; [|done]. cbn. by rewrite IH.
Qed.
End sorted_facts.

Lemma StronglySorted_lookup {A} (R : relation A) (l : list A) i j x y :
  StronglySorted R l → l !! i = Some x → l !! j = Some y → (i < j)%nat → R x y.
Proof.
  intros Hl. revert i j. induction Hl as [|z l Hl IH Hz]; intros i j; [done|].
  destruct i as [|i], j as [|j]; simpl; try lia.
  - intros [= <-] Hy _. eapply Forall_forall; [done|]. by eapply list_elem_of_lookup_2.
  - intros Hx Hy ?. apply (IH i j); [done..|lia].
Qed.

(** ** The Rank Assigner *)

Import compute_lex_rank.

Lemma main_Ok U rows ranked_rows :
  compute_lex_rank.main U rows = Ok ranked_rows →
  ∃ l, decorate (sort_key U) rows = Ok l ∧
    ranked_rows = imap (λ i r, with_lex_rank (Z.of_nat i + 1) r) (sort_by_key l).*2.
Proof.
  unfold compute_lex_rank.main, sorted.
  intros (rows_sorted & (l & Hl & [= <-])%bind_Ok & [= <-])%bind_Ok. eauto.
Qed.

(** The Rank Assigner ends normally exactly when [int] accepts the
    [entry_index] of every row. *)
Lemma rank_main_Ok_iff U rows :
  (∃ ranked_rows, compute_lex_rank.main U rows = Ok ranked_rows) ↔
  Forall (λ r, ∃ i, int U (get_or r "entry_index" (py "0")) = Ok i) rows.
Proof.
  split.
  - intros [ranked_rows (l & Hl & _)%main_Ok]. apply Forall_forall. intros r Hr.
    destruct (int U (get_or r "entry_index" (py "0"))) as [i|e] eqn:Hi; [eauto|].
    rewrite (decorate_Raise (sort_key U) rows r e Hr) in Hl; [done|].
    unfold sort_key. by rewrite Hi.
  - intros Hrows.
    assert (∃ ks, Forall2 (λ r k, sort_key U r = Ok k) rows ks) as [ks Hks].
    { induction Hrows as [|r rows [i Hi] _ [ks IH]]; [by exists []|].
      eexists (_ :: ks). constructor; [|done]. unfold sort_key. by rewrite Hi. }
    unfold compute_lex_rank.main, sorted. rewrite (decorate_keys _ _ _ Hks). eauto.
Qed.

Lemma lex_rank_with_lex_rank idx r : lex_rank (with_lex_rank idx r) = Some (VInt idx).
Proof. apply lookup_insert_eq. Qed.

Lemma canonical_key_with_lex_rank idx r :
  canonical_key (with_lex_rank idx r) = get r "normalized_word" [].
Proof.
  unfold canonical_key, with_lex_rank, get.
  rewrite lookup_insert_ne by done. rewrite lookup_fmap.
  by destruct (r !! "normalized_word"%string).
Qed.

Lemma lex_rank_imap (n : nat) (rows : list row) :
  lex_rank <$> imap (λ i r, with_lex_rank (Z.of_nat (n + i) + 1) r) rows
  = (λ idx, Some (VInt idx)) <$> seqZ (Z.of_nat n + 1) (len rows).
Proof.
  revert n. induction rows as [|r rows IH]; intros n; [done|].
  unfold len. rewrite imap_cons, !fmap_cons, length_cons, Nat2Z.inj_succ.
  rewrite seqZ_cons by lia. rewrite fmap_cons, lex_rank_with_lex_rank.
  f_equal; [do 3 f_equal; lia|].
  rewrite <- (imap_ext (λ i r, with_lex_rank (Z.of_nat (S n + i) + 1) r)).
  - rewrite IH. unfold len. do 2 f_equal; lia.
  - intros i x _. simpl. do 2 f_equal. lia.
Qed.

(** C5. The ranks of the [N] rows that the Rank Assigner returns are, in
    order, 1, 2, ..., [N]: as a set they are [{1, ..., N}], and no rank
    occurs twice. *)
Theorem lex_ranks_contiguous U rows ranked_rows :
  compute_lex_rank.main U rows = Ok ranked_rows →
  length ranked_rows = length rows ∧
  lex_rank <$> ranked_rows = (λ idx, Some (VInt idx)) <$> seqZ 1 (len rows) ∧
  NoDup (lex_rank <$> ranked_rows) ∧
  (∀ v, v ∈ lex_rank <$> ranked_rows ↔ ∃ idx, v = Some (VInt idx) ∧ (1 ≤ idx ≤ len rows)%Z).
Proof.
  intros (l & Hl & ->)%main_Ok. apply decorate_Ok in Hl as [Hrows _].
  assert (length (sort_by_key l).*2 = length rows) as Hlen.
  { rewrite <- Hrows, !length_fmap. by rewrite sort_by_key_perm. }
  assert (lex_rank <$> imap (λ i r, with_lex_rank (Z.of_nat i + 1) r) (sort_by_key l).*2
          = (λ idx, Some (VInt idx)) <$> seqZ 1 (len rows)) as Hranks.
  { rewrite (lex_rank_imap 0). unfold len. by rewrite Hlen. }
  split_and!.
  - by rewrite length_imap.
  - done.
  - rewrite Hranks. apply NoDup_fmap_2; [|apply NoDup_seqZ]. by intros ?? [= ->].
  - intros v. rewrite Hranks, list_elem_of_fmap. split.
    + intros (idx & -> & Hidx%elem_of_seqZ). exists idx. split; [done | lia].
    + intros (idx & -> & Hidx). exists idx. split; [done|]. apply elem_of_seqZ. lia.
Qed.

Lemma sort_key_Ok U r k :
  sort_key U r = Ok k → k.1.1.1 = get r "normalized_word" [].
Proof. unfold sort_key. by intros (i & _ & [= <-])%bind_Ok. Qed.

Lemma decorate_Ok_keys {A K} (key : A → result K) (xs : list A) l :
  decorate key xs = Ok l → Forall (λ p, key p.2 = Ok p.1) l.
Proof.
  revert l. induction xs as [|a xs IH]; intros l; simpl.
  - intros [= <-]. constructor.
  - intros (k & Hk & (l' & Hl' & [= <-])%bind_Ok)%bind_Ok. constructor; auto.
Qed.

Lemma str_le_first (k1 k2 : pystr * pystr * pystr * Z) :
  ¬ lexico k2 k1 → str_le k1.1.1.1 k2.1.1.1.
Proof. intros Hle Hlt. apply Hle. by do 3 left. Qed.

(** C6. In the output of the Rank Assigner, whatever the input table (so
    with and without deduplication), a row with a smaller [lex_rank] has a
    canonical key that is smaller or equal in the order of code points. *)
Theorem rank_follows_key U rows ranked_rows a b (rank_a rank_b : Z) :
  compute_lex_rank.main U rows = Ok ranked_rows →
  a ∈ ranked_rows →
  b ∈ ranked_rows →
  lex_rank a = Some (VInt rank_a) →
  lex_rank b = Some (VInt rank_b) →
  (rank_a < rank_b)%Z →
  str_le (canonical_key a) (canonical_key b).
Proof.
  intros (l & Hl & ->)%main_Ok [i Hi]%list_elem_of_lookup [j Hj]%list_elem_of_lookup.
  rewrite list_lookup_imap, list_lookup_fmap in Hi, Hj.
  destruct (sort_by_key l !! i) as [[ki ri]|] eqn:Hli; [|done].
  destruct (sort_by_key l !! j) as [[kj rj]|] eqn:Hlj; [|done].
  injection Hi as <-. injection Hj as <-.
  rewrite !lex_rank_with_lex_rank, !canonical_key_with_lex_rank.
  intros [= <-] [= <-] Hlt.
  assert (Forall (λ p, sort_key U p.2 = Ok p.1) (sort_by_key l)) as Hkeys.
  { rewrite sort_by_key_perm. by eapply decorate_Ok_keys. }
  rewrite Forall_lookup in Hkeys.
  pose proof (sort_key_Ok _ _ _ (Hkeys _ _ Hli)) as Ei.
  pose proof (sort_key_Ok _ _ _ (Hkeys _ _ Hlj)) as Ej.
  simpl in Ei, Ej. rewrite <- Ei, <- Ej. apply str_le_first.
  apply (StronglySorted_lookup key_le (sort_by_key l) i j (ki, ri) (kj, rj));
    [apply sort_by_key_StronglySorted | done.. | lia].
Qed.

Lemma rank_follows_key_witness :
  str_le (canonical_key (with_lex_rank 1 row_a)) (canonical_key (with_lex_rank 2 row_b)).
Proof.
  apply (rank_follows_key latin1 [row_b; row_a]
           [with_lex_rank 1 row_a; with_lex_rank 2 row_b] _ _ 1 2).
  - by_evaluation.
  - apply list_elem_of_here.
  - apply list_elem_of_further, list_elem_of_here.
  - reflexivity.
  - reflexivity.
  - reflexivity.
Defined.

Lemma lex_ranks_contiguous_witness :
  length [with_lex_rank 1 row_a; with_lex_rank 2 row_b] = length [row_b; row_a] ∧
  lex_rank <$> [with_lex_rank 1 row_a; with_lex_rank 2 row_b]
    = (λ idx, Some (VInt idx)) <$> seqZ 1 (len [row_b; row_a]) ∧
  NoDup (lex_rank <$> [with_lex_rank 1 row_a; with_lex_rank 2 row_b]) ∧
  (∀ v, v ∈ lex_rank <$> [with_lex_rank 1 row_a; with_lex_rank 2 row_b]
        ↔ ∃ idx, v = Some (VInt idx) ∧ (1 ≤ idx ≤ len [row_b; row_a])%Z).
Proof.
  apply (lex_ranks_contiguous latin1 [row_b; row_a]). by_evaluation.
Defined.

(** *** Running the Rank Assigner on its own output *)

Lemma lookup_written_row fs (R : gmap string pyval) (key : string) :
  written_row fs R !! key
  = if bool_decide (key ∈ fs) then Some (cell (R !! key)) else None.
Proof.
  unfold written_row. induction fs as [|f fs IH].
  - rewrite fmap_nil, list_to_map_nil, lookup_empty.
    by rewrite bool_decide_eq_false_2 by apply not_elem_of_nil.
  - rewrite fmap_cons, list_to_map_cons, lookup_insert.
    destruct (decide (f = key)) as [->|Hne].
    + by rewrite bool_decide_eq_true_2 by left.
    + rewrite IH. rewrite (bool_decide_ext (key ∈ f :: fs) (key ∈ fs)); [done|].
      rewrite elem_of_cons. intuition congruence.
Qed.

Lemma written_row_ext fs (R1 R2 : gmap string pyval) :
  (∀ key, key ∈ fs → cell (R1 !! key) = cell (R2 !! key)) →
  written_row fs R1 = written_row fs R2.
Proof.
  intros HR. unfold written_row. f_equal. apply list_fmap_ext.
  intros _ key Hkey%list_elem_of_lookup_2. by rewrite HR.
Qed.

Lemma reread_lookup idx r (key : string) :
  key ∈ fieldnames → key ≠ "lex_rank"%string →
  reread idx r !! key = Some (default [] (r !! key)).
Proof.
  intros Hkey Hne. unfold reread, with_lex_rank.
  rewrite lookup_delete_ne by done. rewrite lookup_written_row.
  rewrite bool_decide_eq_true_2 by done.
  rewrite lookup_insert_ne by done. rewrite lookup_fmap.
  by destruct (r !! key).
Qed.

Lemma sort_key_reread U idx r : sort_key U (reread idx r) = sort_key U r.
Proof.
  unfold sort_key, get, get_or.
  rewrite !reread_lookup by (done || in_list).
  destruct (r !! "entry_index"%string) as [[|c s]|]; done.
Qed.

Lemma written_row_reread idx r :
  written_row fieldnames (with_lex_rank idx (reread idx r))
  = written_row fieldnames (with_lex_rank idx r).
Proof.
  apply written_row_ext. intros key Hkey. unfold with_lex_rank.
  destruct (decide (key = "lex_rank"%string)) as [->|Hne].
  - by rewrite !lookup_insert_eq.
  - rewrite !lookup_insert_ne by done. rewrite !lookup_fmap.
    rewrite reread_lookup by done. by destruct (r !! key).
Qed.

Lemma imap_imap {A B C} (f : nat → B → C) (g : nat → A → B) (l : list A) :
  imap f (imap g l) = imap (λ i a, f i (g i a)) l.
Proof.
  revert f g. induction l as [|a l IH]; intros f g; [done|].
  rewrite !imap_cons. f_equal. apply IH.
Qed.

Lemma Forall2_imap_keys {A K} (key : A → result K) (g : nat → A → A) xs ks :
  (∀ i a, key (g i a) = key a) →
  Forall2 (λ a k, key a = Ok k) xs ks →
  Forall2 (λ a k, key a = Ok k) (imap g xs) ks.
Proof.
  intros Hg Hxs. revert g Hg.
  induction Hxs as [|a k xs ks Hk _ IH]; intros g Hg; [constructor|].
  rewrite imap_cons. constructor; [by rewrite Hg|]. apply IH. intros i b. apply Hg.
Qed.

Lemma Sorted_key_le_ext {A B K} `{Lexico K} (l1 : list (K * A)) (l2 : list (K * B)) :
  l1.*1 = l2.*1 → Sorted key_le l1 → Sorted key_le l2.
Proof.
  intros Hfst Hl1. revert l2 Hfst.
  induction Hl1 as [|[k a] l1 _ IH Hhd]; intros [|[k' b] l2] [=]; subst;
    constructor; [by apply IH|].
  destruct Hhd as [|[k1 a1] l1 Hle], l2 as [|[k2 b2] l2]; simplify_eq/=;
    by constructor.
Qed.

(** C7. The Rank Assigner is idempotent: run on the ranked CSV that it
    wrote, with the column [lex_rank] removed, it writes the same ranked CSV
    again, so every row keeps the rank it had. *)
Theorem rank_assigner_idempotent U rows table :
  ranked_csv U rows = Ok table →
  ranked_csv U (delete "lex_rank"%string <$> table) = Ok table.
Proof.
  unfold ranked_csv.
  intros (ranked_rows & (l & Hl & ->)%main_Ok & [= <-])%bind_Ok.
  set (g := λ (i : nat) (r : row), reread (Z.of_nat i + 1) r).
  assert (delete "lex_rank"%string <$>
            write_csv_rows fieldnames
              (imap (λ i r, with_lex_rank (Z.of_nat i + 1) r) (sort_by_key l).*2)
          = imap g (sort_by_key l).*2) as ->.
  { unfold write_csv_rows. by rewrite !fmap_imap. }
  assert (Forall2 (λ r k, sort_key U r = Ok k)
            (imap g (sort_by_key l).*2) (sort_by_key l).*1) as Hkeys.
  { apply Forall2_imap_keys; [intros; apply sort_key_reread|].
    apply Forall2_fmap, Forall_Forall2_diag.
    rewrite sort_by_key_perm. by eapply decorate_Ok_keys. }
  pose proof (Forall2_length _ _ _ Hkeys) as Hlen.
  unfold compute_lex_rank.main, sorted. rewrite (decorate_keys _ _ _ Hkeys).
  cbn [mbind result_bind]. rewrite sort_by_key_id.
  - rewrite snd_zip by lia. f_equal. unfold write_csv_rows.
    rewrite !fmap_imap, imap_imap. apply imap_ext. intros i r _.
    apply written_row_reread.
  - apply (Sorted_key_le_ext (sort_by_key l)); [|apply sort_by_key_Sorted].
    rewrite fst_zip by lia. done.
Qed.

Lemma rank_assigner_idempotent_witness :
  ranked_csv latin1
    (delete "lex_rank"%string <$>
       write_csv_rows fieldnames [with_lex_rank 1 row_a; with_lex_rank 2 row_b])
  = Ok (write_csv_rows fieldnames [with_lex_rank 1 row_a; with_lex_rank 2 row_b]).
Proof. apply (rank_assigner_idempotent latin1 [row_b; row_a]). by_evaluation. Defined.

(** ** The [entry_index] of a row *)

Lemma entry_index_missing U (r : row) :
  r !! "entry_index"%string = None ∨ r !! "entry_index"%string = Some [] →
  int U (get_or r "entry_index" (py "0")) = Ok 0%Z.
Proof. intros Hr. by rewrite get_or_missing. Qed.

Lemma main_Raise U do_dedupe raw_rows r e :
  r ∈ raw_rows →
  int U (get_or r "entry_index" (py "0")) = Raise e →
  normalize_dictionary.main U do_dedupe raw_rows = Raise ValueError.
Proof.
  intros Hr Hi. unfold normalize_dictionary.main.
  by rewrite (normalize_rows_Raise _ _ _ _ Hr Hi).
Qed.

Lemma rank_main_Raise U rows r e :
  r ∈ rows →
  int U (get_or r "entry_index" (py "0")) = Raise e →
  compute_lex_rank.main U rows = Raise ValueError.
Proof.
  intros Hr Hi. unfold compute_lex_rank.main, sorted.
  rewrite (decorate_Raise (sort_key U) rows r e Hr); [done|].
  unfold sort_key. by rewrite Hi.
Qed.

(** C2, as the code has it. A row whose [entry_index] is missing or empty
    is given the index 0 by the normalizer and by the Rank Assigner, and
    the run goes on. A row whose [entry_index] is text that [int] does not
    accept ends both stages with a [ValueError], wherever it is in the
    table. *)
Theorem entry_index_default U (r : row) :
  (r !! "entry_index"%string = None ∨ r !! "entry_index"%string = Some [] →
   sort_key U r
   = Ok (get r "normalized_word" [], get r "word" [], get r "source_file" [], 0%Z) ∧
   ∀ acc, ∃ acc',
     normalize_row U acc r = Ok acc' ∧
     ∀ e, e ∈ normalized_entries acc' →
          e ∈ normalized_entries acc ∨ entry_index e = 0%Z) ∧
  (int U (get_or r "entry_index" (py "0")) = Raise ValueError →
   ∀ rows do_dedupe, r ∈ rows →
     normalize_dictionary.main U do_dedupe rows = Raise ValueError ∧
     compute_lex_rank.main U rows = Raise ValueError).
Proof.
  split.
  - intros Hi%(entry_index_missing U). split.
    + unfold sort_key. by rewrite Hi.
    + intros acc. destruct (normalize_row_Ok U acc r 0 Hi) as (acc' & Hacc' & He).
      exists acc'. split; [done|]. intros e [?|[? _]]%He; auto.
  - intros Hi rows do_dedupe Hr. split.
    + by eapply main_Raise.
    + by eapply rank_main_Raise.
Qed.

Lemma entry_index_default_witness :
  (sort_key latin1 unnumbered_row
   = Ok (get unnumbered_row "normalized_word" [], get unnumbered_row "word" [],
         get unnumbered_row "source_file" [], 0%Z) ∧
   ∀ acc, ∃ acc',
     normalize_row latin1 acc unnumbered_row = Ok acc' ∧
     ∀ e, e ∈ normalized_entries acc' →
          e ∈ normalized_entries acc ∨ entry_index e = 0%Z) ∧
  (normalize_dictionary.main latin1 true [row_a; malformed_row] = Raise ValueError ∧
   compute_lex_rank.main latin1 [row_a; malformed_row] = Raise ValueError).
Proof.
  split.
  - apply (proj1 (entry_index_default latin1 unnumbered_row)). left. reflexivity.
  - apply (proj2 (entry_index_default latin1 malformed_row)).
    + reflexivity.
    + apply list_elem_of_further, list_elem_of_here.
Defined.

(** C2, as the claim has it, fails: the [entry_index] of [malformed_row] is
    not a number, and neither stage takes it for 0: both end with a
    [ValueError]. *)
Lemma malformed_entry_index_raises :
  malformed_row !! "entry_index"%string = Some (py "abc") ∧
  int latin1 (py "abc") = Raise ValueError ∧
  normalize_dictionary.main latin1 true [malformed_row] = Raise ValueError ∧
  normalize_dictionary.main latin1 false [malformed_row] = Raise ValueError ∧
  compute_lex_rank.main latin1 [malformed_row] = Raise ValueError.
Proof. split_and!; vm_compute; reflexivity. Qed.

(** ** The Collision Resolver *)

Section dict_facts.
Context {V : Type}.
Implicit Types (d : list (pystr * V)) (key : pystr).

Lemma dict_get_set_eq key v d : dict_get key (dict_set key v d) = Some v.
Proof.
  induction d as [|[k v'] d IH]; simpl.
  - by rewrite bool_decide_eq_true_2.
  - destruct (decide (k = key)) as [->|Hne].
    + rewrite bool_decide_eq_true_2 by done. simpl.
      by rewrite bool_decide_eq_true_2.
    + rewrite bool_decide_eq_false_2 by done. simpl.
      by rewrite bool_decide_eq_false_2.
Qed.

Lemma dict_get_set_ne key key' v d :
  key ≠ key' → dict_get key' (dict_set key v d) = dict_get key' d.
Proof.
  intros Hne. induction d as [|[k v'] d IH]; simpl.
  - by rewrite bool_decide_eq_false_2.
  - case_bool_decide as Hk; simpl.
    + subst k. by rewrite !bool_decide_eq_false_2.
    + by rewrite IH.
Qed.

Lemma dict_get_None key d : dict_get key d = None ↔ key ∉ d.*1.
Proof.
  induction d as [|[k v] d IH]; simpl.
  - split; [intros _; apply not_elem_of_nil | done].
  - rewrite not_elem_of_cons. case_bool_decide; [|by rewrite IH; intuition].
    split; [done | intros [? _]; congruence].
Qed.

Lemma dict_set_new key v d :
  dict_get key d = None → (dict_set key v d).*1 = d.*1 ++ [key].
Proof.
  induction d as [|[k v'] d IH]; csimpl; [done|].
  case_bool_decide; [done|]. intros Hd. csimpl. by rewrite IH.
Qed.

Lemma dict_set_old key v v' d :
  dict_get key d = Some v' → (dict_set key v d).*1 = d.*1.
Proof.
  induction d as [|[k v''] d IH]; csimpl; [done|].
  case_bool_decide; [done|]. intros Hd. csimpl. by rewrite IH.
Qed.
End dict_facts.

Lemma pick_better_definition_longer U existing candidate :
  (len (strip U (definition (value candidate)))
   > len (strip U (definition (value existing))))%Z →
  pick_better_definition U existing candidate = candidate.
Proof.
  intros Hlen. unfold pick_better_definition.
  by rewrite (proj2 (Z.gtb_gt _ _)) by lia.
Qed.

Lemma pick_better_definition_not_longer U existing candidate :
  (len (strip U (definition (value candidate)))
   ≤ len (strip U (definition (value existing))))%Z →
  pick_better_definition U existing candidate = existing.
Proof.
  intros Hlen. unfold pick_better_definition.
  destruct (Z.gtb_spec (len (strip U (definition (value candidate))))
              (len (strip U (definition (value existing))))); [lia | done].
Qed.

Lemma is_same {A} (a : object A) : is_ a a = true.
Proof. unfold is_. by apply bool_decide_eq_true_2. Qed.

Lemma dedupe_step_collision U kept_by_normalized collisions entry existing :
  dict_get (normalized_word (value entry)) kept_by_normalized = Some existing →
  dedupe_step U (kept_by_normalized, collisions) entry =
  let better := pick_better_definition U existing entry in
  let dropped := if is_ better existing then entry else existing in
  (dict_set (normalized_word (value entry)) better kept_by_normalized,
   collisions ++
   [ {| c_normalized_word := normalized_word (value entry);
        kept_word := word (value better);
        dropped_word := word (value dropped);
        kept_source_file := source_file (value better);
        dropped_source_file := source_file (value dropped);
        kept_entry_index := str_of_int (entry_index (value better));
        dropped_entry_index := str_of_int (entry_index (value dropped)) |} ]).
Proof. intros Hget. unfold dedupe_step. by rewrite Hget. Qed.

(** C4. When the key of an incoming entry is already in the kept map, the
    incoming entry takes the place of the kept one if its trimmed definition
    is strictly longer, and the kept one stays if it is not (so also when
    both have the same length, empty or not): the incoming entry, a
    different object, is the kept one afterwards if and only if its trimmed
    definition is strictly longer. The other keys of the map are left as
    they are. *)
Theorem longer_definition_wins U kept_by_normalized collisions entry existing :
  dict_get (normalized_word (value entry)) kept_by_normalized = Some existing →
  ((len (strip U (definition (value entry)))
    > len (strip U (definition (value existing))))%Z →
   dict_get (normalized_word (value entry))
     (dedupe_step U (kept_by_normalized, collisions) entry).1 = Some entry) ∧
  ((len (strip U (definition (value entry)))
    ≤ len (strip U (definition (value existing))))%Z →
   dict_get (normalized_word (value entry))
     (dedupe_step U (kept_by_normalized, collisions) entry).1 = Some existing) ∧
  (addr entry ≠ addr existing →
   dict_get (normalized_word (value entry))
     (dedupe_step U (kept_by_normalized, collisions) entry).1 = Some entry
   ↔ (len (strip U (definition (value entry)))
      > len (strip U (definition (value existing))))%Z) ∧
  (∀ key, normalized_word (value entry) ≠ key →
     dict_get key (dedupe_step U (kept_by_normalized, collisions) entry).1
     = dict_get key kept_by_normalized).
Proof.
  intros Hget. rewrite (dedupe_step_collision _ _ _ _ _ Hget). cbn [fst]. split_and!.
  - intros Hlen. by rewrite dict_get_set_eq, pick_better_definition_longer.
  - intros Hlen. by rewrite dict_get_set_eq, pick_better_definition_not_longer.
  - intros Haddr. rewrite dict_get_set_eq. split.
    + intros [= Hpick].
      destruct (Z_gt_le_dec (len (strip U (definition (value entry))))
                  (len (strip U (definition (value existing))))) as [|Hle]; [done|].
      rewrite pick_better_definition_not_longer in Hpick by done.
      by rewrite Hpick in Haddr.
    + intros Hlen. by rewrite pick_better_definition_longer.
  - intros key Hne. by apply dict_get_set_ne.
Qed.

Lemma longer_definition_wins_witness :
  ((len (strip latin1 (definition run_verb))
    > len (strip latin1 (definition run_noun)))%Z →
   dict_get (py "run")
     (dedupe_step latin1 ([(py "run", Obj 0 run_noun)], []) (Obj 1 run_verb)).1
   = Some (Obj 1 run_verb)) ∧
  ((len (strip latin1 (definition run_verb))
    ≤ len (strip latin1 (definition run_noun)))%Z →
   dict_get (py "run")
     (dedupe_step latin1 ([(py "run", Obj 0 run_noun)], []) (Obj 1 run_verb)).1
   = Some (Obj 0 run_noun)) ∧
  (addr (Obj 1 run_verb) ≠ addr (Obj 0 run_noun) →
   dict_get (py "run")
     (dedupe_step latin1 ([(py "run", Obj 0 run_noun)], []) (Obj 1 run_verb)).1
   = Some (Obj 1 run_verb)
   ↔ (len (strip latin1 (definition run_verb))
      > len (strip latin1 (definition run_noun)))%Z) ∧
  (∀ key, py "run" ≠ key →
     dict_get key
       (dedupe_step latin1 ([(py "run", Obj 0 run_noun)], []) (Obj 1 run_verb)).1
     = dict_get key [(py "run", Obj 0 run_noun)]).
Proof.
  apply (longer_definition_wins latin1 [(py "run", Obj 0 run_noun)] []
           (Obj 1 run_verb) (Obj 0 run_noun)).
  reflexivity.
Defined.

(** *** Counting the collisions *)

Lemma dedupe_step_count U kept_by_normalized collisions entry :
  NoDup kept_by_normalized.*1 →
  NoDup (dedupe_step U (kept_by_normalized, collisions) entry).1.*1 ∧
  (list_to_set (dedupe_step U (kept_by_normalized, collisions) entry).1.*1 : gset pystr)
  = {[ normalized_word (value entry) ]} ∪ list_to_set kept_by_normalized.*1 ∧
  (length (dedupe_step U (kept_by_normalized, collisions) entry).1
   + length (dedupe_step U (kept_by_normalized, collisions) entry).2
   = S (length kept_by_normalized + length collisions))%nat.
Proof.
  intros Hnodup.
  destruct (dict_get (normalized_word (value entry)) kept_by_normalized)
    as [existing|] eqn:Hget.
  - rewrite (dedupe_step_collision _ _ _ _ _ Hget). cbn [fst snd].
    rewrite (dict_set_old _ _ _ _ Hget). split_and!; [done| |].
    + assert (normalized_word (value entry) ∈ kept_by_normalized.*1) as Hin.
      { destruct (decide (normalized_word (value entry) ∈ kept_by_normalized.*1))
          as [|Hnot%dict_get_None]; [done | congruence]. }
      symmetry. apply subseteq_union_1_L, singleton_subseteq_l.
      by apply elem_of_list_to_set.
    + rewrite length_app. simpl.
      rewrite <- (length_fmap fst (dict_set _ _ _)), (dict_set_old _ _ _ _ Hget).
      rewrite length_fmap. lia.
  - unfold dedupe_step. rewrite Hget. cbn [fst snd].
    rewrite (dict_set_new _ _ _ Hget). split_and!.
    + apply NoDup_app. split_and!; [done | | apply NoDup_singleton].
      intros key Hkey ->%list_elem_of_singleton. by apply dict_get_None in Hget.
    + rewrite list_to_set_app_L. simpl. rewrite union_empty_r_L. apply (comm_L (∪)).
    + rewrite <- (length_fmap fst (dict_set _ _ _)), (dict_set_new _ _ _ Hget).
      rewrite length_app, length_fmap. simpl. lia.
Qed.

Lemma foldl_dedupe_step_count U entries st :
  NoDup st.1.*1 →
  NoDup (foldl (dedupe_step U) st entries).1.*1 ∧
  (list_to_set (foldl (dedupe_step U) st entries).1.*1 : gset pystr)
  = list_to_set (normalized_word ∘ value <$> entries) ∪ list_to_set st.1.*1 ∧
  (length (foldl (dedupe_step U) st entries).1
   + length (foldl (dedupe_step U) st entries).2
   = length st.1 + length st.2 + length entries)%nat.
Proof.
  revert st. induction entries as [|entry entries IH]; intros [kept cols] Hnodup.
  - simpl. split_and!; [done | by rewrite union_empty_l_L | lia].
  - cbn [foldl].
    destruct (dedupe_step_count U kept cols entry Hnodup) as (Hnodup' & Hkeys & Hlen).
    destruct (IH _ Hnodup') as (? & -> & ->). split_and!; [done| |].
    + rewrite Hkeys, fmap_cons, list_to_set_cons.
      rewrite (assoc_L (∪)). f_equal. apply (comm_L (∪)).
    + rewrite Hlen. simpl. lia.
Qed.

Lemma dedupe_count U entries :
  (length (dedupe U entries).2
   + size (list_to_set (normalized_word ∘ value <$> entries) : gset pystr)
   = length entries)%nat.
Proof.
  unfold dedupe.
  destruct (foldl_dedupe_step_count U entries ([], [])) as (Hnodup & Hkeys & Hlen);
    [constructor|].
  simpl in Hkeys, Hlen. rewrite union_empty_r_L in Hkeys.
  rewrite <- Hkeys, size_list_to_set by done. rewrite length_fmap. lia.
Qed.

Lemma allocate_keys entries :
  normalized_word ∘ value <$> allocate entries = normalized_word <$> entries.
Proof. unfold allocate. rewrite fmap_imap. apply imap_const. Qed.

Lemma allocate_length entries : length (allocate entries) = length entries.
Proof. apply length_imap. Qed.

(** The entries that the loop of [main] meets are different objects. *)
Lemma allocate_addr entries : NoDup (addr <$> allocate entries).
Proof.
  unfold allocate. rewrite fmap_imap.
  rewrite (imap_ext _ (λ i _, id i)) by done.
  rewrite imap_seq_0, list_fmap_id. apply NoDup_seq.
Qed.

(** C10. In dedupe mode an incoming entry whose key is new adds no
    collision record, and an incoming entry whose key is already kept adds
    exactly one, also when it does not replace the kept entry: the record
    then names the kept entry as kept and the incoming one as dropped. So a
    run has as many collision records as it has normalized entries beyond
    the first of every canonical key. *)
Theorem one_collision_per_colliding_entry U :
  (∀ kept_by_normalized collisions entry,
     dict_get (normalized_word (value entry)) kept_by_normalized = None →
     (dedupe_step U (kept_by_normalized, collisions) entry).2 = collisions) ∧
  (∀ kept_by_normalized collisions entry existing,
     dict_get (normalized_word (value entry)) kept_by_normalized = Some existing →
     ∃ c,
       (dedupe_step U (kept_by_normalized, collisions) entry).2 = collisions ++ [c] ∧
       c_normalized_word c = normalized_word (value entry) ∧
       ((len (strip U (definition (value entry)))
         ≤ len (strip U (definition (value existing))))%Z →
        kept_word c = word (value existing) ∧
        dropped_word c = word (value entry) ∧
        kept_source_file c = source_file (value existing) ∧
        dropped_source_file c = source_file (value entry) ∧
        kept_entry_index c = str_of_int (entry_index (value existing)) ∧
        dropped_entry_index c = str_of_int (entry_index (value entry)))) ∧
  (∀ entries,
     (length (dedupe U entries).2
      + size (list_to_set (normalized_word ∘ value <$> entries) : gset pystr)
      = length entries)%nat) ∧
  (∀ raw_rows out,
     normalize_dictionary.main U true raw_rows = Ok out →
     (length (collisions out)
      + size (list_to_set (normalized_word <$> normalized_entries (stats out))
              : gset pystr)
      = length (normalized_entries (stats out)))%nat).
Proof.
  split_and!.
  - intros kept cols entry Hget. unfold dedupe_step. by rewrite Hget.
  - intros kept cols entry existing Hget.
    rewrite (dedupe_step_collision _ _ _ _ _ Hget). cbn [snd].
    eexists. split; [done|]. split; [done|]. intros Hlen. cbn zeta.
    rewrite pick_better_definition_not_longer, is_same by done. done.
  - apply dedupe_count.
  - intros raw_rows out. unfold normalize_dictionary.main.
    intros (n & _ & Hout)%bind_Ok.
    pose proof (dedupe_count U (allocate (normalized_entries n))) as Hcount.
    rewrite allocate_keys, allocate_length in Hcount.
    destruct (dedupe U (allocate (normalized_entries n))) as [kept cols].
    by injection Hout as <-.
Qed.

Lemma one_collision_per_colliding_entry_witness :
  ∃ c,
    (dedupe_step latin1 ([(py "run", Obj 0 run_verb)], []) (Obj 1 run_tie)).2 = [] ++ [c] ∧
    c_normalized_word c = py "run" ∧
    ((len (strip latin1 (definition run_tie))
      ≤ len (strip latin1 (definition run_verb)))%Z →
     kept_word c = py "Run" ∧
     dropped_word c = py "run" ∧
     kept_source_file c = py "wb1913_r.html" ∧
     dropped_source_file c = py "wb1913_r.html" ∧
     kept_entry_index c = str_of_int 4 ∧
     dropped_entry_index c = str_of_int 6).
Proof.
  apply (proj1 (proj2 (one_collision_per_colliding_entry latin1))
           [(py "run", Obj 0 run_verb)] [] (Obj 1 run_tie) (Obj 0 run_verb)).
  reflexivity.
Defined.

(** ** The Invariant Verifier *)

Import sanity_check_ranked.

Lemma existsb_append_if (f : error → bool) cond e errors :
  existsb f (append_if cond e errors) = existsb f errors || (cond && f e).
Proof.
  unfold append_if. destruct cond; simpl.
  - by rewrite existsb_app; simpl; rewrite orb_false_r.
  - by rewrite orb_false_r.
Qed.

Lemma check_row_ordering U idx r st st' :
  check_row U idx r st = Ok st' →
  match strip U (get_or r "normalized_word" []) with
  | [] =>
      last_word st' = last_word st ∧
      existsb is_ordering_violation (errors st')
      = existsb is_ordering_violation (errors st)
  | c :: s =>
      last_word st' = Some (c :: s) ∧
      existsb is_ordering_violation (errors st')
      = existsb is_ordering_violation (errors st)
        || match last_word st with
           | Some last => py_lt (c :: s) last
           | None => false
           end
  end.
Proof.
  unfold check_row.
  intros (number_of_letters & _ & (lex_rank & _ & [= <-])%bind_Ok)%bind_Ok.
  destruct (strip U (get_or r "normalized_word" [])) as [|c s]; cbn [last_word errors].
  - split; [done|]. destruct (last_word st);
      by rewrite existsb_append_if, existsb_app, !andb_false_r, !orb_false_r.
  - split; [done|]. destruct (last_word st) as [last|];
      rewrite !existsb_append_if; cbn [is_ordering_violation];
      by rewrite ?andb_false_r, ?andb_true_r, ?orb_false_r.
Qed.

Lemma check_rows_ordering U idx rows st st' :
  check_rows U idx rows st = Ok st' →
  existsb is_ordering_violation (errors st')
  = existsb is_ordering_violation (errors st)
    || descends (last_word st) (walked_keys U rows).
Proof.
  revert idx st. induction rows as [|r rows IH]; intros idx st; simpl.
  - intros [= <-]. by rewrite orb_false_r.
  - intros (st1 & H1%check_row_ordering & H2%IH)%bind_Ok. rewrite H2.
    destruct (strip U (get_or r "normalized_word" [])) as [|c s].
    + destruct H1 as [-> ->]. done.
    + destruct H1 as [-> ->]. simpl. by rewrite orb_assoc.
Qed.

Lemma descends_Sorted last ks :
  descends (Some last) ks = false ↔ Sorted str_le (last :: ks).
Proof.
  revert last. induction ks as [|k ks IH]; intros last; simpl.
  - split; [by repeat constructor | done].
  - rewrite orb_false_iff, IH, py_lt_false. split.
    + intros [Hle Hks]. constructor; [done | constructor; exact Hle].
    + intros [Hks Hle]%Sorted_inv. split; [by inv Hle | done].
Qed.

Lemma descends_None_Sorted ks : descends None ks = false ↔ Sorted str_le ks.
Proof.
  destruct ks as [|k ks]; simpl.
  - split; [constructor | done].
  - apply descends_Sorted.
Qed.

Lemma walked_keys_all U rows :
  Forall (λ k, k ≠ []) (map (λ r : row, strip U (get_or r "normalized_word" [])) rows) →
  walked_keys U rows = map (λ r : row, strip U (get_or r "normalized_word" [])) rows.
Proof.
  induction rows as [|r rows IH]; simpl; [done|]. intros [Hr Hrows]%Forall_cons.
  rewrite IH by done. by destruct (strip U (get_or r "normalized_word" [])).
Qed.

Lemma spec_keys_in_rank_order U rows :
  file_in_rank_order U rows →
  spec_keys_by_lex_rank U rows
  = Ok (map (λ r : row, strip U (get_or r "normalized_word" [])) rows).
Proof.
  intros (l & Hl & Hsorted). unfold spec_keys_by_lex_rank, sorted.
  rewrite Hl. cbn [mbind result_bind]. rewrite sort_by_key_id by done.
  by apply decorate_Ok in Hl as [-> _].
Qed.

Lemma ordering_violation_walked U rows errs :
  violations U rows = Ok errs →
  existsb is_ordering_violation errs = true ↔ ¬ Sorted str_le (walked_keys U rows).
Proof.
  unfold violations. intros (st & Hst%check_rows_ordering & [= <-])%bind_Ok.
  rewrite existsb_append_if, andb_false_r, orb_false_r, Hst. simpl.
  rewrite <- descends_None_Sorted. by destruct (descends None _).
Qed.

(** C3, as the code has it. The verifier walks the rows in the order of the
    file, whatever their [lex_rank], and skips the rows without a key: it
    reports an ordering violation exactly when the non-empty keys, in file
    order, are not non-decreasing in the order of code points. When the
    file is in ascending order of [lex_rank] and every row has a key, these
    are the keys in ascending order of [lex_rank]. *)
Theorem ordering_violation_iff U rows errs :
  violations U rows = Ok errs →
  (existsb is_ordering_violation errs = true
   ↔ ¬ Sorted str_le (walked_keys U rows)) ∧
  (∀ ks,
     file_in_rank_order U rows →
     spec_keys_by_lex_rank U rows = Ok ks →
     Forall (λ k, k ≠ []) ks →
     existsb is_ordering_violation errs = true ↔ ¬ Sorted str_le ks).
Proof.
  intros Herrs. split; [by apply ordering_violation_walked|].
  intros ks Horder Hks Hall. rewrite (spec_keys_in_rank_order _ _ Horder) in Hks.
  injection Hks as <-. rewrite <- (walked_keys_all U rows) by done.
  by apply ordering_violation_walked.
Qed.

Lemma ordering_violation_iff_witness :
  (existsb is_ordering_violation [ordering_violation 2 (py "a") (py "b")] = true
   ↔ ¬ Sorted str_le (walked_keys latin1 table_ba)) ∧
  (∀ ks,
     file_in_rank_order latin1 table_ba →
     spec_keys_by_lex_rank latin1 table_ba = Ok ks →
     Forall (λ k, k ≠ []) ks →
     existsb is_ordering_violation [ordering_violation 2 (py "a") (py "b")] = true
     ↔ ¬ Sorted str_le ks).
Proof. apply (ordering_violation_iff latin1 table_ba). by_evaluation. Defined.

(** The file that the Rank Assigner writes for the two rows is in rank
    order, and the verifier finds nothing in it. *)
Lemma table_ranked_in_rank_order :
  ranked_csv latin1 [row_b; row_a] = Ok table_ranked ∧
  file_in_rank_order latin1 table_ranked ∧
  spec_keys_by_lex_rank latin1 table_ranked = Ok [py "a"; py "b"] ∧
  violations latin1 table_ranked = Ok [] ∧
  sanity_check_ranked.main latin1 table_ranked = Ok 0%Z.
Proof.
  split_and!; try by_evaluation.
  exists (zip [1%Z; 2%Z] table_ranked). split; [by_evaluation|].
  repeat constructor. intros H. vm_compute in H. done.
Qed.

(** C3, as the claim has it, fails in both directions. In [table_ba] the
    keys in ascending order of [lex_rank] are non-decreasing, and the
    verifier reports an ordering violation; in [table_ab] they are not, and
    the verifier reports nothing and returns 0. *)
Lemma verifier_walks_file_order :
  (violations latin1 table_ba = Ok [ordering_violation 2 (py "a") (py "b")] ∧
   spec_keys_by_lex_rank latin1 table_ba = Ok [py "a"; py "b"] ∧
   Sorted str_le [py "a"; py "b"]) ∧
  (violations latin1 table_ab = Ok [] ∧
   sanity_check_ranked.main latin1 table_ab = Ok 0%Z ∧
   spec_keys_by_lex_rank latin1 table_ab = Ok [py "b"; py "a"] ∧
   ¬ Sorted str_le [py "b"; py "a"]).
Proof.
  split_and!; try (vm_compute; reflexivity).
  - repeat constructor. intros H. vm_compute in H. by destruct H as [?|[? ?]].
  - intros [_ Hle%HdRel_inv]%Sorted_inv. apply Hle. vm_compute. by left.
Qed.

(** * Further results *)

(** ** [str] and [int] *)

Lemma py_string_of_uint d : py (NilEmpty.string_of_uint d) = uint_codes d.
Proof. unfold py. induction d; csimpl; [done | by rewrite IHd..]. Qed.

Lemma scan_digits_digit prev_us acc n c s :
  48 ≤ c ≤ 57 →
  scan_digits prev_us acc n (c :: s)
  = scan_digits false (10 * acc + Z.of_N (c - 48)) (S n) s.
Proof.
  intros [Hlo Hhi]. cbn [scan_digits]. unfold ascii_digit.
  by rewrite (proj2 (N.leb_le _ _) Hlo), (proj2 (N.leb_le _ _) Hhi).
Qed.

Lemma scan_digits_codes d acc n :
  scan_digits false acc n (uint_codes d)
  = Some (digits_value acc d, (n + Decimal.nb_digits d)%nat, []).
Proof.
  revert acc n. induction d as [|d IH|d IH|d IH|d IH|d IH|d IH|d IH|d IH|d IH|d IH];
    intros acc n; cbn [uint_codes digits_value Decimal.nb_digits];
    [by rewrite Nat.add_0_r|..];
    rewrite scan_digits_digit by lia; simpl (Z.of_N _);
    rewrite IH, Nat.add_succ_r; reflexivity.
Qed.

Lemma digits_value_acc d (acc : positive) :
  digits_value (Z.pos acc) d = Z.pos (Pos.of_uint_acc d acc).
Proof.
  revert acc. induction d as [|d IH|d IH|d IH|d IH|d IH|d IH|d IH|d IH|d IH|d IH];
    intros acc; cbn [digits_value Pos.of_uint_acc]; [done|..];
    rewrite <- IH; f_equal; lia.
Qed.

Lemma digits_value_of_uint d : digits_value 0 d = Z.of_N (Pos.of_uint d).
Proof.
  induction d as [|d IH|d IH|d IH|d IH|d IH|d IH|d IH|d IH|d IH|d IH];
    cbn [digits_value Pos.of_uint Z.of_N]; [done | exact IH |..];
    rewrite <- digits_value_acc; done.
Qed.

Lemma digits_value_to_uint p : digits_value 0 (Pos.to_uint p) = Z.pos p.
Proof. by rewrite digits_value_of_uint, DecimalPos.Unsigned.of_to. Qed.

Lemma digits_value_bounds acc d :
  (0 ≤ acc →
   acc * 10 ^ Z.of_nat (Decimal.nb_digits d) ≤ digits_value acc d
   < (acc + 1) * 10 ^ Z.of_nat (Decimal.nb_digits d))%Z.
Proof.
  revert acc. induction d as [|d IH|d IH|d IH|d IH|d IH|d IH|d IH|d IH|d IH|d IH];
    intros acc Hacc; cbn [digits_value Decimal.nb_digits];
    [simpl; lia|..];
    rewrite Nat2Z.inj_succ, Z.pow_succ_r by lia;
    (match goal with |- (_ ≤ digits_value ?a _ < _)%Z => specialize (IH a) end);
    pose proof (Z.pow_pos_nonneg 10 (Z.of_nat (Decimal.nb_digits d))); nia.
Qed.

(** A numeral without leading zeros has at most as many digits as any
    numeral of the same number. *)
Lemma to_uint_not_D0 p u : Pos.to_uint p ≠ Decimal.D0 u.
Proof.
  intros Hd. pose proof (DecimalPos.Unsigned.of_to p) as Hof.
  pose proof (DecimalPos.Unsigned.to_of (Pos.to_uint p)) as Hto.
  rewrite Hof in Hto. cbn [N.to_uint] in Hto. rewrite Hd in Hto.
  rewrite DecimalFacts.unorm_D0 in Hto.
  assert (u = Decimal.Nil ∨ u ≠ Decimal.Nil) as [->|Hu]
    by (destruct u; (by left) || (by right)).
  - by apply (DecimalPos.Unsigned.to_uint_nonzero p).
  - pose proof (DecimalFacts.nb_digits_unorm u Hu) as Hnb.
    rewrite <- Hto in Hnb. cbn [Decimal.nb_digits] in Hnb. lia.
Qed.

Lemma to_uint_lower p :
  (10 ^ (Z.of_nat (Decimal.nb_digits (Pos.to_uint p)) - 1) ≤ Z.pos p)%Z.
Proof.
  rewrite <- (digits_value_to_uint p).
  pose proof (DecimalPos.Unsigned.to_uint_nonnil p) as Hnil.
  pose proof (to_uint_not_D0 p) as H0.
  destruct (Pos.to_uint p) as [|u|u|u|u|u|u|u|u|u|u]; [done | by destruct (H0 u) |..];
    cbn [digits_value Decimal.nb_digits];
    (match goal with |- (_ ≤ digits_value ?a _)%Z =>
       pose proof (digits_value_bounds a u) end);
    rewrite Nat2Z.inj_succ;
    replace (Z.succ (Z.of_nat (Decimal.nb_digits u)) - 1)%Z
      with (Z.of_nat (Decimal.nb_digits u)) by lia;
    pose proof (Z.pow_pos_nonneg 10 (Z.of_nat (Decimal.nb_digits u))); nia.
Qed.

Lemma to_uint_nb_digits p (n : nat) :
  (Z.pos p < 10 ^ Z.of_nat n)%Z → (Decimal.nb_digits (Pos.to_uint p) ≤ n)%nat.
Proof.
  intros Hp. pose proof (to_uint_lower p) as Hlow.
  destruct (decide (Decimal.nb_digits (Pos.to_uint p) ≤ n)%nat) as [|Hgt]; [done|].
  exfalso. apply (Z.lt_irrefl (Z.pos p)). eapply Z.lt_le_trans; [done|].
  etrans; [|done]. apply Z.pow_le_mono_r; lia.
Qed.

Lemma to_ascii_decimal_codes U d : to_ascii_decimal U <$> uint_codes d = uint_codes d.
Proof. induction d; csimpl; [done | by rewrite IHd..]. Qed.

Lemma int_uint_codes U d :
  d ≠ Decimal.Nil →
  ¬ (640 < Decimal.nb_digits d ∧ 0 < int_max_str_digits U
     ∧ int_max_str_digits U < Decimal.nb_digits d)%nat →
  int U (uint_codes d) = Ok (digits_value 0 d) ∧
  int U (45 :: uint_codes d) = Ok (- digits_value 0 d)%Z.
Proof.
  intros Hnil Hlimit. unfold int. rewrite fmap_cons, to_ascii_decimal_codes.
  pose proof (scan_digits_codes d 0 0) as Hscan.
  destruct d as [|u|u|u|u|u|u|u|u|u|u]; [done|..];
    cbn [uint_codes Decimal.nb_digits] in *;
    cbn -[scan_digits digits_value]; rewrite Hscan;
    rewrite !bool_decide_eq_false_2 by (done || lia);
    cbn [skip_ascii_space]; split; f_equal; lia.
Qed.

Lemma str_of_int_pos p : str_of_int (Z.pos p) = uint_codes (Pos.to_uint p).
Proof.
  unfold str_of_int. cbn [Z.to_int NilZero.string_of_int]. unfold NilZero.string_of_uint.
  pose proof (DecimalPos.Unsigned.to_uint_nonnil p) as Hnil.
  rewrite <- py_string_of_uint. by destruct (Pos.to_uint p).
Qed.

Lemma str_of_int_neg p : str_of_int (Z.neg p) = 45 :: uint_codes (Pos.to_uint p).
Proof.
  unfold str_of_int. cbn [Z.to_int NilZero.string_of_int]. unfold NilZero.string_of_uint.
  pose proof (DecimalPos.Unsigned.to_uint_nonnil p) as Hnil.
  rewrite <- py_string_of_uint. by destruct (Pos.to_uint p).
Qed.

Lemma within_digit_limit_nb_digits U p :
  within_digit_limit U (Z.pos p) ∨ within_digit_limit U (Z.neg p) →
  ¬ (640 < Decimal.nb_digits (Pos.to_uint p) ∧ 0 < int_max_str_digits U
     ∧ int_max_str_digits U < Decimal.nb_digits (Pos.to_uint p))%nat.
Proof.
  intros Hlimit (Hbig & Hon & Hover).
  assert (Z.pos p < 10 ^ Z.of_nat 640 ∨ int_max_str_digits U = 0%nat
          ∨ Z.pos p < 10 ^ Z.of_nat (int_max_str_digits U))%Z as [Hp|[?|Hp]]
    by (destruct Hlimit as [H|H]; exact H); [|lia|];
    apply to_uint_nb_digits in Hp; lia.
Qed.

Lemma int_str_of_int U z : within_digit_limit U z → int U (str_of_int z) = Ok z.
Proof.
  destruct z as [|p|p]; intros Hlimit; [done|..].
  - rewrite str_of_int_pos.
    destruct (int_uint_codes U (Pos.to_uint p)) as [-> _];
      [apply DecimalPos.Unsigned.to_uint_nonnil
      |apply within_digit_limit_nb_digits; by left|].
    by rewrite digits_value_to_uint.
  - rewrite str_of_int_neg.
    destruct (int_uint_codes U (Pos.to_uint p)) as [_ ->];
      [apply DecimalPos.Unsigned.to_uint_nonnil
      |apply within_digit_limit_nb_digits; by right|].
    by rewrite digits_value_to_uint.
Qed.

Lemma ascii_digit_range c d : ascii_digit c = Some d → (0 ≤ d ≤ 9)%Z.
Proof.
  unfold ascii_digit. case_match eqn:Hc; [|done]. intros [= <-].
  apply andb_true_iff in Hc as [?%N.leb_le ?%N.leb_le]. lia.
Qed.

Lemma scan_digits_bound prev_us acc k s v n rest :
  scan_digits prev_us acc k s = Some (v, n, rest) →
  (0 ≤ acc < 10 ^ Z.of_nat k)%Z → (0 ≤ v < 10 ^ Z.of_nat n)%Z.
Proof.
  revert prev_us acc k. induction s as [|c s IH]; intros prev_us acc k; cbn [scan_digits].
  - destruct prev_us; [done|]. by intros [= <- <- <-].
  - destruct (ascii_digit c) as [d|] eqn:Hd.
    + intros Hscan Hacc. apply (IH _ _ _ Hscan). apply ascii_digit_range in Hd.
      rewrite Nat2Z.inj_succ, Z.pow_succ_r by lia. lia.
    + destruct (c =? 95), prev_us; try done.
      * apply IH.
      * by intros [= <- <- <-].
Qed.

(** What [int] has accepted is within the limit. *)
Lemma int_Ok_within_limit U s z : int U s = Ok z → within_digit_limit U z.
Proof.
  unfold int.
  destruct (match skip_ascii_space (to_ascii_decimal U <$> s) with
            | 43 :: s' => (1%Z, s')
            | 45 :: s' => ((-1)%Z, s')
            | _ => (1%Z, skip_ascii_space (to_ascii_decimal U <$> s))
            end) as [sign s2] eqn:Hsign.
  assert (sign = 1 ∨ sign = -1)%Z as Hs by (repeat case_match; simplify_eq; auto).
  clear Hsign. intros Hz.
  assert (match scan_digits false 0 0 s2 with
          | None => Raise ValueError
          | Some (v, digits, rest) =>
              if bool_decide (640 < digits ∧ 0 < int_max_str_digits U
                              ∧ int_max_str_digits U < digits)%nat
              then Raise ValueError
              else if bool_decide (digits = 0%nat) then Raise ValueError
              else match skip_ascii_space rest with
                   | [] => Ok (sign * v)%Z
                   | _ :: _ => Raise ValueError
                   end
          end = Ok z) as Hinner by (repeat case_match; simplify_eq; done).
  clear Hz. destruct (scan_digits false 0 0 s2) as [[[v n] rest]|] eqn:Hscan; [|done].
  apply scan_digits_bound in Hscan; [|simpl; lia].
  case_bool_decide as Hlimit; [done|]. case_bool_decide; [done|].
  destruct (skip_ascii_space rest); [|done]. injection Hinner as <-.
  unfold within_digit_limit.
  assert (Z.abs (sign * v) = v) as -> by (destruct Hs as [-> | ->]; lia).
  destruct (decide (n ≤ 640)%nat) as [Hn|Hn].
  - left. eapply Z.lt_le_trans; [apply Hscan|].
    change 640%Z with (Z.of_nat 640). apply Z.pow_le_mono_r; lia.
  - destruct (decide (int_max_str_digits U = 0%nat)) as [|Hmax]; [by right; left|].
    right; right. eapply Z.lt_le_trans; [apply Hscan|]. apply Z.pow_le_mono_r; lia.
Qed.

Lemma int_reparse U s z : int U s = Ok z → int U (str_of_int z) = Ok z.
Proof. intros Hz. by apply int_str_of_int, (int_Ok_within_limit U s). Qed.

(** ** [clean_whitespace] *)

Section whitespace.
Context (U : Unicode).
Implicit Types (s t : pystr) (c : N).

Lemma collapsed_weaken prev_space s : collapsed U prev_space s → collapsed U false s.
Proof.
  destruct s as [|c s]; simpl; [done|].
  destruct (isspace U c); [by intros (? & _ & ?) | done].
Qed.

Lemma collapsed_sub_whitespace in_run text :
  collapsed U in_run (sub_whitespace U in_run text).
Proof.
  revert in_run. induction text as [|c text IH]; intros in_run; simpl; [done|].
  destruct (isspace U c) eqn:Hc.
  - destruct in_run; [apply IH|]. simpl.
    destruct (isspace U 32); [by split_and! | by eapply collapsed_weaken].
  - simpl. rewrite Hc. apply IH.
Qed.

Lemma sub_whitespace_collapsed in_run s :
  collapsed U in_run s → sub_whitespace U in_run s = s.
Proof.
  revert in_run. induction s as [|c s IH]; intros in_run; simpl; [done|].
  destruct (isspace U c).
  - intros (-> & -> & Hs). by rewrite IH.
  - intros Hs. by rewrite IH.
Qed.

Lemma collapsed_app_l prev_space s t :
  collapsed U prev_space (s ++ t) → collapsed U prev_space s.
Proof.
  revert prev_space. induction s as [|c s IH]; intros prev_space; simpl; [done|].
  destruct (isspace U c); [intros (? & ? & ?); split_and!; eauto | apply IH].
Qed.

Lemma collapsed_lstrip prev_space s :
  collapsed U prev_space s → collapsed U false (lstrip U s).
Proof.
  revert prev_space. induction s as [|c s IH]; intros prev_space; simpl; [done|].
  destruct (isspace U c) eqn:Hc.
  - intros (_ & _ & Hs). by eapply IH.
  - intros Hs. simpl. by rewrite Hc.
Qed.

Lemma lstrip_head s c s' : lstrip U s = c :: s' → isspace U c = false.
Proof.
  induction s as [|c0 s IH]; simpl; [done|].
  destruct (isspace U c0) eqn:Hc; [done|]. by intros [= <- <-].
Qed.

Lemma lstrip_id s : (∀ c s', s = c :: s' → isspace U c = false) → lstrip U s = s.
Proof. destruct s as [|c s]; simpl; [done|]. intros H. by rewrite (H c s). Qed.

Lemma rstrip_snoc s c :
  rstrip U (s ++ [c]) = if isspace U c then rstrip U s else s ++ [c].
Proof.
  unfold rstrip. rewrite rev_app_distr. simpl. destruct (isspace U c); [done|].
  simpl. by rewrite rev_involutive.
Qed.

Lemma rstrip_prefix s : ∃ t, s = rstrip U s ++ t.
Proof.
  induction s as [|c s IH] using rev_ind; [by exists []|].
  rewrite rstrip_snoc. destruct (isspace U c); [|by exists []; rewrite app_nil_r].
  destruct IH as [t Ht]. exists (t ++ [c]). by rewrite app_assoc, <- Ht.
Qed.

Lemma rstrip_last s c s' : rstrip U s = s' ++ [c] → isspace U c = false.
Proof.
  induction s as [|c0 s IH] using rev_ind; [by destruct s'|].
  rewrite rstrip_snoc. destruct (isspace U c0) eqn:Hc; [done|].
  by intros [<- <-]%app_inj_tail.
Qed.

Lemma rstrip_id s : (∀ c s', s = s' ++ [c] → isspace U c = false) → rstrip U s = s.
Proof.
  destruct s as [|c s _] using rev_ind; [done|]. intros H.
  by rewrite rstrip_snoc, (H c s).
Qed.

Lemma strip_trimmed s : trimmed U (strip U s).
Proof.
  unfold strip. split.
  - intros c s' Hs. destruct (rstrip_prefix (lstrip U s)) as [t Ht].
    rewrite Hs in Ht. by eapply lstrip_head.
  - intros c s' Hs. by eapply rstrip_last.
Qed.

Lemma strip_id s : trimmed U s → strip U s = s.
Proof. intros [Hhead Hlast]. unfold strip. by rewrite lstrip_id, rstrip_id. Qed.

Lemma collapsed_strip prev_space s : collapsed U prev_space s → collapsed U false (strip U s).
Proof.
  intros Hs%collapsed_lstrip. unfold strip.
  destruct (rstrip_prefix (lstrip U s)) as [t Ht]. rewrite Ht in Hs.
  by eapply collapsed_app_l.
Qed.

Lemma clean_whitespace_collapsed text :
  collapsed U false (clean_whitespace U text) ∧ trimmed U (clean_whitespace U text).
Proof.
  unfold clean_whitespace. split; [|apply strip_trimmed].
  eapply collapsed_strip, collapsed_sub_whitespace.
Qed.

Lemma clean_whitespace_id s :
  collapsed U false s → trimmed U s → clean_whitespace U s = s.
Proof.
  intros Hs Ht. unfold clean_whitespace.
  by rewrite sub_whitespace_collapsed, strip_id.
Qed.

Lemma clean_whitespace_twice text :
  clean_whitespace U (clean_whitespace U text) = clean_whitespace U text.
Proof. apply clean_whitespace_id; apply clean_whitespace_collapsed. Qed.

(** Text without spaces is clean. *)
Lemma no_space_collapsed s :
  Forall (λ c, isspace U c = false) s → collapsed U false s ∧ trimmed U s.
Proof.
  intros Hs. split.
  - induction Hs as [|c s Hc _ IH]; simpl; [done|]. by rewrite Hc.
  - split; intros c s' ->.
    + by apply Forall_cons in Hs as [? _].
    + by apply Forall_app in Hs as [_ [? _]%Forall_cons].
Qed.
End whitespace.

(** X1. [clean_whitespace] gives text in which every space is a single
    [' '] between two other characters, and it leaves such text as it is:
    applied twice it gives what it gives applied once, and [strip()] of its
    result is the result. *)
Theorem clean_whitespace_idempotent U text :
  clean_whitespace U (clean_whitespace U text) = clean_whitespace U text ∧
  strip U (clean_whitespace U text) = clean_whitespace U text ∧
  collapsed U false (clean_whitespace U text) ∧
  trimmed U (clean_whitespace U text).
Proof.
  split_and!.
  - apply clean_whitespace_twice.
  - apply strip_id, clean_whitespace_collapsed.
  - apply clean_whitespace_collapsed.
  - apply clean_whitespace_collapsed.
Qed.

(** ** [normalize_word] on canonical keys *)

Lemma filter_all {A} (f : A → bool) (l : list A) :
  Forall (λ x, f x = true) l → List.filter f l = l.
Proof. induction 1 as [|x l Hx _ IH]; simpl; [done|]. by rewrite Hx, IH. Qed.

Lemma normalize_word_letters_id U s :
  (∀ c, 97 ≤ c ≤ 122 → isspace U c = false) →
  lower U s = s →
  NFKD U s = s →
  lowercase_letters s →
  normalize_word U s = s.
Proof.
  intros Hspace Hlower Hnfkd Hs. unfold normalize_word.
  rewrite clean_whitespace_id, Hlower, Hnfkd.
  - unfold encode_ascii_ignore. rewrite (filter_all (λ ch, ch <? 128)).
    + apply filter_all. eapply Forall_impl; [done|]. intros c [??]; simpl.
      apply andb_true_iff. split; by apply N.leb_le.
    + eapply Forall_impl; [done|]. intros c [??]; simpl. apply N.ltb_lt. lia.
  - apply no_space_collapsed. eapply Forall_impl; [done|]. intros c. apply Hspace.
  - apply no_space_collapsed. eapply Forall_impl; [done|]. intros c. apply Hspace.
Qed.

(** X2. A canonical key is its own canonical key: when the character data
    leave the letters a-z alone (they are no spaces, and a text of them is
    its own lower case and its own NFKD form), [normalize_word] applied to
    its result gives the result again. *)
Theorem normalize_word_idempotent U raw_word :
  (∀ c, 97 ≤ c ≤ 122 → isspace U c = false) →
  (∀ s, lowercase_letters s → lower U s = s) →
  (∀ s, lowercase_letters s → NFKD U s = s) →
  normalize_word U (normalize_word U raw_word) = normalize_word U raw_word.
Proof.
  intros Hspace Hlower Hnfkd.
  pose proof (normalize_word_letters U raw_word) as Hletters.
  apply normalize_word_letters_id; auto.
Qed.

Lemma latin1_isspace_letter c : 97 ≤ c ≤ 122 → isspace latin1 c = false.
Proof.
  intros [Hlo Hhi]. cbn [isspace latin1]. unfold latin1_isspace.
  rewrite (proj2 (N.leb_gt c 13)), (proj2 (N.leb_gt c 32)) by lia.
  rewrite (proj2 (N.eqb_neq c 133)), (proj2 (N.eqb_neq c 160)) by lia.
  by rewrite !andb_false_r.
Qed.

Lemma latin1_lower_letters s : lowercase_letters s → lower latin1 s = s.
Proof.
  cbn [lower latin1]. induction 1 as [|c s [Hlo Hhi] _ IH]; simpl; [done|].
  rewrite IH. f_equal. unfold latin1_lower_char.
  rewrite (proj2 (N.leb_gt c 90)), (proj2 (N.leb_gt 192 c)) by lia.
  by rewrite !andb_false_r.
Qed.

Lemma assoc_below c table :
  Forall (λ kv, c < kv.1) table → assoc c table = None.
Proof.
  induction 1 as [|[k v] table Hk _ IH]; simpl; [done|].
  simpl in Hk. by rewrite (proj2 (N.eqb_neq c k)) by lia.
Qed.

Lemma latin1_NFKD_letters s : lowercase_letters s → NFKD latin1 s = s.
Proof.
  cbn [NFKD latin1].
  induction 1 as [|c s [Hlo Hhi] _ IH]; [done|].
  change (latin1_NFKD (c :: s))
    with (default [c] (assoc c latin1_decompositions) ++ latin1_NFKD s).
  rewrite IH, assoc_below; [done|].
  unfold latin1_decompositions. repeat (constructor; [simpl; lia|]). constructor.
Qed.

Lemma normalize_word_idempotent_witness :
  normalize_word latin1 (normalize_word latin1 cafe_raw) = normalize_word latin1 cafe_raw.
Proof.
  apply (normalize_word_idempotent latin1 cafe_raw).
  - apply latin1_isspace_letter.
  - apply latin1_lower_letters.
  - apply latin1_NFKD_letters.
Defined.


(** ** The entries of the Normalizer *)

Lemma normalize_row_well_formed U acc r acc' :
  normalize_row U acc r = Ok acc' →
  Forall (well_formed_entry U) (normalized_entries acc) →
  Forall (well_formed_entry U) (normalized_entries acc').
Proof.
  unfold normalize_row. intros Hrow Hacc.
  destruct (int U (get_or r "entry_index" (py "0"))) as [i|] eqn:Hi; [|done].
  simpl in Hrow.
  destruct (normalize_word U (get r "word" [])) as [|c s] eqn:Hword.
  { by injection Hrow as <-. }
  destruct (existsb _ (c :: s)).
  { by injection Hrow as <-. }
  injection Hrow as <-. cbn [normalized_entries].
  apply Forall_app. split; [done|]. apply Forall_singleton.
  pose proof (normalize_word_letters U (get r "word" [])) as Hletters.
  rewrite Hword in Hletters.
  unfold well_formed_entry; cbn. split_and!; try done.
  - rewrite <- Hword. unfold normalize_word. by rewrite clean_whitespace_twice.
  - apply clean_whitespace_twice.
  - apply clean_whitespace_twice.
  - apply clean_whitespace_twice.
  - by eapply int_Ok_within_limit.
Qed.

Lemma normalize_rows_well_formed U raw_rows acc acc' :
  normalize_rows U raw_rows acc = Ok acc' →
  Forall (well_formed_entry U) (normalized_entries acc) →
  Forall (well_formed_entry U) (normalized_entries acc').
Proof.
  revert acc. induction raw_rows as [|r raw_rows IH]; intros acc Hrows Hacc; simpl in Hrows.
  - by injection Hrows as <-.
  - apply bind_Ok in Hrows as (acc1 & Hrow & Hrows).
    eapply IH; [done|]. by eapply normalize_row_well_formed.
Qed.

Lemma main_normalized_well_formed U do_dedupe raw_rows out :
  normalize_dictionary.main U do_dedupe raw_rows = Ok out →
  Forall (well_formed_entry U) (normalized_entries (stats out)).
Proof.
  intros Hmain. apply main_stats in Hmain.
  eapply normalize_rows_well_formed; [done|]. constructor.
Qed.

(** ** The entries that deduplication keeps *)

Lemma first_occurrences_snoc ks k :
  first_occurrences (ks ++ [k])
  = if decide (k ∈ ks) then first_occurrences ks else first_occurrences ks ++ [k].
Proof.
  induction ks as [|a ks IH]; cbn [first_occurrences app].
  - rewrite decide_False by apply not_elem_of_nil. done.
  - rewrite IH. destruct (decide (k ∈ ks)) as [Hin|Hin].
    + rewrite decide_True by (by right). done.
    + rewrite filter_app, filter_cons, filter_nil.
      destruct (decide (k ≠ a)) as [Hne|Heq].
      * rewrite decide_False; [done|]. by intros [->|?]%elem_of_cons.
      * apply dec_stable in Heq as ->.
        rewrite decide_True by left. by rewrite app_nil_r.
Qed.

Lemma dict_get_elem_of {V} (d : list (pystr * V)) k v :
  NoDup d.*1 → (k, v) ∈ d → dict_get k d = Some v.
Proof.
  induction d as [|[k' v'] d IH]; csimpl; intros Hnodup Hin.
  - by apply elem_of_nil in Hin.
  - apply NoDup_cons in Hnodup as [Hk' Hnodup].
    apply elem_of_cons in Hin as [[= -> ->]|Hin].
    + by rewrite bool_decide_eq_true_2.
    + rewrite bool_decide_eq_false_2; [by apply IH|].
      intros ->. apply Hk'. apply list_elem_of_fmap. by exists (k, v).
Qed.

Lemma allocate_snoc entries e :
  allocate (entries ++ [e]) = allocate entries ++ [Obj (length entries) e].
Proof. unfold allocate. rewrite imap_app. simpl. by rewrite Nat.add_0_r. Qed.

Lemma survivor_snoc_other U entries e k o :
  normalized_word e ≠ k →
  survivor U entries k o → survivor U (entries ++ [e]) k o.
Proof.
  intros Hne (Hat & Hkey & Hmax). split_and!; [|done|].
  - by apply lookup_app_l_Some.
  - intros j e' Hj Hk. apply lookup_app_Some in Hj as [Hj|[_ Hj]]; [by apply Hmax|].
    apply list_lookup_singleton_Some in Hj as [_ <-]. done.
Qed.

Lemma survivor_snoc_first U entries e :
  normalized_word e ∉ normalized_word <$> entries →
  survivor U (entries ++ [e]) (normalized_word e) (Obj (length entries) e).
Proof.
  intros Hnew. split_and!; cbn [addr value]; [|done|].
  - by apply list_lookup_middle.
  - intros j e' Hj Hk. apply lookup_app_Some in Hj as [Hj|[Hlen Hj]].
    + destruct Hnew. rewrite <- Hk. apply list_elem_of_fmap. exists e'.
      split; [done|]. by eapply list_elem_of_lookup_2.
    + apply list_lookup_singleton_Some in Hj as [Hj <-]. lia.
Qed.

Lemma survivor_snoc_same U entries e o :
  survivor U entries (normalized_word e) o →
  survivor U (entries ++ [e]) (normalized_word e)
    (pick_better_definition U o (Obj (length entries) e)).
Proof.
  intros (Hat & Hkey & Hmax). unfold pick_better_definition. cbn [value].
  fold (definition_length U e). fold (definition_length U (value o)).
  destruct (Z.gtb_spec (definition_length U e) (definition_length U (value o)))
    as [Hlonger|Hnot].
  - split_and!; cbn [addr value]; [by apply list_lookup_middle|done|].
    intros j e' Hj Hk. apply lookup_app_Some in Hj as [Hj|[Hlen Hj]].
    + destruct (Hmax j e' Hj Hk) as [Hle _]. lia.
    + apply list_lookup_singleton_Some in Hj as [Hj <-]. lia.
  - split_and!; [by apply lookup_app_l_Some|done|].
    intros j e' Hj Hk. apply lookup_app_Some in Hj as [Hj|[Hlen Hj]].
    + by apply Hmax.
    + apply list_lookup_singleton_Some in Hj as [Hj <-].
      apply lookup_lt_Some in Hat. lia.
Qed.

Lemma dedupe_invariant U entries :
  NoDup (dedupe U (allocate entries)).1.*1 ∧
  (dedupe U (allocate entries)).1.*1 = first_occurrences (normalized_word <$> entries) ∧
  ∀ k, match dict_get k (dedupe U (allocate entries)).1 with
       | None => k ∉ normalized_word <$> entries
       | Some o => survivor U entries k o
       end.
Proof.
  split.
  { unfold dedupe. apply foldl_dedupe_step_count. constructor. }
  induction entries as [|e entries [IHkeys IH]] using rev_ind.
  { split; [done|]. intros k; simpl. apply not_elem_of_nil. }
  unfold dedupe in *. rewrite allocate_snoc, foldl_app. cbn [foldl].
  destruct (foldl (dedupe_step U) ([], []) (allocate entries)) as [kept colls].
  cbn [fst] in *. rewrite fmap_app.
  change (normalized_word <$> [e]) with [normalized_word e].
  rewrite first_occurrences_snoc.
  unfold dedupe_step. cbn [value normalized_word].
  pose proof (IH (normalized_word e)) as He.
  destruct (dict_get (normalized_word e) kept) as [existing|] eqn:Hget; cbn [fst].
  - rewrite (dict_set_old _ _ existing) by done. split.
    + rewrite decide_True; [done|]. destruct He as (Hat & Hkey & _).
      apply list_elem_of_fmap. exists (value existing). split; [done|].
      by eapply list_elem_of_lookup_2.
    + intros k. destruct (decide (normalized_word e = k)) as [<-|Hne].
      * rewrite dict_get_set_eq. by apply survivor_snoc_same.
      * rewrite dict_get_set_ne by done. specialize (IH k).
        destruct (dict_get k kept).
        -- by apply survivor_snoc_other.
        -- intros [?|Hin%list_elem_of_singleton]%elem_of_app; [done|].
           by destruct Hne.
  - rewrite dict_set_new by done. split.
    + rewrite decide_False by done. by rewrite IHkeys.
    + intros k. destruct (decide (normalized_word e = k)) as [<-|Hne].
      * rewrite dict_get_set_eq. by apply survivor_snoc_first.
      * rewrite dict_get_set_ne by done. specialize (IH k).
        destruct (dict_get k kept).
        -- by apply survivor_snoc_other.
        -- intros [?|Hin%list_elem_of_singleton]%elem_of_app; [done|].
           by destruct Hne.
Qed.

Lemma main_dedupe U raw_rows out :
  normalize_dictionary.main U true raw_rows = Ok out →
  final_entries out
  = value <$> dict_values (dedupe U (allocate (normalized_entries (stats out)))).1 ∧
  collisions out = (dedupe U (allocate (normalized_entries (stats out)))).2.
Proof.
  unfold normalize_dictionary.main. intros Hmain. apply bind_Ok in Hmain as (n & _ & Hmain).
  destruct (dedupe U (allocate (normalized_entries n))) as [kept colls] eqn:Hdedupe.
  injection Hmain as <-. cbn [final_entries collisions stats]. by rewrite Hdedupe.
Qed.

Lemma main_no_dedupe U raw_rows out :
  normalize_dictionary.main U false raw_rows = Ok out →
  final_entries out = normalized_entries (stats out) ∧ collisions out = [].
Proof.
  unfold normalize_dictionary.main. intros Hmain. apply bind_Ok in Hmain as (n & _ & Hmain).
  cbv beta iota in Hmain. injection Hmain as <-. split; reflexivity.
Qed.

Lemma final_entry_survivor U raw_rows out e :
  normalize_dictionary.main U true raw_rows = Ok out →
  e ∈ final_entries out →
  ∃ o, value o = e ∧ survivor U (normalized_entries (stats out)) (normalized_word e) o.
Proof.
  intros Hmain He. apply main_dedupe in Hmain as [Hfinal _].
  destruct (dedupe_invariant U (normalized_entries (stats out))) as (Hnodup & _ & Hinv).
  rewrite Hfinal in He. apply list_elem_of_fmap in He as (o & -> & Ho).
  apply list_elem_of_fmap in Ho as ([k o'] & -> & Hin). cbn [snd].
  apply (dict_get_elem_of _ _ _ Hnodup) in Hin.
  specialize (Hinv k). rewrite Hin in Hinv. exists o'. split; [done|].
  assert (normalized_word (value o') = k) as -> by apply Hinv. done.
Qed.

Lemma final_entry_normalized U do_dedupe raw_rows out e :
  normalize_dictionary.main U do_dedupe raw_rows = Ok out →
  e ∈ final_entries out → e ∈ normalized_entries (stats out).
Proof.
  intros Hmain He. destruct do_dedupe.
  - destruct (final_entry_survivor U raw_rows out e) as (o & <- & Hat & _); [done..|].
    by eapply list_elem_of_lookup_2.
  - apply main_no_dedupe in Hmain as [<- _]. done.
Qed.

Lemma main_final_well_formed U do_dedupe raw_rows out :
  normalize_dictionary.main U do_dedupe raw_rows = Ok out →
  Forall (well_formed_entry U) (final_entries out).
Proof.
  intros Hmain. apply Forall_forall. intros e He.
  eapply final_entry_normalized in He; [|done].
  apply main_normalized_well_formed in Hmain.
  by eapply Forall_forall in Hmain.
Qed.

Lemma main_dedupe_keys U raw_rows out :
  normalize_dictionary.main U true raw_rows = Ok out →
  normalized_word <$> final_entries out
  = first_occurrences (normalized_word <$> normalized_entries (stats out)).
Proof.
  intros Hmain. apply main_dedupe in Hmain as [-> _].
  destruct (dedupe_invariant U (normalized_entries (stats out))) as (Hnodup & <- & Hinv).
  unfold dict_values. rewrite <- !list_fmap_compose.
  apply Forall_fmap_ext_1, Forall_forall. intros [k o] Hin. cbn.
  apply (dict_get_elem_of _ _ _ Hnodup) in Hin.
  specialize (Hinv k). rewrite Hin in Hinv. by destruct Hinv as (? & ? & ?).
Qed.

Lemma first_occurrences_NoDup ks : NoDup (first_occurrences ks).
Proof.
  induction ks as [|k ks IH]; simpl; constructor.
  - intros [Hne _]%list_elem_of_filter. done.
  - by apply NoDup_filter.
Qed.

Lemma first_occurrences_elem_of ks k : k ∈ first_occurrences ks ↔ k ∈ ks.
Proof.
  induction ks as [|a ks IH]; simpl; [done|].
  rewrite !elem_of_cons, list_elem_of_filter, IH.
  destruct (decide (k = a)); tauto.
Qed.

(** X3. Every entry that the Normalizer keeps is well formed: its key is
    [normalize_word] of its word as written, not empty and made of the
    letters a-z, [first_letter] is the first letter of the key and
    [number_of_letters] the length of the key, the word, the part of speech
    and the definition are left as they are by [clean_whitespace], the
    etymology is empty, and [entry_index] is a number that [str] and [int]
    convert. With and without deduplication, the kept entries are among the
    entries of the first loop. *)
Theorem normalizer_entries_well_formed U do_dedupe raw_rows out :
  normalize_dictionary.main U do_dedupe raw_rows = Ok out →
  Forall (well_formed_entry U) (final_entries out) ∧
  (∀ e, e ∈ final_entries out → e ∈ normalized_entries (stats out)) ∧
  (do_dedupe = false → final_entries out = normalized_entries (stats out)).
Proof.
  intros Hmain. split_and!.
  - by eapply main_final_well_formed.
  - intros e. by eapply final_entry_normalized.
  - intros ->. by apply main_no_dedupe in Hmain as [? _].
Qed.

Lemma normalizer_entries_well_formed_witness :
  ∃ out,
    normalize_dictionary.main latin1 true (cafe_row :: run_rows) = Ok out ∧
    Forall (well_formed_entry latin1) (final_entries out) ∧
    (∀ e, e ∈ final_entries out → e ∈ normalized_entries (stats out)) ∧
    (true = false → final_entries out = normalized_entries (stats out)).
Proof.
  eexists. split; [vm_compute; reflexivity|].
  apply (normalizer_entries_well_formed latin1 true (cafe_row :: run_rows)).
  vm_compute; reflexivity.
Defined.

(** X4. With deduplication the Normalizer writes one entry for every key,
    in the order in which the keys first appear among the entries of the
    first loop: no two kept entries have the same key, and no key of the
    first loop is lost. *)
Theorem dedupe_one_entry_per_key U raw_rows out :
  normalize_dictionary.main U true raw_rows = Ok out →
  normalized_word <$> final_entries out
  = first_occurrences (normalized_word <$> normalized_entries (stats out)) ∧
  NoDup (normalized_word <$> final_entries out) ∧
  (∀ k, k ∈ normalized_word <$> final_entries out
        ↔ k ∈ normalized_word <$> normalized_entries (stats out)).
Proof.
  intros Hmain. rewrite (main_dedupe_keys U raw_rows out Hmain). split_and!.
  - done.
  - apply first_occurrences_NoDup.
  - intros k. apply first_occurrences_elem_of.
Qed.

Lemma dedupe_one_entry_per_key_witness :
  ∃ out,
    normalize_dictionary.main latin1 true (cafe_row :: run_rows) = Ok out ∧
    normalized_word <$> final_entries out
    = first_occurrences (normalized_word <$> normalized_entries (stats out)) ∧
    NoDup (normalized_word <$> final_entries out) ∧
    (∀ k, k ∈ normalized_word <$> final_entries out
          ↔ k ∈ normalized_word <$> normalized_entries (stats out)).
Proof.
  eexists. split; [vm_compute; reflexivity|].
  apply (dedupe_one_entry_per_key latin1 (cafe_row :: run_rows)).
  vm_compute; reflexivity.
Defined.

(** X5. With deduplication, the entry kept for a key is the first of the
    entries with that key whose definition, stripped, is longest: no entry
    of the first loop with the same key has a longer definition, and those
    before the kept one have a shorter one. *)
Theorem dedupe_keeps_first_longest U raw_rows out e :
  normalize_dictionary.main U true raw_rows = Ok out →
  e ∈ final_entries out →
  ∃ i, normalized_entries (stats out) !! i = Some e ∧
    ∀ j e', normalized_entries (stats out) !! j = Some e' →
      normalized_word e' = normalized_word e →
      (definition_length U e' ≤ definition_length U e)%Z ∧
      ((j < i)%nat → (definition_length U e' < definition_length U e)%Z).
Proof.
  intros Hmain He.
  destruct (final_entry_survivor U raw_rows out e Hmain He) as (o & <- & Hat & _ & Hmax).
  by exists (addr o).
Qed.

Lemma dedupe_keeps_first_longest_witness :
  ∃ out e,
    normalize_dictionary.main latin1 true (cafe_row :: run_rows) = Ok out ∧
    final_entries out !! 1%nat = Some e ∧
    word e = py "Run" ∧
    definition e = py "to move fast" ∧
    ∃ i, normalized_entries (stats out) !! i = Some e ∧
      ∀ j e', normalized_entries (stats out) !! j = Some e' →
        normalized_word e' = normalized_word e →
        (definition_length latin1 e' ≤ definition_length latin1 e)%Z ∧
        ((j < i)%nat → (definition_length latin1 e' < definition_length latin1 e)%Z).
Proof.
  eexists _, _. split; [vm_compute; reflexivity|].
  split; [reflexivity|]. split; [reflexivity|]. split; [reflexivity|].
  eapply (dedupe_keeps_first_longest latin1 (cafe_row :: run_rows)).
  - vm_compute; reflexivity.
  - in_list.
Defined.


(** ** The order of the Rank Assigner *)

Lemma sort_key_le_lexico (k1 k2 : pystr * pystr * pystr * Z) :
  ¬ lexico k2 k1 ↔ sort_key_le k1 k2.
Proof.
  destruct k1 as [[[n1 w1] s1] i1], k2 as [[[n2 w2] s2] i2].
  unfold sort_key_le, lexico at 1, prod_lexico; cbn [fst snd].
  unfold lexico at 1, prod_lexico; cbn [fst snd].
  unfold lexico at 1, prod_lexico; cbn [fst snd].
  unfold lexico at 4, Z_lexico.
  pose proof (trichotomy (@lexico pystr _) n1 n2) as Hn.
  pose proof (trichotomy (@lexico pystr _) w1 w2) as Hw.
  pose proof (trichotomy (@lexico pystr _) s1 s2) as Hs.
  pose proof (lexico_asym n1 n2). pose proof (lexico_asym n2 n1).
  pose proof (lexico_asym w1 w2). pose proof (lexico_asym w2 w1).
  pose proof (lexico_asym s1 s2). pose proof (lexico_asym s2 s1).
  pose proof (lexico_asym n1 n1). pose proof (lexico_asym n2 n2).
  pose proof (lexico_asym w1 w1). pose proof (lexico_asym w2 w2).
  pose proof (lexico_asym s1 s1). pose proof (lexico_asym s2 s2).
  assert ((i1 ≤ i2)%Z ↔ ¬ (i2 < i1)%Z) as -> by lia.
  split.
  - intros Hnot.
    destruct Hn as [?|[->|?]]; [by left| |tauto]. right; split; [done|].
    destruct Hw as [?|[->|?]]; [by left| |tauto]. right; split; [done|].
    destruct Hs as [?|[->|?]]; [by left| |destruct Hnot; left; right; done].
    right; split; [done|]. intros ?. destruct Hnot. right. done.
  - clear Hn Hw Hs. intros Hle Hlt.
    repeat (destruct_or!; destruct_and?; simplify_eq); tauto.
Qed.

Lemma decorate_perm {A K} (key : A → result K) (xs xs' : list A) l :
  xs ≡ₚ xs' → decorate key xs = Ok l → ∃ l', decorate key xs' = Ok l' ∧ l ≡ₚ l'.
Proof.
  intros Hperm. revert l.
  induction Hperm as [|x xs xs' _ IH|x y xs|xs xs' xs'' _ IH1 _ IH2]; intros l Hl.
  - by exists l.
  - simpl in Hl. apply bind_Ok in Hl as (k & Hk & Hl).
    apply bind_Ok in Hl as (kl & Hkl & [= <-]).
    destruct (IH kl Hkl) as (kl' & Hkl' & Hperm').
    exists ((k, x) :: kl'). simpl. rewrite Hk, Hkl'. split; [done|]. by constructor.
  - simpl in Hl. apply bind_Ok in Hl as (ky & Hky & Hl).
    apply bind_Ok in Hl as (kl & Hl & [= <-]).
    apply bind_Ok in Hl as (kx & Hkx & Hl).
    apply bind_Ok in Hl as (kl' & Hkl' & [= <-]).
    exists ((kx, x) :: (ky, y) :: kl'). simpl. rewrite Hkx, Hky, Hkl'.
    split; [done|]. constructor.
  - destruct (IH1 l Hl) as (l' & Hl' & Hperm1).
    destruct (IH2 l' Hl') as (l'' & Hl'' & Hperm2).
    exists l''. split; [done|]. by etrans.
Qed.

Section sorted_unique.
Context {A K : Type}.
Context `{Lexico K, !TrichotomyT (@lexico K _), !StrictOrder (@lexico K _)}.
Implicit Types (l : list (K * A)).

Lemma key_le_antisym (x y : K * A) : key_le x y → key_le y x → x.1 = y.1.
Proof.
  unfold key_le. intros Hxy Hyx.
  by destruct (trichotomy (@lexico K _) x.1 y.1) as [?|[?|?]].
Qed.

Lemma NoDup_keys_eq l x y : NoDup l.*1 → x ∈ l → y ∈ l → x.1 = y.1 → x = y.
Proof.
  intros Hnodup Hx Hy Hkey.
  apply list_elem_of_lookup in Hx as [i Hi], Hy as [j Hj].
  assert (i = j) as ->; [|congruence].
  eapply NoDup_lookup; [done|..]; rewrite list_lookup_fmap.
  - by rewrite Hi.
  - rewrite Hj. simpl. by rewrite Hkey.
Qed.

Lemma StronglySorted_key_le_unique l1 l2 :
  StronglySorted key_le l1 → StronglySorted key_le l2 →
  l1 ≡ₚ l2 → NoDup l1.*1 → l1 = l2.
Proof.
  intros Hsorted1. revert l2.
  induction Hsorted1 as [|x l1 _ IH Hx]; intros l2 Hsorted2 Hperm Hnodup.
  { by apply Permutation_nil in Hperm. }
  destruct Hsorted2 as [|y l2 Hsorted2 Hy].
  { symmetry in Hperm. by apply Permutation_nil in Hperm. }
  assert (∀ z : K * A, key_le z z) as Hrefl.
  { intros z Hz. by eapply lexico_asym. }
  assert (x.1 = y.1) as Hkey.
  { apply key_le_antisym.
    - assert (y ∈ x :: l1) as [->|Hy1]%elem_of_cons by (rewrite Hperm; left);
        [done|by eapply Forall_forall in Hx].
    - assert (x ∈ y :: l2) as [->|Hx2]%elem_of_cons by (rewrite <- Hperm; left);
        [done|by eapply Forall_forall in Hy]. }
  assert (x = y) as ->.
  { eapply (NoDup_keys_eq (x :: l1)); [done|left| |done]. rewrite Hperm. left. }
  f_equal. apply IH; [done| |].
  - by apply Permutation_cons_inv in Hperm.
  - csimpl in Hnodup. by apply NoDup_cons in Hnodup as [_ ?].
Qed.

Lemma filter_decorated `{!EqDecision K} (key : A → result K) (k : K) l :
  Forall (λ p, key p.2 = Ok p.1) l →
  filter (λ a, key a = Ok k) l.*2 = (filter (λ p, p.1 = k) l).*2.
Proof.
  induction 1 as [|[k' a] l Hkey _ IH]; [done|]. csimpl in *.
  rewrite !filter_cons, IH. cbn [fst snd]. rewrite Hkey.
  destruct (decide (k' = k)) as [->|Hne].
  - by rewrite decide_True.
  - rewrite decide_False; [done|]. by intros [= ?].
Qed.
End sorted_unique.

Lemma main_rows_sorted U rows ranked_rows :
  compute_lex_rank.main U rows = Ok ranked_rows →
  ∃ l,
    decorate (sort_key U) rows = Ok l ∧
    ranked_rows = imap (λ i r, with_lex_rank (Z.of_nat i + 1) r) (sort_by_key l).*2 ∧
    (sort_by_key l).*2 ≡ₚ rows ∧
    Forall2 (λ r k, sort_key U r = Ok k) (sort_by_key l).*2 (sort_by_key l).*1 ∧
    StronglySorted key_le (sort_by_key l).
Proof.
  intros Hmain. apply main_Ok in Hmain as (l & Hl & ->). exists l.
  split_and!; [done|done| | |].
  - apply decorate_Ok in Hl as [<- _]. by rewrite sort_by_key_perm.
  - apply decorate_Ok_keys in Hl. rewrite <- (sort_by_key_perm l) in Hl.
    induction Hl as [|[k r] l' Hk _ IH]; csimpl; by constructor.
  - apply sort_by_key_StronglySorted.
Qed.

Lemma StronglySorted_fst {A K} (R' : relation (K * A)) (R : relation K) l :
  (∀ x y, R' x y → R x.1 y.1) → StronglySorted R' l → StronglySorted R l.*1.
Proof.
  intros HR. induction 1 as [|x l _ IH Hx]; csimpl; constructor; [done|].
  apply Forall_fmap. eapply Forall_impl; [done|]. intros y. apply HR.
Qed.

(** X6. The Rank Assigner numbers the rows of its input, all of them and
    each once, in the order of the tuples
    [(normalized_word, word, source_file, entry_index)]: rows with the same
    key are ordered by the word, then by the source file, both compared as
    text, then by the entry index compared as a number; rows with the same
    tuple keep the order they have in the input. *)
Theorem rank_orders_by_tuple U rows ranked_rows :
  compute_lex_rank.main U rows = Ok ranked_rows →
  ∃ rows_sorted keys,
    ranked_rows = imap (λ i r, with_lex_rank (Z.of_nat i + 1) r) rows_sorted ∧
    rows_sorted ≡ₚ rows ∧
    Forall2 (λ r k, sort_key U r = Ok k) rows_sorted keys ∧
    StronglySorted sort_key_le keys ∧
    ∀ k, filter (λ r, sort_key U r = Ok k) rows_sorted
         = filter (λ r, sort_key U r = Ok k) rows.
Proof.
  intros Hmain.
  destruct (main_rows_sorted U rows ranked_rows Hmain)
    as (l & Hl & Hranked & Hperm & Hkeys & Hsorted).
  exists (sort_by_key l).*2, (sort_by_key l).*1. split_and!; try done.
  - eapply StronglySorted_fst; [|done].
    intros x y Hxy. by apply sort_key_le_lexico.
  - intros k. pose proof (decorate_Ok_keys _ _ _ Hl) as Hdec.
    rewrite filter_decorated.
    + rewrite sort_by_key_stable, <- (filter_decorated (sort_key U)) by done.
      by apply decorate_Ok in Hl as [-> _].
    + by rewrite sort_by_key_perm.
Qed.

Lemma rank_orders_by_tuple_witness :
  ∃ rows_sorted keys,
    [with_lex_rank 1 row_a; with_lex_rank 2 row_b]
    = imap (λ i r, with_lex_rank (Z.of_nat i + 1) r) rows_sorted ∧
    rows_sorted ≡ₚ [row_b; row_a] ∧
    Forall2 (λ r k, sort_key latin1 r = Ok k) rows_sorted keys ∧
    StronglySorted sort_key_le keys ∧
    ∀ k, filter (λ r, sort_key latin1 r = Ok k) rows_sorted
         = filter (λ r, sort_key latin1 r = Ok k) [row_b; row_a].
Proof.
  apply (rank_orders_by_tuple latin1 [row_b; row_a]). by_evaluation.
Defined.

(** X7. When no two rows have the same tuple
    [(normalized_word, word, source_file, entry_index)], the ranks do not
    depend on the order of the rows in the input: the Rank Assigner gives
    the same ranked rows for every rearrangement of the input. *)
Theorem rank_independent_of_input_order U rows rows' ranked_rows :
  compute_lex_rank.main U rows = Ok ranked_rows →
  NoDup (sort_key U <$> rows) →
  rows' ≡ₚ rows →
  compute_lex_rank.main U rows' = Ok ranked_rows.
Proof.
  intros Hmain Hnodup Hperm.
  apply main_Ok in Hmain as (l & Hl & ->).
  destruct (decorate_perm (sort_key U) rows rows' l) as (l' & Hl' & Hperm');
    [done..|].
  unfold compute_lex_rank.main, sorted. rewrite Hl'. simpl. do 3 f_equal.
  symmetry. apply StronglySorted_key_le_unique.
  - apply sort_by_key_StronglySorted.
  - apply sort_by_key_StronglySorted.
  - by rewrite !sort_by_key_perm.
  - rewrite sort_by_key_perm.
    pose proof (decorate_Ok_keys _ _ _ Hl) as Hkeys.
    apply decorate_Ok in Hl as [<- _].
    rewrite <- list_fmap_compose in Hnodup.
    apply (NoDup_fmap_1 Ok).
    rewrite <- list_fmap_compose.
    erewrite (Forall_fmap_ext_1 (Ok ∘ fst)); [done|].
    eapply Forall_impl; [done|]. by intros [k r]; simpl.
Qed.

Lemma rank_independent_of_input_order_witness :
  compute_lex_rank.main latin1 [row_a; row_b]
  = Ok [with_lex_rank 1 row_a; with_lex_rank 2 row_b].
Proof.
  apply (rank_independent_of_input_order latin1 [row_b; row_a]).
  - by_evaluation.
  - refine (bool_decide_eq_true_1 _ _). vm_compute. reflexivity.
  - apply perm_swap.
Defined.


(** ** What the verifier accepts *)

Lemma append_if_nil cond e errs : append_if cond e errs = [] ↔ cond = false ∧ errs = [].
Proof.
  unfold append_if. destruct cond.
  - split; [|by intros [? _]]. by intros [_ ?]%app_eq_nil.
  - split; [done|]. by intros [_ ?].
Qed.

Lemma existsb_no_other s :
  existsb (λ ch, (ch <? 97) || (122 <? ch)) s = false ↔ lowercase_letters s.
Proof.
  split; [|apply lowercase_letters_no_other].
  induction s as [|c s IH]; simpl; [by constructor|].
  intros [Hc Hs]%orb_false_iff. apply orb_false_iff in Hc as [Hlo Hhi].
  apply N.ltb_ge in Hlo, Hhi. constructor; [done|by apply IH].
Qed.

(** The state of the loop after a row whose numbers are [nl] and [z]. *)
Lemma check_row_Ok U idx r st nl z :
  int U (get_or r "number_of_letters" (py "0")) = Ok nl →
  int U (get_or r "lex_rank" (py "0")) = Ok z →
  ∃ st',
    check_row U idx r st = Ok st' ∧
    seen_ranks st' = {[ z ]} ∪ seen_ranks st ∧
    last_word st' =
      match strip U (get_or r "normalized_word" []) with
      | [] => last_word st
      | c :: s => Some (c :: s)
      end ∧
    (errors st' = [] ↔
     errors st = [] ∧
     strip U (get_or r "normalized_word" []) ≠ [] ∧
     lowercase_letters (strip U (get_or r "normalized_word" [])) ∧
     strip U (get_or r "first_letter" [])
       = take 1 (strip U (get_or r "normalized_word" [])) ∧
     nl = len (strip U (get_or r "normalized_word" [])) ∧
     (z ∉ seen_ranks st) ∧
     match last_word st with
     | Some last => py_lt (strip U (get_or r "normalized_word" [])) last = false
     | None => True
     end).
Proof.
  intros Hnl Hz. unfold check_row. rewrite Hnl, Hz.
  cbv beta iota delta [mbind result_bind].
  eexists. split; [reflexivity|]. cbn [seen_ranks last_word errors].
  split; [done|]. split; [by destruct (strip U (get_or r "normalized_word" []))|].
  destruct (strip U (get_or r "normalized_word" [])) as [|c s] eqn:Hnormalized.
  - split; [|by intros (_ & ? & _)].
    destruct (last_word st); rewrite append_if_nil; by intros [_ [_ ?]%app_eq_nil].
  - rewrite <- existsb_no_other. cbn [take].
    destruct (last_word st) as [last|]; rewrite !append_if_nil, !bool_decide_eq_false.
    + split.
      * intros (? & ? & ? & ?%dec_stable & ? & ?). split_and!; try done.
        by apply dec_stable.
      * intros (? & ? & ? & ? & ? & ? & ?). split_and!; try done; by intros [].
    + split.
      * intros (? & ? & ?%dec_stable & ? & ?). split_and!; try done.
        by apply dec_stable.
      * intros (? & ? & ? & ? & ? & ? & ?). split_and!; try done; by intros [].
Qed.

Lemma check_row_inv U idx r st st' :
  check_row U idx r st = Ok st' →
  ∃ nl z,
    int U (get_or r "number_of_letters" (py "0")) = Ok nl ∧
    int U (get_or r "lex_rank" (py "0")) = Ok z.
Proof.
  unfold check_row. intros Hrow.
  apply bind_Ok in Hrow as (nl & Hnl & Hrow).
  apply bind_Ok in Hrow as (z & Hz & _). by exists nl, z.
Qed.

Lemma check_row_Raise U idx r st :
  check_row U idx r st = Raise ValueError ↔ unparsable_number U r.
Proof.
  unfold check_row, unparsable_number.
  destruct (int U (get_or r "number_of_letters" (py "0"))) as [nl|[]];
    cbv beta iota delta [mbind result_bind]; [|split; [by left|done]].
  destruct (int U (get_or r "lex_rank" (py "0"))) as [z|[]];
    [|split; [by right|done]].
  split; [done|]. by intros [?|?].
Qed.

Lemma check_rows_Raise U rows idx st :
  check_rows U idx rows st = Raise ValueError ↔ Exists (unparsable_number U) rows.
Proof.
  revert idx st. induction rows as [|r rows IH]; intros idx st; simpl.
  - split; [done|]. by intros ?%Exists_nil.
  - rewrite Exists_cons, <- (check_row_Raise U idx r st).
    destruct (check_row U idx r st) as [st'|[]] eqn:Hrow;
      cbv beta iota delta [mbind result_bind].
    + rewrite IH. split; [by right|]. by intros [?|?].
    + split; [by left|done].
Qed.

Lemma check_rows_accepts U rows idx st seen :
  (∃ st', check_rows U idx rows st = Ok st' ∧ errors st' = [] ∧ seen_ranks st' = seen) ↔
  errors st = [] ∧
  Forall (row_passes U) rows ∧
  (∃ ranks,
     Forall2 (λ r z, int U (get_or r "lex_rank" (py "0")) = Ok z) rows ranks ∧
     NoDup ranks ∧
     (∀ z, z ∈ ranks → z ∉ seen_ranks st) ∧
     seen = list_to_set ranks ∪ seen_ranks st) ∧
  descends (last_word st)
    (map (λ r : row, strip U (get_or r "normalized_word" [])) rows) = false.
Proof.
  revert idx st seen. induction rows as [|r rows IH]; intros idx st seen.
  { cbn [check_rows map descends]. split.
    - intros (st' & [= <-] & Herrors & <-). split_and!; [done|constructor| |done].
      exists []. split_and!; [constructor|constructor|by intros ? ?%elem_of_nil|].
      by rewrite list_to_set_nil, (left_id_L ∅ (∪)).
    - intros (Herrors & _ & (ranks & Hranks & _ & _ & ->) & _).
      apply Forall2_nil_inv_l in Hranks as ->.
      exists st. by rewrite list_to_set_nil, (left_id_L ∅ (∪)). }
  cbn [check_rows map descends]. split.
  - intros (st' & Hrows & Herrors & <-).
    apply bind_Ok in Hrows as (st1 & Hrow & Hrows).
    destruct (check_row_inv U idx r st st1 Hrow) as (nl & z & Hnl & Hz).
    destruct (check_row_Ok U idx r st nl z Hnl Hz)
      as (st1' & Hrow' & Hseen & Hlast & Hiff).
    rewrite Hrow in Hrow'. injection Hrow' as <-.
    destruct (proj1 (IH (S idx) st1 (seen_ranks st')))
      as (Herrors1 & Hpass & (ranks & Hranks & Hnodup & Hnew & Hset) & Hdesc).
    { by exists st'. }
    apply Hiff in Herrors1
      as (Herrors0 & Hne & Hletters & Hfirst & -> & Hz_new & Horder).
    split_and!; [done|by constructor| |].
    + exists (z :: ranks). split_and!.
      * by constructor.
      * constructor; [|done]. intros Hin. apply (Hnew z Hin). rewrite Hseen.
        apply elem_of_union_l, elem_of_singleton. done.
      * intros z' [->|Hin]%elem_of_cons; [done|]. intros Hseen'.
        apply (Hnew z' Hin). rewrite Hseen. by apply elem_of_union_r.
      * rewrite Hset, Hseen, list_to_set_cons.
        by rewrite (assoc_L (∪)), (comm_L (∪) (list_to_set ranks)).
    + destruct (strip U (get_or r "normalized_word" [])) as [|c s]; [done|].
      rewrite Hlast in Hdesc. rewrite Hdesc, orb_false_r.
      by destruct (last_word st).
  - intros (Herrors & Hpass & (ranks & Hranks & Hnodup & Hnew & ->) & Hdesc).
    apply Forall_cons in Hpass as [(Hne & Hletters & Hfirst & Hnl) Hpass].
    apply Forall2_cons_inv_l in Hranks as (z & ranks' & Hz & Hranks & ->).
    apply NoDup_cons in Hnodup as [Hz_new Hnodup].
    destruct (check_row_Ok U idx r st _ z Hnl Hz) as (st1 & Hrow & Hseen & Hlast & Hiff).
    apply orb_false_iff in Hdesc as [Horder Hdesc].
    destruct (proj2 (IH (S idx) st1 (list_to_set ranks' ∪ seen_ranks st1)))
      as (st' & Hrows & Herrors' & Hset).
    { split_and!; [|done| |].
      - apply Hiff. split_and!; try done.
        + apply Hnew. left.
        + by destruct (last_word st).
      - exists ranks'. split_and!; [done|done| |reflexivity].
        intros z' Hin. rewrite Hseen.
        intros [->%elem_of_singleton|Hseen']%elem_of_union; [done|].
        apply (Hnew z'); [by right|done].
      - rewrite Hlast.
        by destruct (strip U (get_or r "normalized_word" [])). }
    exists st'. rewrite Hrow. cbv beta iota delta [mbind result_bind].
    split_and!; [done|done|].
    rewrite Hset, Hseen, list_to_set_cons.
    by rewrite (assoc_L (∪)), (comm_L (∪) (list_to_set ranks')).
Qed.

Lemma ranks_contiguous (ranks : list Z) (n : Z) :
  NoDup ranks ∧ (list_to_set ranks : gset Z) = list_to_set (seqZ 1 n)
  ↔ ranks ≡ₚ seqZ 1 n.
Proof.
  split.
  - intros [Hnodup Hset]. apply NoDup_Permutation; [done|apply NoDup_seqZ|].
    intros z. by rewrite <- (elem_of_list_to_set (C := gset Z)), Hset, elem_of_list_to_set.
  - intros Hperm. split.
    + rewrite Hperm. apply NoDup_seqZ.
    + apply set_eq. intros z. by rewrite !elem_of_list_to_set, Hperm.
Qed.

Lemma violations_accepts U rows : violations U rows = Ok [] ↔ table_passes U rows.
Proof.
  unfold violations, table_passes.
  rewrite <- descends_None_Sorted.
  pose proof (check_rows_accepts U rows 1
    {| seen_ranks := ∅; last_word := None; errors := [] |}
    (list_to_set (seqZ 1 (len rows)))) as Hiff.
  cbn [seen_ranks last_word errors] in Hiff.
  split.
  - intros Hviolations. apply bind_Ok in Hviolations as (st' & Hrows & [= Herrors]).
    apply append_if_nil in Herrors as [Hset%bool_decide_eq_false%dec_stable Herrors].
    destruct (proj1 Hiff) as (_ & Hpass & (ranks & Hranks & Hnodup & _ & Heq) & Hdesc).
    { by exists st'. }
    split_and!; [done| |done]. exists ranks. split; [done|].
    apply ranks_contiguous. split; [done|].
    by rewrite Heq, (right_id_L ∅ (∪)).
  - intros (Hpass & (ranks & Hranks & Hperm) & Hdesc).
    apply ranks_contiguous in Hperm as [Hnodup Hset].
    destruct (proj2 Hiff) as (st' & Hrows & Herrors & Hseen).
    { split_and!; [done|done| |done]. exists ranks. split_and!; [done|done| |].
      - intros z _. apply not_elem_of_empty.
      - by rewrite (right_id_L ∅ (∪)). }
    rewrite Hrows. cbv beta iota delta [mbind result_bind]. f_equal.
    apply append_if_nil. split; [|done].
    apply bool_decide_eq_false. by intros [].
Qed.

(** X8. What an exit code of 0 means. The verifier finds no violation
    exactly when every row has a key that is not empty and made of the
    letters a-z, with [first_letter] its first letter and [number_of_letters]
    its length, the values of [lex_rank] are the numbers from 1 to the number
    of rows, each once, and no row has a key smaller than the key of the row
    before it in the file. It returns 0 exactly for such a table that has a
    row. *)
Theorem verifier_accepts_iff U rows :
  (violations U rows = Ok [] ↔ table_passes U rows) ∧
  (sanity_check_ranked.main U rows = Ok 0%Z ↔ rows ≠ [] ∧ table_passes U rows).
Proof.
  split; [apply violations_accepts|].
  rewrite <- violations_accepts. unfold sanity_check_ranked.main.
  destruct rows as [|r rows]; [split; [done|by intros [? _]]|].
  destruct (violations U (r :: rows)) as [[|e errs]|[]];
    cbv beta iota delta [mbind result_bind]; split; try done; by intros [_ ?].
Qed.

Lemma violations_Raise U rows :
  violations U rows = Raise ValueError ↔ Exists (unparsable_number U) rows.
Proof.
  unfold violations. rewrite <- (check_rows_Raise U rows 1
    {| seen_ranks := ∅; last_word := None; errors := [] |}).
  by destruct (check_rows U 1 rows _) as [st'|[]].
Qed.

Lemma verifier_Raise U rows :
  sanity_check_ranked.main U rows = Raise ValueError
  ↔ Exists (unparsable_number U) rows.
Proof.
  rewrite <- violations_Raise. unfold sanity_check_ranked.main.
  destruct rows as [|r rows].
  - split; [done|]. intros Hnil. by apply violations_Raise, Exists_nil in Hnil.
  - by destruct (violations U (r :: rows)) as [[|e errs]|[]].
Qed.

(** C8. The verifier returns 0 exactly when the table has rows and no
    check fails: every row has a key that is not empty and made of the
    letters a-z, with [first_letter] its first letter and
    [number_of_letters] its length, the values of [lex_rank] are the numbers
    from 1 to the number of rows, each once, and no row has a key smaller
    than the key of the row before it. It returns 2 for a table without
    rows. For a table with rows of which a check fails the exit status is 1,
    a code different from 0 and from 2: the verifier returns 1 when all the
    numbers of the table are read, and it stops with a [ValueError]
    otherwise. *)
Theorem verifier_exit_code U rows :
  (exit_status (sanity_check_ranked.main U rows) = 0%Z
   ↔ rows ≠ [] ∧ table_passes U rows) ∧
  (rows = [] → sanity_check_ranked.main U rows = Ok 2%Z) ∧
  (rows ≠ [] → ¬ table_passes U rows →
     exit_status (sanity_check_ranked.main U rows) = 1%Z) ∧
  (rows ≠ [] → ¬ table_passes U rows → ¬ Exists (unparsable_number U) rows →
     sanity_check_ranked.main U rows = Ok 1%Z).
Proof.
  destruct rows as [|r rows].
  { split_and!; [|done..]. cbn. split; [done|by intros [? _]]. }
  pose proof (violations_accepts U (r :: rows)) as Haccepts.
  pose proof (violations_Raise U (r :: rows)) as Hraises.
  unfold sanity_check_ranked.main.
  destruct (violations U (r :: rows)) as [[|e errs]|[]];
    cbv beta iota delta [mbind result_bind exit_status].
  - assert (table_passes U (r :: rows)) as Hpasses by (by apply Haccepts).
    split_and!; [split; [by intros _|done]|done|by intros _ []|by intros _ []].
  - split_and!; [|done..].
    split; [done|]. intros [_ Hpasses]. by apply Haccepts in Hpasses.
  - split_and!; [|done|done|].
    + split; [done|]. intros [_ Hpasses]. by apply Haccepts in Hpasses.
    + intros _ _ []. by apply Hraises.
Qed.

(** X9. The verifier stops with a [ValueError], and reports no violation,
    exactly when the table has a cell of [number_of_letters] or of
    [lex_rank] that is not a number: such a cell is not counted as a
    violation of a row, and the violations of the rows before it are not
    reported. The exit status is 1 in that case and when a violation is
    reported, and in no other. *)
Theorem verifier_raises_iff U rows :
  (violations U rows = Raise ValueError ↔ Exists (unparsable_number U) rows) ∧
  (sanity_check_ranked.main U rows = Raise ValueError
   ↔ Exists (unparsable_number U) rows) ∧
  (exit_status (sanity_check_ranked.main U rows) = 1%Z
   ↔ Exists (unparsable_number U) rows
     ∨ ∃ e errs, violations U rows = Ok (e :: errs)).
Proof.
  split; [apply violations_Raise|]. split; [apply verifier_Raise|].
  rewrite <- violations_Raise. unfold sanity_check_ranked.main.
  destruct rows as [|r rows].
  - split; [done|]. intros [Hraise|(e & errs & Herrs)]; [|done].
    by apply violations_Raise, Exists_nil in Hraise.
  - destruct (violations U (r :: rows)) as [[|e errs]|[]];
      cbv beta iota delta [mbind result_bind exit_status].
    + split; [done|]. by intros [?|(? & ? & ?)].
    + split; [|done]. intros _. right. by exists e, errs.
    + split; [|done]. intros _. by left.
Qed.


(** ** From the Normalizer to the verifier *)

Lemma str_of_int_nonempty z : str_of_int z ≠ [].
Proof.
  destruct z as [|p|p]; [done| |by rewrite str_of_int_neg].
  rewrite str_of_int_pos.
  pose proof (to_uint_not_D0 p) as Hp.
  assert (Pos.to_uint p ≠ Decimal.Nil) as Hnil.
  { intros Heq. pose proof (digits_value_to_uint p) as Hv. by rewrite Heq in Hv. }
  by destruct (Pos.to_uint p).
Qed.

Lemma get_or_lookup (r : row) key v fallback :
  r !! key = Some v → v ≠ [] → get_or r key fallback = v.
Proof. unfold get_or. intros -> ?. by destruct v. Qed.

Lemma get_or_lookup_empty (r : row) key v : r !! key = Some v → get_or r key [] = v.
Proof. unfold get_or. intros ->. by destruct v. Qed.

Lemma get_lookup (r : row) key v fallback : r !! key = Some v → get r key fallback = v.
Proof. unfold get. by intros ->. Qed.

Lemma within_digit_limit_le U z z' :
  (Z.abs z' ≤ Z.abs z)%Z → within_digit_limit U z → within_digit_limit U z'.
Proof.
  unfold within_digit_limit. intros Hle [Hz|[Hz|Hz]]; [left|by right; left|right; right].
  - by eapply Z.le_lt_trans.
  - by eapply Z.le_lt_trans.
Qed.

Lemma int_written U (r : row) key z :
  r !! key = Some (str_of_int z) →
  within_digit_limit U z →
  int U (get_or r key (py "0")) = Ok z.
Proof.
  intros Hkey Hz. rewrite (get_or_lookup r key (str_of_int z)); [|done|].
  - by apply int_str_of_int.
  - apply str_of_int_nonempty.
Qed.

Lemma strip_letters U s :
  (∀ c, 97 ≤ c ≤ 122 → isspace U c = false) →
  lowercase_letters s → strip U s = s.
Proof.
  intros Hspace Hs. apply strip_id, no_space_collapsed.
  eapply Forall_impl; [done|]. intros c. apply Hspace.
Qed.

Lemma lowercase_letters_take n s : lowercase_letters s → lowercase_letters (take n s).
Proof. apply Forall_take. Qed.

(** *** The rows of the normalized CSV *)

Lemma normalized_csv_rows out : normalized_csv out = normalized_row <$> final_entries out.
Proof.
  unfold normalized_csv, write_csv_rows. by rewrite <- list_fmap_compose.
Qed.

Lemma sort_key_normalized_row U e :
  within_digit_limit U (entry_index e) →
  sort_key U (normalized_row e) = Ok (entry_sort_key e).
Proof.
  intros Hindex. unfold sort_key.
  rewrite (int_written U _ _ (entry_index e)); [done|reflexivity|done].
Qed.

Lemma decorate_normalized_rows U entries :
  Forall (λ e, within_digit_limit U (entry_index e)) entries →
  decorate (sort_key U) (normalized_row <$> entries)
  = Ok ((λ e, (entry_sort_key e, normalized_row e)) <$> entries).
Proof.
  induction 1 as [|e entries He _ IH]; [done|]. csimpl.
  by rewrite sort_key_normalized_row, IH.
Qed.

Section sorted_fmap.
Context {A B K : Type}.
Context `{Lexico K, !TrichotomyT (@lexico K _), !StrictOrder (@lexico K _)}.

Lemma insert_by_key_fmap (f : A → B) (x : K * A) (l : list (K * A)) :
  insert_by_key (prod_map id f x) (prod_map id f <$> l)
  = prod_map id f <$> insert_by_key x l.
Proof.
  induction l as [|y l IH]; [done|]. csimpl.
  destruct (py_lt y.1 x.1); csimpl; [by rewrite IH|done].
Qed.

Lemma sort_by_key_fmap (f : A → B) (l : list (K * A)) :
  sort_by_key (prod_map id f <$> l) = prod_map id f <$> sort_by_key l.
Proof.
  induction l as [|x l IH]; [done|]. csimpl. by rewrite IH, insert_by_key_fmap.
Qed.
End sorted_fmap.

Lemma Sorted_keys_first {A} (l : list (pystr * pystr * pystr * Z * A)) :
  StronglySorted key_le l → Sorted str_le ((λ p, p.1.1.1.1) <$> l).
Proof.
  induction 1 as [|x l _ IH Hx]; csimpl; constructor; [done|].
  destruct l as [|y l]; csimpl; constructor.
  apply Forall_cons in Hx as [Hxy _]. by apply str_le_first.
Qed.

(** The ranked CSV of the entries that the Normalizer writes: the entries
    in the order of their tuples, numbered from 1. *)
Lemma ranked_csv_normalized U entries :
  Forall (λ e, within_digit_limit U (entry_index e)) entries →
  ∃ entries_sorted,
    ranked_csv U (normalized_row <$> entries)
    = Ok (imap (λ i e, ranked_row (Z.of_nat i + 1) e) entries_sorted) ∧
    entries_sorted ≡ₚ entries ∧
    Sorted str_le (normalized_word <$> entries_sorted).
Proof.
  intros Hentries.
  exists (sort_by_key ((λ e, (entry_sort_key e, e)) <$> entries)).*2.
  split_and!.
  - unfold ranked_csv, compute_lex_rank.main, sorted.
    rewrite decorate_normalized_rows by done.
    cbv beta iota delta [mbind result_bind]. f_equal.
    replace ((λ e, (entry_sort_key e, normalized_row e)) <$> entries)
      with (prod_map id normalized_row <$> ((λ e, (entry_sort_key e, e)) <$> entries))
      by (by rewrite <- list_fmap_compose).
    rewrite sort_by_key_fmap. unfold write_csv_rows.
    rewrite <- !list_fmap_compose, !imap_fmap, fmap_imap.
    apply imap_ext. by intros i [k e] _.
  - rewrite sort_by_key_perm, <- list_fmap_compose. by rewrite list_fmap_id.
  - pose proof (sort_by_key_StronglySorted ((λ e, (entry_sort_key e, e)) <$> entries))
      as Hsorted.
    apply Sorted_keys_first in Hsorted.
    assert (Forall (λ p : _ * NormalizedEntry, p.1 = entry_sort_key p.2)
              (sort_by_key ((λ e, (entry_sort_key e, e)) <$> entries))) as Hkeys.
    { rewrite sort_by_key_perm. apply Forall_fmap, Forall_forall. done. }
    rewrite <- list_fmap_compose.
    erewrite (Forall_fmap_ext_1 (normalized_word ∘ snd)); [done|].
    eapply Forall_impl; [done|]. by intros [k e]; simpl; intros ->.
Qed.

(** *** The rows of the ranked CSV *)

Lemma ranked_row_passes U idx e :
  (∀ c, 97 ≤ c ≤ 122 → isspace U c = false) →
  well_formed_entry U e →
  within_digit_limit U (number_of_letters e) →
  row_passes U (ranked_row idx e) ∧
  strip U (get_or (ranked_row idx e) "normalized_word" []) = normalized_word e.
Proof.
  intros Hspace (_ & Hne & Hletters & Hfirst & Hnumber & _) Hlimit.
  assert (strip U (get_or (ranked_row idx e) "normalized_word" []) = normalized_word e)
    as Hkey.
  { rewrite (get_or_lookup_empty _ _ (normalized_word e)) by reflexivity.
    by apply strip_letters. }
  split; [|done]. unfold row_passes. rewrite Hkey. split_and!; [done|done| |].
  - rewrite (get_or_lookup_empty _ _ (first_letter e)) by reflexivity.
    rewrite Hfirst. apply strip_letters; [done|]. by apply lowercase_letters_take.
  - rewrite <- Hnumber. by apply int_written.
Qed.

Lemma ranked_rows_ranks U (n : nat) entries :
  within_digit_limit U (Z.of_nat n + len entries) →
  Forall2 (λ (r : row) z, int U (get_or r "lex_rank" (py "0")) = Ok z)
    (imap (λ i e, ranked_row (Z.of_nat (n + i) + 1) e) entries)
    (seqZ (Z.of_nat n + 1) (len entries)).
Proof.
  revert n. induction entries as [|e entries IH]; intros n Hlimit; [constructor|].
  unfold len in *. cbn [length] in Hlimit. cbn [length imap].
  rewrite Nat2Z.inj_succ, seqZ_cons by lia.
  constructor.
  - rewrite Nat.add_0_r. apply int_written; [reflexivity|].
    eapply within_digit_limit_le; [|done]. lia.
  - replace (Z.succ (Z.of_nat n + 1)) with (Z.of_nat (S n) + 1)%Z by lia.
    rewrite Z.pred_succ. unfold compose.
    erewrite imap_ext; [apply (IH (S n))|].
    + eapply within_digit_limit_le; [|done]. lia.
    + intros i e' _. simpl. do 2 f_equal. lia.
Qed.

Lemma ranked_table_passes U entries :
  (∀ c, 97 ≤ c ≤ 122 → isspace U c = false) →
  Forall (well_formed_entry U) entries →
  Forall (λ e, within_digit_limit U (number_of_letters e)) entries →
  within_digit_limit U (len entries) →
  Sorted str_le (normalized_word <$> entries) →
  table_passes U (imap (λ i e, ranked_row (Z.of_nat i + 1) e) entries).
Proof.
  intros Hspace Hwf Hnumber Hlimit Hsorted. unfold table_passes. split_and!.
  - apply Forall_lookup. intros i r Hr.
    apply list_lookup_imap_Some in Hr as (e & He & ->).
    apply ranked_row_passes; [done|..].
    + by eapply Forall_lookup_1 in Hwf.
    + by eapply (Forall_lookup_1 _ _ _ _ Hnumber).
  - exists (seqZ 1 (len entries)). split.
    + apply (ranked_rows_ranks U 0 entries). by rewrite Z.add_0_l.
    + unfold len. by rewrite length_imap.
  - assert (map (λ r : row, strip U (get_or r "normalized_word" []))
              (imap (λ i e, ranked_row (Z.of_nat i + 1) e) entries)
            = normalized_word <$> entries) as ->; [|done].
    change (map ?f ?l) with (f <$> l). rewrite fmap_imap.
    erewrite imap_ext; [apply imap_const|].
    intros i e He. simpl. apply ranked_row_passes; [done|..].
    + by eapply Forall_lookup_1 in Hwf.
    + by eapply (Forall_lookup_1 _ _ _ _ Hnumber).
Qed.

Lemma main_entry_index_limit U do_dedupe raw_rows out :
  normalize_dictionary.main U do_dedupe raw_rows = Ok out →
  Forall (λ e, within_digit_limit U (entry_index e)) (final_entries out).
Proof.
  intros Hmain. apply main_final_well_formed in Hmain.
  eapply Forall_impl; [done|]. intros e He. apply He.
Qed.

(** X10. The Rank Assigner never stops on the CSV that the Normalizer
    wrote: every [entry_index] cell of that file is read back as the number
    of the entry, the tuple of a row is the tuple of its entry, and the
    ranked CSV has the rows of the kept entries, all of them and each once,
    in ascending order of their keys and numbered from 1. *)
Theorem ranker_accepts_normalized_csv U do_dedupe raw_rows out :
  normalize_dictionary.main U do_dedupe raw_rows = Ok out →
  Forall2 (λ e r, sort_key U r = Ok (entry_sort_key e))
    (final_entries out) (normalized_csv out) ∧
  ∃ entries_sorted,
    ranked_csv U (normalized_csv out)
    = Ok (imap (λ i e, ranked_row (Z.of_nat i + 1) e) entries_sorted) ∧
    entries_sorted ≡ₚ final_entries out ∧
    Sorted str_le (normalized_word <$> entries_sorted).
Proof.
  intros Hmain. apply main_entry_index_limit in Hmain.
  rewrite normalized_csv_rows. split.
  - apply Forall2_fmap_r, Forall_Forall2_diag.
    eapply Forall_impl; [done|]. intros e. apply sort_key_normalized_row.
  - by apply ranked_csv_normalized.
Qed.

Lemma ranker_accepts_normalized_csv_witness :
  ∃ out,
    normalize_dictionary.main latin1 true (cafe_row :: run_rows) = Ok out ∧
    Forall2 (λ e r, sort_key latin1 r = Ok (entry_sort_key e))
      (final_entries out) (normalized_csv out) ∧
    ∃ entries_sorted,
      ranked_csv latin1 (normalized_csv out)
      = Ok (imap (λ i e, ranked_row (Z.of_nat i + 1) e) entries_sorted) ∧
      entries_sorted ≡ₚ final_entries out ∧
      Sorted str_le (normalized_word <$> entries_sorted).
Proof.
  eexists. split; [vm_compute; reflexivity|].
  apply (ranker_accepts_normalized_csv latin1 true (cafe_row :: run_rows)).
  vm_compute; reflexivity.
Defined.

(** X11. The three stages agree. When the letters a-z are no spaces for
    [strip()] and the numbers of rows and of letters are numbers that [str]
    and [int] convert, the ranked CSV that the Rank Assigner makes of the
    CSV of the Normalizer, with or without deduplication, has one row for
    every kept entry and no violation for the verifier, which returns 0 for
    it, and 2 when no entry was kept. *)
Theorem pipeline_passes_verifier U do_dedupe raw_rows out :
  (∀ c, 97 ≤ c ≤ 122 → isspace U c = false) →
  normalize_dictionary.main U do_dedupe raw_rows = Ok out →
  within_digit_limit U (len (final_entries out)) →
  Forall (λ e, within_digit_limit U (number_of_letters e)) (final_entries out) →
  ∃ table,
    ranked_csv U (normalized_csv out) = Ok table ∧
    length table = length (final_entries out) ∧
    violations U table = Ok [] ∧
    sanity_check_ranked.main U table
    = Ok (match final_entries out with [] => 2 | _ :: _ => 0 end)%Z.
Proof.
  intros Hspace Hmain Hrows Hletters.
  pose proof (main_final_well_formed U do_dedupe raw_rows out Hmain) as Hwf.
  pose proof (main_entry_index_limit U do_dedupe raw_rows out Hmain) as Hindex.
  destruct (ranked_csv_normalized U (final_entries out) Hindex)
    as (entries_sorted & Hranked & Hperm & Hsorted).
  rewrite normalized_csv_rows, Hranked. eexists. split; [reflexivity|].
  assert (violations U (imap (λ i e, ranked_row (Z.of_nat i + 1) e) entries_sorted)
          = Ok []) as Hviolations.
  { apply violations_accepts, ranked_table_passes; [done| | | |done].
    - by rewrite Hperm.
    - by rewrite Hperm.
    - unfold len. by rewrite Hperm. }
  split_and!; [|done|].
  - by rewrite length_imap, Hperm.
  - unfold sanity_check_ranked.main.
    destruct (final_entries out) as [|e entries].
    + by apply Permutation_nil_r in Hperm as ->.
    + destruct entries_sorted as [|e' entries']; [by apply Permutation_nil_cons in Hperm|].
      cbn [imap] in *. by rewrite Hviolations.
Qed.

Lemma pipeline_passes_verifier_witness :
  ∃ out,
    normalize_dictionary.main latin1 true (cafe_row :: run_rows) = Ok out ∧
    ∃ table,
      ranked_csv latin1 (normalized_csv out) = Ok table ∧
      length table = length (final_entries out) ∧
      violations latin1 table = Ok [] ∧
      sanity_check_ranked.main latin1 table
      = Ok (match final_entries out with [] => 2 | _ :: _ => 0 end)%Z.
Proof.
  eexists. split; [vm_compute; reflexivity|].
  apply (pipeline_passes_verifier latin1 true (cafe_row :: run_rows)).
  - apply latin1_isspace_letter.
  - vm_compute; reflexivity.
  - left. reflexivity.
  - repeat constructor.
Defined.


(** ** The Final Builder *)

Lemma append_rows_Ok U rows final_rows ds :
  Forall2 (λ r d, build_final_csv.final_row U r = Ok d) rows ds →
  build_final_csv.append_rows U rows final_rows = Ok (final_rows ++ ds).
Proof.
  intros Hrows. revert final_rows.
  induction Hrows as [|r d rows ds Hr _ IH]; intros final_rows; simpl.
  - by rewrite app_nil_r.
  - rewrite Hr. cbv beta iota delta [mbind result_bind].
    by rewrite IH, <- app_assoc.
Qed.

Lemma append_rows_inv U rows final_rows final_rows' :
  build_final_csv.append_rows U rows final_rows = Ok final_rows' →
  ∃ ds,
    Forall2 (λ r d, build_final_csv.final_row U r = Ok d) rows ds ∧
    final_rows' = final_rows ++ ds.
Proof.
  revert final_rows. induction rows as [|r rows IH]; intros final_rows Hrows;
    simpl in Hrows.
  - injection Hrows as <-. exists []. by rewrite app_nil_r.
  - apply bind_Ok in Hrows as (d & Hd & Hrows).
    apply IH in Hrows as (ds & Hds & ->). exists (d :: ds).
    split; [by constructor|]. by rewrite <- app_assoc.
Qed.

Lemma final_row_Raise U r :
  build_final_csv.final_row U r = Raise ValueError ↔ unparsable_number U r.
Proof.
  unfold build_final_csv.final_row, unparsable_number.
  destruct (int U (get_or r "number_of_letters" (py "0"))) as [nl|[]];
    cbv beta iota zeta delta [mbind result_bind]; [|split; [by left|done]].
  destruct (int U (get_or r "lex_rank" (py "0"))) as [z|[]];
    [|split; [by right|done]].
  split; [done|]. by intros [?|?].
Qed.

Lemma append_rows_Raise U rows final_rows :
  build_final_csv.append_rows U rows final_rows = Raise ValueError
  ↔ Exists (unparsable_number U) rows.
Proof.
  revert final_rows. induction rows as [|r rows IH]; intros final_rows; simpl.
  - split; [done|]. by intros ?%Exists_nil.
  - rewrite Exists_cons, <- (final_row_Raise U r).
    destruct (build_final_csv.final_row U r) as [d|[]];
      cbv beta iota delta [mbind result_bind].
    + rewrite IH. split; [by right|]. by intros [?|?].
    + split; [by left|done].
Qed.

Lemma final_csv_Raise U rows :
  build_final_csv.final_csv U rows = Raise ValueError
  ↔ Exists (unparsable_number U) rows.
Proof.
  unfold build_final_csv.final_csv, build_final_csv.main.
  rewrite <- (append_rows_Raise U rows []).
  by destruct (build_final_csv.append_rows U rows []) as [ds|[]].
Qed.

Lemma final_csv_Ok U rows ds :
  Forall2 (λ r d, build_final_csv.final_row U r = Ok d) rows ds →
  build_final_csv.final_csv U rows
  = Ok (written_row build_final_csv.FINAL_COLUMNS <$> ds).
Proof.
  intros Hrows. unfold build_final_csv.final_csv, build_final_csv.main.
  by rewrite (append_rows_Ok U rows [] ds).
Qed.

Lemma final_csv_inv U rows table :
  build_final_csv.final_csv U rows = Ok table →
  ∃ ds,
    Forall2 (λ r d, build_final_csv.final_row U r = Ok d) rows ds ∧
    table = written_row build_final_csv.FINAL_COLUMNS <$> ds.
Proof.
  unfold build_final_csv.final_csv, build_final_csv.main. intros Hcsv.
  apply bind_Ok in Hcsv as (final_rows & Hrows & [= <-]).
  apply append_rows_inv in Hrows as (ds & Hds & ->). by exists ds.
Qed.

(** The Final Builder on a row that it wrote. *)
Lemma final_row_written U r d :
  build_final_csv.final_row U r = Ok d →
  build_final_csv.final_row U (written_row build_final_csv.FINAL_COLUMNS d) = Ok d.
Proof.
  unfold build_final_csv.final_row at 1. intros Hrow.
  apply bind_Ok in Hrow as (nl & Hnl & Hrow).
  apply bind_Ok in Hrow as (z & Hz & [= <-]).
  unfold build_final_csv.final_row.
  rewrite (int_written U _ "number_of_letters" nl);
    [|reflexivity|by eapply int_Ok_within_limit].
  rewrite (int_written U _ "lex_rank" z);
    [|reflexivity|by eapply int_Ok_within_limit].
  cbv beta iota zeta delta [mbind result_bind].
  rewrite (get_lookup _ "word" (clean_whitespace U (get r "word" []))) by reflexivity.
  rewrite (get_lookup _ "normalized_word"
             (clean_whitespace U (get r "normalized_word" []))) by reflexivity.
  rewrite (get_lookup _ "part_of_speech"
             (clean_whitespace U (get r "part_of_speech" []))) by reflexivity.
  rewrite (get_lookup _ "definition"
             (clean_whitespace U (get r "definition" []))) by reflexivity.
  rewrite (get_lookup _ "etymology"
             (clean_whitespace U (get r "etymology" []))) by reflexivity.
  rewrite (get_lookup _ "first_letter"
             (clean_whitespace U (get r "first_letter" []))) by reflexivity.
  by rewrite !clean_whitespace_twice.
Qed.

Lemma final_rows_written U rows ds :
  Forall2 (λ r d, build_final_csv.final_row U r = Ok d) rows ds →
  Forall2 (λ r d, build_final_csv.final_row U r = Ok d)
    (written_row build_final_csv.FINAL_COLUMNS <$> ds) ds.
Proof.
  intros Hds. apply Forall2_fmap_l, Forall_Forall2_diag.
  induction Hds as [|r d rows ds Hd _ IH]; constructor; [|done].
  by eapply final_row_written.
Qed.

(** X12. The Final Builder leaves its own output as it is: run on the final
    CSV it wrote, it writes the same file again. Its rows have the eight
    columns of [FINAL_COLUMNS] and nothing else, one row for every row of
    the input. *)
Theorem final_builder_idempotent U rows table :
  build_final_csv.final_csv U rows = Ok table →
  build_final_csv.final_csv U table = Ok table ∧
  length table = length rows ∧
  Forall (λ r : row, ∀ key, is_Some (r !! key) ↔ key ∈ build_final_csv.FINAL_COLUMNS)
    table.
Proof.
  intros Hcsv. apply final_csv_inv in Hcsv as (ds & Hds & ->). split_and!.
  - apply final_csv_Ok. by eapply final_rows_written.
  - rewrite length_fmap. symmetry. by eapply Forall2_length.
  - apply Forall_fmap, Forall_forall. intros d _ key. simpl.
    rewrite lookup_written_row. case_bool_decide as Hkey.
    + split; [done|]. intros _. by eexists.
    + split; [by intros [? ?]|done].
Qed.

Lemma final_builder_idempotent_witness :
  build_final_csv.final_csv latin1 (final_columns <$> table_ranked)
  = Ok (final_columns <$> table_ranked) ∧
  length (final_columns <$> table_ranked) = length table_ranked ∧
  Forall (λ r : row, ∀ key, is_Some (r !! key) ↔ key ∈ build_final_csv.FINAL_COLUMNS)
    (final_columns <$> table_ranked).
Proof.
  apply (final_builder_idempotent latin1 table_ranked). by_evaluation.
Defined.

(** X13. On a table written by [write_csv_rows], as every CSV of the
    pipeline is, the Final Builder stops with a [ValueError] when the
    verifier does, and in no other case: exactly when a cell of
    [number_of_letters] or of [lex_rank] is not a number. Such a table for
    which the verifier returned a code, also the code 1, is turned into a
    final CSV. *)
Theorem final_builder_raises_iff U fieldnames (written : list (gmap string pyval)) :
  let table := write_csv_rows fieldnames written in
  (build_final_csv.final_csv U table = Raise ValueError
   ↔ Exists (unparsable_number U) table) ∧
  (build_final_csv.final_csv U table = Raise ValueError
   ↔ sanity_check_ranked.main U table = Raise ValueError) ∧
  ((∃ code, sanity_check_ranked.main U table = Ok code)
   ↔ ∃ final, build_final_csv.final_csv U table = Ok final).
Proof.
  intros table. split; [apply final_csv_Raise|].
  assert (build_final_csv.final_csv U table = Raise ValueError
          ↔ sanity_check_ranked.main U table = Raise ValueError) as Hraise.
  { by rewrite final_csv_Raise, verifier_Raise. }
  split; [done|].
  destruct (sanity_check_ranked.main U table) as [code|[]],
    (build_final_csv.final_csv U table) as [final|[]].
  - split; intros _; by eexists.
  - by pose proof (proj1 Hraise eq_refl).
  - by pose proof (proj2 Hraise eq_refl).
  - split; by intros [? ?].
Qed.

(** *** The final CSV of the pipeline *)

Lemma clean_whitespace_letters U s :
  (∀ c, 97 ≤ c ≤ 122 → isspace U c = false) →
  lowercase_letters s → clean_whitespace U s = s.
Proof.
  intros Hspace Hs.
  destruct (no_space_collapsed U s) as [Hcollapsed Htrimmed].
  { eapply Forall_impl; [done|]. intros c. apply Hspace. }
  by apply clean_whitespace_id.
Qed.

Lemma final_row_ranked_row U idx e :
  (∀ c, 97 ≤ c ≤ 122 → isspace U c = false) →
  well_formed_entry U e →
  within_digit_limit U (number_of_letters e) →
  within_digit_limit U idx →
  ∃ d,
    build_final_csv.final_row U (ranked_row idx e) = Ok d ∧
    written_row build_final_csv.FINAL_COLUMNS d = final_columns (ranked_row idx e).
Proof.
  intros Hspace (_ & _ & Hletters & Hfirst & _ & Hword & Hpos & Hdef & Hety & _)
    Hnumber Hidx.
  unfold build_final_csv.final_row.
  rewrite (int_written U _ "number_of_letters" (number_of_letters e));
    [|reflexivity|done].
  rewrite (int_written U _ "lex_rank" idx); [|reflexivity|done].
  cbv beta iota zeta delta [mbind result_bind].
  rewrite (get_lookup _ "word" (word e)) by reflexivity.
  rewrite (get_lookup _ "normalized_word" (normalized_word e)) by reflexivity.
  rewrite (get_lookup _ "part_of_speech" (part_of_speech e)) by reflexivity.
  rewrite (get_lookup _ "definition" (definition e)) by reflexivity.
  rewrite (get_lookup _ "etymology" (etymology e)) by reflexivity.
  rewrite (get_lookup _ "first_letter" (first_letter e)) by reflexivity.
  rewrite Hword, Hpos, Hdef, (clean_whitespace_letters U (normalized_word e)) by done.
  assert (clean_whitespace U (etymology e) = etymology e) as -> by (by rewrite Hety).
  rewrite (clean_whitespace_letters U (first_letter e));
    [|done|rewrite Hfirst; by apply lowercase_letters_take].
  eexists. split; reflexivity.
Qed.

Lemma append_ranked_rows U entries (n : nat) final_rows :
  (∀ i e, entries !! i = Some e →
     ∃ d, build_final_csv.final_row U (ranked_row (Z.of_nat (n + i) + 1) e) = Ok d ∧
          written_row build_final_csv.FINAL_COLUMNS d
          = final_columns (ranked_row (Z.of_nat (n + i) + 1) e)) →
  ∃ ds,
    build_final_csv.append_rows U
      (imap (λ i e, ranked_row (Z.of_nat (n + i) + 1) e) entries) final_rows
    = Ok (final_rows ++ ds) ∧
    written_row build_final_csv.FINAL_COLUMNS <$> ds
    = final_columns <$> imap (λ i e, ranked_row (Z.of_nat (n + i) + 1) e) entries.
Proof.
  revert n final_rows.
  induction entries as [|e entries IH]; intros n final_rows Hrow.
  - exists []. simpl. by rewrite app_nil_r.
  - destruct (Hrow 0%nat e eq_refl) as (d & Hd & Hwritten).
    destruct (IH (S n) (final_rows ++ [d])) as (ds & Hds & Hcolumns).
    { intros i e' He'. specialize (Hrow (S i) e' He').
      by replace (S n + i)%nat with (n + S i)%nat by lia. }
    assert (imap ((λ i e, ranked_row (Z.of_nat (n + i) + 1) e) ∘ S) entries
            = imap (λ i e, ranked_row (Z.of_nat (S n + i) + 1) e) entries) as Himap.
    { apply imap_ext. intros i e' _. simpl. do 2 f_equal. lia. }
    exists (d :: ds). cbn [imap build_final_csv.append_rows]. rewrite Hd, Himap.
    cbv beta iota delta [mbind result_bind]. rewrite Hds. split.
    + by rewrite <- app_assoc.
    + csimpl. by rewrite Hwritten, Hcolumns.
Qed.

(** X14. The final CSV of the pipeline is the ranked CSV without the
    columns [source_file] and [entry_index]: under the conditions of X11
    the Final Builder does not stop on the ranked CSV and copies the other
    eight columns of every row as they are, the keys and the ranks among
    them. *)
Theorem pipeline_final_csv U do_dedupe raw_rows out table :
  (∀ c, 97 ≤ c ≤ 122 → isspace U c = false) →
  normalize_dictionary.main U do_dedupe raw_rows = Ok out →
  within_digit_limit U (len (final_entries out)) →
  Forall (λ e, within_digit_limit U (number_of_letters e)) (final_entries out) →
  ranked_csv U (normalized_csv out) = Ok table →
  build_final_csv.final_csv U table = Ok (final_columns <$> table).
Proof.
  intros Hspace Hmain Hrows Hletters Hranked.
  pose proof (main_final_well_formed U do_dedupe raw_rows out Hmain) as Hwf.
  pose proof (main_entry_index_limit U do_dedupe raw_rows out Hmain) as Hindex.
  destruct (ranked_csv_normalized U (final_entries out) Hindex)
    as (entries_sorted & Hranked' & Hperm & _).
  rewrite normalized_csv_rows, Hranked' in Hranked. injection Hranked as <-.
  rewrite <- Hperm in Hwf, Hletters. unfold len in Hrows. rewrite <- Hperm in Hrows.
  unfold build_final_csv.final_csv, build_final_csv.main.
  destruct (append_ranked_rows U entries_sorted 0 []) as (ds & Hds & Hcolumns).
  { intros i e He. apply final_row_ranked_row; [done|..].
    - by eapply Forall_lookup_1 in Hwf.
    - by eapply (Forall_lookup_1 _ _ _ _ Hletters).
    - eapply within_digit_limit_le; [|done].
      apply lookup_lt_Some in He. lia. }
  cbn [Nat.add] in Hds, Hcolumns. rewrite Hds.
  cbv beta iota delta [mbind result_bind]. unfold write_csv_rows.
  by rewrite app_nil_l, Hcolumns.
Qed.

Lemma pipeline_final_csv_witness :
  build_final_csv.final_csv latin1 table_cafe_run
  = Ok (final_columns <$> table_cafe_run).
Proof.
  eapply (pipeline_final_csv latin1 true (cafe_row :: run_rows)).
  - apply latin1_isspace_letter.
  - vm_compute; reflexivity.
  - left. reflexivity.
  - repeat constructor.
  - by_evaluation.
Defined.


(** ** The first loop of the Normalizer *)

Lemma normalize_rows_spec U raw_rows acc acc' :
  normalize_rows U raw_rows acc = Ok acc' →
  ∃ entries,
    normalized_entries acc' = normalized_entries acc ++ entries ∧
    Forall2 (entry_of_row U) (filter (λ r, row_key U r ≠ []) raw_rows) entries ∧
    dropped_empty acc'
    = (dropped_empty acc + len (filter (λ r, row_key U r = []) raw_rows))%Z.
Proof.
  revert acc. induction raw_rows as [|r raw_rows IH]; intros acc Hrows; simpl in Hrows.
  { injection Hrows as <-. exists []. rewrite app_nil_r. split_and!; [done|constructor|].
    unfold len; simpl. lia. }
  apply bind_Ok in Hrows as (acc1 & Hrow & Hrows).
  destruct (IH acc1 Hrows) as (entries & Hentries & Hfilter & Hdropped).
  rewrite !filter_cons.
  unfold normalize_row in Hrow.
  destruct (int U (get_or r "entry_index" (py "0"))) as [i|] eqn:Hi; [|done].
  cbv beta iota delta [mbind result_bind] in Hrow.
  pose proof (normalize_word_letters U (get r "word" [])) as Hletters.
  destruct (normalize_word U (get r "word" [])) as [|c s] eqn:Hword.
  - injection Hrow as <-. cbn [normalized_entries dropped_empty] in *.
    assert (row_key U r = []) as Hkey by done.
    rewrite decide_False by (by intros []). rewrite decide_True by done.
    exists entries. split_and!; [done|done|].
    rewrite Hdropped. unfold len. cbn [length]. lia.
  - rewrite (lowercase_letters_no_other _ Hletters) in Hrow.
    injection Hrow as <-. cbn [normalized_entries dropped_empty] in *.
    assert (row_key U r = c :: s) as Hkey by done.
    rewrite decide_True by (by rewrite Hkey). rewrite decide_False by (by rewrite Hkey).
    eexists (_ :: entries). split_and!.
    + by rewrite Hentries, <- app_assoc.
    + constructor; [|done]. unfold entry_of_row; cbn. by rewrite Hword.
    + done.
Qed.

(** X15. The first loop of the Normalizer keeps the raw rows whose word has
    a letter, in their order, and nothing else: its entries are, one for
    one, the entries of the raw rows whose key [normalize_word(word)] is not
    empty, with the source file and the entry index of the row and with its
    word, part of speech and definition cleaned of spaces, and
    [dropped_empty] counts the other rows. *)
Theorem normalizer_keeps_rows_with_letters U do_dedupe raw_rows out :
  normalize_dictionary.main U do_dedupe raw_rows = Ok out →
  Forall2 (entry_of_row U)
    (filter (λ r, row_key U r ≠ []) raw_rows) (normalized_entries (stats out)) ∧
  dropped_empty (stats out) = len (filter (λ r, row_key U r = []) raw_rows).
Proof.
  intros Hmain. apply main_stats in Hmain.
  apply normalize_rows_spec in Hmain as (entries & -> & Hentries & ->). done.
Qed.

Lemma normalizer_keeps_rows_with_letters_witness :
  ∃ out,
    normalize_dictionary.main latin1 true (cafe_row :: run_rows) = Ok out ∧
    Forall2 (entry_of_row latin1)
      (filter (λ r, row_key latin1 r ≠ []) (cafe_row :: run_rows))
      (normalized_entries (stats out)) ∧
    dropped_empty (stats out)
    = len (filter (λ r, row_key latin1 r = []) (cafe_row :: run_rows)).
Proof.
  eexists. split; [vm_compute; reflexivity|].
  apply (normalizer_keeps_rows_with_letters latin1 true (cafe_row :: run_rows)).
  vm_compute; reflexivity.
Defined.

(** ** The Normalizer on its own output *)

Lemma normalize_row_normalized_row U acc e :
  well_formed_entry U e →
  normalize_row U acc (normalized_row e)
  = Ok {| normalized_entries := normalized_entries acc ++ [e];
          dropped_empty := dropped_empty acc;
          dropped_nonalpha := dropped_nonalpha acc |}.
Proof.
  intros (Hkey & Hne & _ & Hfirst & Hnumber & Hword & Hpos & Hdef & Hety & Hindex).
  destruct (normalized_word e) as [|c s] eqn:Hnormalized; [done|].
  rewrite (normalize_row_entry U acc (normalized_row e) (entry_index e) c s).
  - rewrite (get_lookup _ "source_file" (source_file e)) by reflexivity.
    rewrite (get_lookup _ "word" (word e)) by reflexivity.
    rewrite (get_lookup _ "part_of_speech" (part_of_speech e)) by reflexivity.
    rewrite (get_lookup _ "definition" (definition e)) by reflexivity.
    rewrite Hword, Hpos, Hdef. do 3 f_equal.
    destruct e; cbn in *. by subst.
  - by apply int_written.
  - rewrite (get_lookup _ "word" (word e)) by reflexivity. by rewrite <- Hkey.
Qed.

Lemma normalize_rows_normalized_rows U entries acc :
  Forall (well_formed_entry U) entries →
  normalize_rows U (normalized_row <$> entries) acc
  = Ok {| normalized_entries := normalized_entries acc ++ entries;
          dropped_empty := dropped_empty acc;
          dropped_nonalpha := dropped_nonalpha acc |}.
Proof.
  intros Hentries. revert acc.
  induction Hentries as [|e entries He _ IH]; intros acc; csimpl.
  - rewrite app_nil_r. by destruct acc.
  - rewrite normalize_row_normalized_row by done.
    cbv beta iota delta [mbind result_bind]. rewrite IH. cbn.
    by rewrite <- app_assoc.
Qed.

Lemma dict_set_append {V} key (v : V) d :
  dict_get key d = None → dict_set key v d = d ++ [(key, v)].
Proof.
  induction d as [|[k v'] d IH]; csimpl; [done|].
  case_bool_decide; [done|]. intros Hget. by rewrite IH.
Qed.

Lemma dedupe_NoDup U entries :
  NoDup (normalized_word <$> entries) →
  (dedupe U (allocate entries)).1.*1 = normalized_word <$> entries ∧
  value <$> dict_values (dedupe U (allocate entries)).1 = entries ∧
  (dedupe U (allocate entries)).2 = [].
Proof.
  induction entries as [|e entries IH] using rev_ind; [done|].
  rewrite fmap_app. intros [Hnodup [Hnew _]]%NoDup_app.
  destruct (IH Hnodup) as (Hkeys & Hvalues & Hcollisions).
  unfold dedupe in *. rewrite allocate_snoc, foldl_app. cbn [foldl].
  destruct (foldl (dedupe_step U) ([], []) (allocate entries)) as [kept colls].
  cbn [fst snd] in *. unfold dedupe_step. cbn [value].
  assert (dict_get (normalized_word e) kept = None) as Hget.
  { apply dict_get_None. rewrite Hkeys. intros Hin. apply (Hnew _ Hin). csimpl. left. }
  rewrite Hget. cbn [fst snd]. rewrite dict_set_append by done.
  unfold dict_values in *. rewrite !fmap_app, Hkeys, Hvalues. done.
Qed.

(** X16. The Normalizer leaves its own output as it is: run again, with
    the same setting of [--dedupe], on the normalized CSV that it wrote, it
    keeps every row, drops none, finds no collision and writes the same
    file. *)
Theorem normalizer_idempotent U do_dedupe raw_rows out :
  normalize_dictionary.main U do_dedupe raw_rows = Ok out →
  ∃ out',
    normalize_dictionary.main U do_dedupe (normalized_csv out) = Ok out' ∧
    final_entries out' = final_entries out ∧
    normalized_csv out' = normalized_csv out ∧
    collisions out' = [] ∧
    dropped_empty (stats out') = 0%Z.
Proof.
  intros Hmain.
  pose proof (main_final_well_formed U do_dedupe raw_rows out Hmain) as Hwf.
  unfold normalize_dictionary.main at 1.
  rewrite normalized_csv_rows, normalize_rows_normalized_rows by done.
  cbv beta iota delta [mbind result_bind]. cbn [normalized_entries app].
  destruct do_dedupe.
  - destruct (dedupe_NoDup U (final_entries out)) as (_ & Hvalues & Hcollisions).
    { rewrite (main_dedupe_keys U raw_rows out Hmain). apply first_occurrences_NoDup. }
    destruct (dedupe U (allocate (final_entries out))) as [kept colls].
    cbn [fst snd] in *. eexists. split; [reflexivity|].
    cbn [final_entries collisions stats dropped_empty]. rewrite Hcollisions.
    split_and!; [done| |done|done].
    rewrite <- normalized_csv_rows. unfold normalized_csv.
    cbn [final_entries]. by rewrite Hvalues.
  - eexists. split; [reflexivity|].
    cbn [final_entries collisions stats dropped_empty].
    split_and!; [done| |done|done]. by rewrite <- normalized_csv_rows.
Qed.

Lemma normalizer_idempotent_witness :
  ∃ out,
    normalize_dictionary.main latin1 true (cafe_row :: run_rows) = Ok out ∧
    ∃ out',
      normalize_dictionary.main latin1 true (normalized_csv out) = Ok out' ∧
      final_entries out' = final_entries out ∧
      normalized_csv out' = normalized_csv out ∧
      collisions out' = [] ∧
      dropped_empty (stats out') = 0%Z.
Proof.
  eexists. split; [vm_compute; reflexivity|].
  apply (normalizer_idempotent latin1 true (cafe_row :: run_rows)).
  vm_compute; reflexivity.
Defined.


(** ** The batches of the uploader *)

Section batches.
Local Open Scope nat_scope.
Context {A : Type}.
Implicit Types (rows : list A).

Lemma total_batches_bounds n :
  n ≤ upload_to_supabase.total_batches n * 500 < n + 500.
Proof.
  unfold upload_to_supabase.total_batches, upload_to_supabase.BATCH_SIZE.
  pose proof (Nat.div_mod_eq (n + 500 - 1) 500) as Heq.
  pose proof (Nat.mod_upper_bound (n + 500 - 1) 500) as Hlt. lia.
Qed.

Lemma length_batch_of rows b :
  length (upload_to_supabase.batch_of rows b) = (length rows - b * 500) `min` 500.
Proof.
  unfold upload_to_supabase.batch_of, upload_to_supabase.slice,
    upload_to_supabase.BATCH_SIZE.
  rewrite length_take, length_drop. lia.
Qed.

Lemma concat_batches rows m :
  concat (upload_to_supabase.batch_of rows <$> seq 0 m) = take (m * 500) rows.
Proof.
  induction m as [|m IH]; [done|].
  rewrite seq_S, fmap_app, concat_app, IH. cbn [fmap list_fmap concat Nat.add].
  rewrite app_nil_r.
  unfold upload_to_supabase.batch_of, upload_to_supabase.slice,
    upload_to_supabase.BATCH_SIZE.
  rewrite take_take_drop.
  destruct (decide (m * 500 + 500 ≤ length rows)) as [Hle|Hgt].
  - f_equal. lia.
  - rewrite (take_ge rows (S m * 500)) by lia.
    destruct (decide (m * 500 ≤ length rows)).
    + apply take_ge. lia.
    + apply take_ge. lia.
Qed.

Lemma batches_partition rows :
  concat (upload_to_supabase.batch_of rows
            <$> seq 0 (upload_to_supabase.total_batches (length rows))) = rows.
Proof.
  rewrite concat_batches. apply take_ge.
  pose proof (total_batches_bounds (length rows)). lia.
Qed.

Lemma batch_of_size rows b :
  b < upload_to_supabase.total_batches (length rows) →
  0 < length (upload_to_supabase.batch_of rows b) ≤ 500 ∧
  (S b < upload_to_supabase.total_batches (length rows) →
   length (upload_to_supabase.batch_of rows b) = 500).
Proof.
  intros Hb. rewrite length_batch_of.
  pose proof (total_batches_bounds (length rows)). split; [lia|]. intros HSb. lia.
Qed.
End batches.

(** X17. The batches of the uploader are the rows of the table: put one
    after the other in the order of the loop they give the rows, all of
    them and each once; no batch is empty, none has more than 500 rows, and
    all but the last have 500. *)
Theorem upload_batches_partition {A} (rows : list A) :
  concat (upload_to_supabase.batch_of rows
            <$> seq 0 (upload_to_supabase.total_batches (length rows))) = rows ∧
  ∀ b, (b < upload_to_supabase.total_batches (length rows))%nat →
    (0 < length (upload_to_supabase.batch_of rows b) ≤ upload_to_supabase.BATCH_SIZE)%nat ∧
    ((S b < upload_to_supabase.total_batches (length rows))%nat →
     length (upload_to_supabase.batch_of rows b) = upload_to_supabase.BATCH_SIZE).
Proof.
  split; [apply batches_partition|]. intros b. apply batch_of_size.
Qed.

Lemma sum_list_length_concat {A} (ls : list (list A)) :
  sum_list (length <$> ls) = length (concat ls).
Proof.
  induction ls as [|l ls IH]; [done|]. csimpl. rewrite length_app. by rewrite <- IH.
Qed.

Section upload.
Local Open Scope nat_scope.
Context {World : Type}.
Context (upload_batch : World → list upload_to_supabase.db_row → nat → bool * World).
Implicit Types (rows : list upload_to_supabase.db_row).

Lemma upload_step_count rows st b :
  let st' := upload_to_supabase.upload_step upload_batch rows st b in
  upload_to_supabase.successful st'
    + failed_rows rows (upload_to_supabase.failed_batches st')
  = upload_to_supabase.successful st
    + failed_rows rows (upload_to_supabase.failed_batches st)
    + length (upload_to_supabase.batch_of rows b) ∧
  ((upload_to_supabase.failed_batches st' = upload_to_supabase.failed_batches st ∧
    upload_to_supabase.successful st'
    = upload_to_supabase.successful st + length (upload_to_supabase.batch_of rows b)) ∨
   (∃ first_word last_word,
      upload_to_supabase.failed_batches st'
      = upload_to_supabase.failed_batches st ++ [(b + 1, first_word, last_word)] ∧
      upload_to_supabase.successful st' = upload_to_supabase.successful st)).
Proof.
  unfold upload_to_supabase.upload_step.
  destruct (upload_batch _ _ _) as [[|] w];
    cbn [upload_to_supabase.successful upload_to_supabase.failed_batches].
  - split; [lia|]. by left.
  - split; [|right; by eexists _, _].
    unfold failed_rows. rewrite fmap_app, sum_list_with_app.
    cbn [fmap list_fmap sum_list_with fst id].
    replace (b + 1 - 1) with b by lia. lia.
Qed.

Lemma upload_loop_count rows nums st :
  let st' := foldl (upload_to_supabase.upload_step upload_batch rows) st nums in
  upload_to_supabase.successful st'
    + failed_rows rows (upload_to_supabase.failed_batches st')
  = upload_to_supabase.successful st
    + failed_rows rows (upload_to_supabase.failed_batches st)
    + sum_list (length ∘ upload_to_supabase.batch_of rows <$> nums) ∧
  (Forall (λ f, 0 < length (upload_to_supabase.batch_of rows (f.1.1 - 1)))
     (upload_to_supabase.failed_batches st) →
   Forall (λ b, 0 < length (upload_to_supabase.batch_of rows b)) nums →
   Forall (λ f, 0 < length (upload_to_supabase.batch_of rows (f.1.1 - 1)))
     (upload_to_supabase.failed_batches st')).
Proof.
  revert st. induction nums as [|b nums IH]; intros st; cbn [foldl].
  { split; [cbn; lia|done]. }
  destruct (IH (upload_to_supabase.upload_step upload_batch rows st b)) as [Hcount Hfailed].
  destruct (upload_step_count rows st b) as [Hstep Hcases].
  split.
  - rewrite Hcount, Hstep. csimpl. lia.
  - intros Hst [Hb Hnums]%Forall_cons. apply Hfailed; [|done].
    destruct Hcases as [[-> _]|(first_word & last_word & -> & _)]; [done|].
    apply Forall_app. split; [done|]. apply Forall_singleton. cbn.
    by replace (b + 1 - 1) with b by lia.
Qed.
End upload.

(** X18. The report of the uploader adds up, whatever the service
    answers: the rows counted as successful and the rows of the batches
    listed as failed are together the rows of the table, so that
    [Successful: n/n] is printed exactly when no batch failed. *)
Theorem upload_report {World}
    (upload_batch : World → list upload_to_supabase.db_row → nat → bool * World)
    (w : World) (rows : list upload_to_supabase.db_row) :
  let st := upload_to_supabase.upload upload_batch w rows in
  (upload_to_supabase.successful st
     + failed_rows rows (upload_to_supabase.failed_batches st))%nat = length rows ∧
  (upload_to_supabase.successful st = length rows
   ↔ upload_to_supabase.failed_batches st = []).
Proof.
  intros st.
  destruct (upload_loop_count upload_batch rows
              (seq 0 (upload_to_supabase.total_batches (length rows)))
              {| upload_to_supabase.world := w;
                 upload_to_supabase.successful := 0;
                 upload_to_supabase.failed_batches := [] |}) as [Hcount Hfailed].
  fold (upload_to_supabase.upload upload_batch w rows) in Hcount, Hfailed.
  fold st in Hcount, Hfailed.
  cbn [upload_to_supabase.successful upload_to_supabase.failed_batches] in Hcount, Hfailed.
  change (failed_rows rows []) with 0%nat in Hcount.
  assert (sum_list (length ∘ upload_to_supabase.batch_of rows
                      <$> seq 0 (upload_to_supabase.total_batches (length rows)))
          = length rows) as Hsum.
  { by rewrite list_fmap_compose, sum_list_length_concat, batches_partition. }
  rewrite Hsum in Hcount. split; [lia|].
  assert (Forall (λ f, (0 < length (upload_to_supabase.batch_of rows (f.1.1 - 1)))%nat)
            (upload_to_supabase.failed_batches st)) as Hpositive.
  { apply Hfailed; [constructor|]. apply Forall_forall. intros b Hb%elem_of_seq.
    apply batch_of_size. lia. }
  split.
  - intros Hall. destruct (upload_to_supabase.failed_batches st) as [|f failed]; [done|].
    apply Forall_cons in Hpositive as [Hf _]. unfold failed_rows in Hcount.
    rewrite fmap_cons in Hcount. cbn [sum_list_with id] in Hcount. lia.
  - intros Hnone. rewrite Hnone in Hcount.
    change (failed_rows rows []) with 0%nat in Hcount. lia.
Qed.

(** ** The uploader on the final CSV *)

Lemma int_get_0_written U (r : row) key z :
  r !! key = Some (str_of_int z) →
  within_digit_limit U z →
  upload_to_supabase.int_get_0 U r key = Ok z.
Proof.
  unfold upload_to_supabase.int_get_0. intros -> Hz. by apply int_str_of_int.
Qed.

Lemma read_row_final_row U r d :
  build_final_csv.final_row U r = Ok d →
  ∃ d',
    upload_to_supabase.read_row U (written_row build_final_csv.FINAL_COLUMNS d) = Ok d' ∧
    uploaded_as U r d'.
Proof.
  unfold build_final_csv.final_row. intros Hrow.
  apply bind_Ok in Hrow as (nl & Hnl & Hrow).
  apply bind_Ok in Hrow as (z & Hz & [= <-]).
  unfold upload_to_supabase.read_row.
  rewrite (int_get_0_written U _ "number_of_letters" nl);
    [|reflexivity|by eapply int_Ok_within_limit].
  rewrite (int_get_0_written U _ "lex_rank" z);
    [|reflexivity|by eapply int_Ok_within_limit].
  cbv beta iota delta [mbind result_bind].
  eexists. split; [reflexivity|].
  unfold uploaded_as; cbn. split_and!; try done.
Qed.

Lemma read_rows_final_rows U rows ds db_rows :
  Forall2 (λ r d, build_final_csv.final_row U r = Ok d) rows ds →
  ∃ db_rows',
    upload_to_supabase.read_rows U
      (written_row build_final_csv.FINAL_COLUMNS <$> ds) db_rows
    = Ok (db_rows ++ db_rows') ∧
    Forall2 (uploaded_as U) rows db_rows'.
Proof.
  intros Hrows. revert db_rows.
  induction Hrows as [|r d rows ds Hd _ IH]; intros db_rows.
  - exists []. split; [by rewrite app_nil_r|constructor].
  - destruct (read_row_final_row U r d Hd) as (d' & Hd' & Hr).
    destruct (IH (db_rows ++ [d'])) as (db_rows' & Hread & Hall).
    exists (d' :: db_rows'). csimpl. rewrite Hd'.
    cbv beta iota delta [mbind result_bind]. rewrite Hread, <- app_assoc.
    split; [done|by constructor].
Qed.

(** X19. The uploader reads the final CSV that the Final Builder wrote
    without stopping, and makes of it one row of the table for every row
    that the Final Builder read: with the numbers that the Final Builder
    found in [number_of_letters] and [lex_rank], with the cleaned word, key
    and first letter, and with [None] for a part of speech, a definition or
    an etymology that is empty once cleaned. *)
Theorem upload_reads_final_csv U rows table :
  build_final_csv.final_csv U rows = Ok table →
  ∃ db_rows,
    upload_to_supabase.read_rows U table [] = Ok db_rows ∧
    Forall2 (uploaded_as U) rows db_rows.
Proof.
  intros Hcsv. apply final_csv_inv in Hcsv as (ds & Hds & ->).
  destruct (read_rows_final_rows U rows ds [] Hds) as (db_rows & Hread & Hall).
  by exists db_rows.
Qed.

Lemma upload_reads_final_csv_witness :
  ∃ db_rows,
    upload_to_supabase.read_rows latin1 (final_columns <$> table_ranked) [] = Ok db_rows ∧
    Forall2 (uploaded_as latin1) table_ranked db_rows.
Proof.
  apply (upload_reads_final_csv latin1 table_ranked). by_evaluation.
Defined.
